(** * PyZenKit [zendaemon]: event queue, callback dispatch, statistics and
      parallel-mode file naming, embedded in Rocq.

    The definitions follow [pyzenkit/zendaemon.py].  Python numbers
    (timestamps, counters, elapsed seconds) are exact rationals [Qc]: the
    rounding of floating point is not modelled.  Strings are [string] and are
    compared the way Python compares [str], character code by character code.
    Exceptions are values of [exn]; code that can raise returns a [result]. *)

From Stdlib Require Import ZArith QArith Qcanon Qround Ascii String.
From stdpp Require Import gmap strings list pretty sorting.

Open Scope string_scope.
Open Scope list_scope.

(** ** Exceptions and results *)

Inductive exn :=
  | QueueEmptyException (description : string)
  | ZenDaemonException (description : string)
  | TypeError
  | IndexError
  | AttributeError
  | ZeroDivisionError
  | KeyboardInterrupt
  | OtherException (name : string).

Inductive result (A : Type) :=
  | Ok (a : A)
  | Raise (e : exn).
Arguments Ok {A} a.
Arguments Raise {A} e.

Global Instance exn_eq_dec : EqDecision exn.
Proof. solve_decision. Defined.

Global Instance result_ret : MRet result := λ A a, Ok a.
Global Instance result_bind : MBind result := λ A B f m,
  match m with
  | Ok a => f a
  | Raise e => Raise e
  end.

Definition is_Ok {A} (r : result A) : Prop :=
  match r with Ok _ => True | Raise _ => False end.

(** [l[i]] and [l[i] = x] on a Python list: out of range raises. *)
Definition getitem {A} (l : list A) (i : nat) : result A :=
  match l !! i with
  | Some x => Ok x
  | None => Raise IndexError
  end.

Definition setitem {A} (l : list A) (i : nat) (x : A) : result (list A) :=
  if decide (i < length l)%nat then Ok (<[i:=x]> l) else Raise IndexError.

(** A payload shaped like the [dict] the callers pass: keys and integers. *)
Definition kv : Type := list (string * Z).

(** ** [heapq]: the binary heap of the Python standard library

    [heappush] and [heappop] with their two helpers, on a list indexed from
    0.  The order is the one Python gives the elements: [lt x y] is [x < y],
    which can raise.  The loops of [_siftdown] and [_siftup] move one index
    monotonically, so the number of elements bounds their iterations. *)

Module heapq.
Section heapq.
Context {E : Type} (lt : E → E → result bool).

Fixpoint _siftdown_loop (fuel : nat) (heap : list E) (startpos pos : nat)
    (newitem : E) : result (list E) :=
  if decide (startpos < pos)%nat then
    match fuel with
    | O => Raise IndexError
    | S fuel =>
        let parentpos := ((pos - 1) / 2)%nat in
        parent ← getitem heap parentpos;
        b ← lt newitem parent;
        if b : bool then
          heap ← setitem heap pos parent;
          _siftdown_loop fuel heap startpos parentpos newitem
        else setitem heap pos newitem
    end
  else setitem heap pos newitem.

Definition _siftdown (heap : list E) (startpos pos : nat) : result (list E) :=
  newitem ← getitem heap pos;
  _siftdown_loop pos heap startpos pos newitem.

Fixpoint _siftup_loop (fuel : nat) (heap : list E) (endpos pos : nat)
    (newitem : E) : result (list E * nat) :=
  let childpos := (2 * pos + 1)%nat in
  if decide (childpos < endpos)%nat then
    match fuel with
    | O => Raise IndexError
    | S fuel =>
        let rightpos := (childpos + 1)%nat in
        childpos ←
          (if decide (rightpos < endpos)%nat then
             l ← getitem heap childpos;
             r ← getitem heap rightpos;
             b ← lt l r;
             Ok (if b : bool then childpos else rightpos)
           else Ok childpos);
        child ← getitem heap childpos;
        heap ← setitem heap pos child;
        _siftup_loop fuel heap endpos childpos newitem
    end
  else
    heap ← setitem heap pos newitem;
    Ok (heap, pos).

Definition _siftup (heap : list E) (pos : nat) : result (list E) :=
  let endpos := length heap in
  let startpos := pos in
  newitem ← getitem heap pos;
  '(heap, pos) ← _siftup_loop endpos heap endpos pos newitem;
  _siftdown heap startpos pos.

Definition heappush (heap : list E) (item : E) : result (list E) :=
  let heap := heap ++ [item] in
  _siftdown heap 0 (length heap - 1).

(** The exception [e] comes from comparing two elements that satisfy [P]. *)
Definition raised_by (P : E → Prop) (e : exn) : Prop :=
  ∃ x y, P x ∧ P y ∧ lt x y = Raise e.

Definition heappop (heap : list E) : result (E * list E) :=
  match last heap with
  | None => Raise IndexError
  | Some lastelt =>
      let heap := take (length heap - 1) heap in
      match heap with
      | returnitem :: _ =>
          heap ← setitem heap 0 lastelt;
          heap ← _siftup heap 0;
          Ok (returnitem, heap)
      | [] => Ok (lastelt, [])
      end
  end.

(** *** Observers, for stating the properties *)

(** [ltb] is the order of the elements as a boolean function.  The element
    at index [i] is not smaller than its parent. *)
Definition edge_ok (ltb : E → E → bool) (heap : list E) (i : nat) : Prop :=
  ∀ p c, heap !! ((i - 1) / 2)%nat = Some p → heap !! i = Some c → ltb c p = false.

(** The heap property. *)
Definition is_heap (ltb : E → E → bool) (heap : list E) : Prop :=
  ∀ i, (0 < i)%nat → edge_ok ltb heap i.

(** The state of the loop of [_siftdown]: [newitem] travels up and is, in
    thought, at [pos].  The heap property holds everywhere but on the edge
    above [pos]; [newitem] is not greater than the children of [pos], nor is
    the parent of [pos]. *)
Definition moving_up (ltb : E → E → bool) (heap : list E) (pos : nat)
    (newitem : E) : Prop :=
  (∀ i, (0 < i)%nat → i ≠ pos → edge_ok ltb heap i) ∧
  (∀ i c, (0 < i)%nat → ((i - 1) / 2)%nat = pos → heap !! i = Some c →
          ltb c newitem = false) ∧
  (∀ i p c, (0 < pos)%nat → (0 < i)%nat → ((i - 1) / 2)%nat = pos →
            heap !! ((pos - 1) / 2)%nat = Some p → heap !! i = Some c →
            ltb c p = false).

(** The state of the loop of [_siftup]: the place [pos] is free and travels
    down.  The heap property holds on the edges that do not touch [pos], and
    the parent of [pos] is not greater than the children of [pos]. *)
Definition moving_down (ltb : E → E → bool) (heap : list E) (pos : nat) : Prop :=
  (∀ i, (0 < i)%nat → i ≠ pos → ((i - 1) / 2)%nat ≠ pos → edge_ok ltb heap i) ∧
  (∀ i p c, (0 < pos)%nat → (0 < i)%nat → ((i - 1) / 2)%nat = pos →
            heap !! ((pos - 1) / 2)%nat = Some p → heap !! i = Some c →
            ltb c p = false).
End heapq.
End heapq.

(** ** [EventQueueManager]

    [events] is the [collections.deque] of immediate entries [(event, args)],
    head first; [events_at] is the list that [heapq] keeps as a heap of
    [(tstamp, event, args)] tuples.  Event names are strings; [args] is
    [None] or a payload the queue never looks into, except that [heapq]
    compares whole tuples. *)

Module EventQueueManager.
Section EventQueueManager.
Context {payload : Type} `{!EqDecision payload}.

Definition args : Type := option payload.
Definition entry : Type := string * args.
Definition timed_entry : Type := Qc * string * args.

(** [x < y] on two [(tstamp, event, args)] tuples: Python looks for the
    first position where the tuples differ and compares there.  Two
    payloads that differ have no order (a [dict], or [None] against a
    [dict]): the comparison raises. *)
Definition tuple_lt (x y : timed_entry) : result bool :=
  let '(t1, e1, a1) := x in
  let '(t2, e2, a2) := y in
  if decide (t1 = t2) then
    if decide (e1 = e2) then
      if decide (a1 = a2) then Ok false else Raise TypeError
    else Ok (String.ltb e1 e2)
  else Ok (bool_decide (t1 < t2)%Qc).

Record t := mk {
  events : list entry;
  events_at : list timed_entry;
}.

(** [__init__] *)
Definition init : t := {| events := []; events_at := [] |}.

Definition schedule (event : string) (a : args) (self : t) : t :=
  {| events := events self ++ [(event, a)]; events_at := events_at self |}.

Definition schedule_next (event : string) (a : args) (self : t) : t :=
  {| events := (event, a) :: events self; events_at := events_at self |}.

Definition schedule_at (tstamp : Qc) (event : string) (a : args) (self : t)
    : result t :=
  heap ← heapq.heappush tuple_lt (events_at self) (tstamp, event, a);
  Ok {| events := events self; events_at := heap |}.

(** [now] is what [time.time()] returns. *)
Definition schedule_after (now : Qc) (delay : Qc) (event : string) (a : args)
    (self : t) : result t :=
  let tstamp := (now + delay)%Qc in
  heap ← heapq.heappush tuple_lt (events_at self) (tstamp, event, a);
  Ok {| events := events self; events_at := heap |}.

(** The tuple [next] returns: an entry as it was stored, or the placeholder
    [(None, None)]. *)
Definition fetched : Type := option string * args.

Definition next (now : Qc) (self : t) : result (fetched * t) :=
  let len1 := length (events_at self) in
  let due :=
    if decide (len1 ≠ 0)%nat then
      match events_at self !! 0%nat with
      | Some (tstamp, _, _) => bool_decide (tstamp ≤ now)%Qc
      | None => false
      end
    else false in
  if due then
    '((tstamp, event, a), heap) ← heapq.heappop tuple_lt (events_at self);
    Ok ((Some event, a), {| events := events self; events_at := heap |})
  else
    let len2 := length (events self) in
    match events self with
    | (event, a) :: rest =>
        Ok ((Some event, a), {| events := rest; events_at := events_at self |})
    | [] =>
        if decide (len1 + len2 = 0)%nat
        then Raise (QueueEmptyException "Event queue is empty")
        else Ok ((None, None), self)
    end.

Definition when (now : Qc) (self : t) : result Qc :=
  match events self with
  | _ :: _ => Ok now
  | [] => '(tstamp, _, _) ← getitem (events_at self) 0; Ok tstamp
  end.

Definition wait (now : Qc) (self : t) : result Qc :=
  match events self with
  | _ :: _ => Ok 0%Qc
  | [] => '(tstamp, _, _) ← getitem (events_at self) 0; Ok (tstamp - now)%Qc
  end.

Definition count (self : t) : nat :=
  (length (events_at self) + length (events self))%nat.

(** *** Observers, for stating the properties *)

Implicit Types q : t.
(** Is the root of the timed heap due at [now]? *)
Definition root_due (now : Qc) q : bool :=
  match events_at q with
  | (tstamp, _, _) :: _ => bool_decide (tstamp ≤ now)%Qc
  | [] => false
  end.

(** [schedule] called for each entry of a list, in order. *)
Definition schedule_all (es : list entry) q : t :=
  foldl (λ q '(event, a), schedule event a q) q es.

(** Successive calls of [next], one per clock reading. *)
Fixpoint next_all (nows : list Qc) q : result (list fetched * t) :=
  match nows with
  | [] => Ok ([], q)
  | now :: nows =>
      '(x, q) ← next now q;
      '(xs, q) ← next_all nows q;
      Ok (x :: xs, q)
  end.

Definition as_fetched (e : entry) : fetched := (Some e.1, e.2).

(** No two timed entries have the same due time and name and different
    arguments: [heapq] can order all the tuples of the heap. *)
Definition tie_free (heap : list timed_entry) : Prop :=
  ∀ x y, x ∈ heap → y ∈ heap → x.1 = y.1 → x.2 = y.2.

(** The order of the tuples up to their arguments: by due time, then by
    event name. *)
Definition key_ltb (x y : timed_entry) : bool :=
  let '(t1, e1, _) := x in
  let '(t2, e2, _) := y in
  if decide (t1 = t2) then
    if decide (e1 = e2) then false else String.ltb e1 e2
  else bool_decide (t1 < t2)%Qc.

(** A queue whose timed entries form a heap that [heapq] can order. *)
Definition well_formed q : Prop :=
  heapq.is_heap key_ltb (events_at q) ∧ tie_free (events_at q).

End EventQueueManager.
Arguments t : clear implicits.
Arguments args : clear implicits.
Arguments entry : clear implicits.
Arguments timed_entry : clear implicits.
Arguments fetched : clear implicits.
End EventQueueManager.

(** ** [calc_statistics] and the component counters

    A statistics tree is a [dict] whose values are numbers or nested trees.
    A [dict] is the list of its items in insertion order, which is the order
    in which Python iterates over it; its keys are distinct. *)

Module statistics.

#[local] Unset Elimination Schemes.
Inductive stat :=
  | SNum (n : Qc)
  | SDict (items : list (string * stat)).

(** What [calc_statistics] builds for one numeric key. *)
Record counter := mk_counter { cnt : Qc; inc : Qc; spd : Qc; pct : Qc }.

Inductive rstat :=
  | RCounter (c : counter)
  | RDict (items : list (string * rstat)).
#[local] Set Elimination Schemes.

Fixpoint dict_get {V} (d : list (string * V)) (key : string) : option V :=
  match d with
  | [] => None
  | (k, v) :: d => if decide (k = key) then Some v else dict_get d key
  end.

(** [d[key] = v] *)
Fixpoint dict_set {V} (d : list (string * V)) (key : string) (v : V)
    : list (string * V) :=
  match d with
  | [] => [(key, v)]
  | (k, v') :: d =>
      if decide (k = key) then (k, v) :: d else (k, v') :: dict_set d key v
  end.

(** [obj.get(key, default)]: only a [dict] has the method. *)
Definition py_get (obj : stat) (key : string) (fallback : stat) : result stat :=
  match obj with
  | SDict d => Ok (default fallback (dict_get d key))
  | SNum _ => Raise AttributeError
  end.

(** [x - y] with [x] a number. *)
Definition py_sub (x : Qc) (y : stat) : result Qc :=
  match y with
  | SNum y => Ok (x - y)%Qc
  | SDict _ => Raise TypeError
  end.

(** [x / y] *)
Definition py_truediv (x y : Qc) : result Qc :=
  if decide (y = 0%Qc) then Raise ZeroDivisionError else Ok (x / y)%Qc.

Definition hundred : Qc := Qc_of_Z 100.

(** The body of the loop of [calc_statistics] for one key: the value stored
    in [result[key]].  The items of the [dict] literal are evaluated in the
    order they are written. *)
Fixpoint calc_item (key : string) (cur : stat) (stats_prev : stat) (tdiff : Qc)
    {struct cur} : result rstat :=
  match cur with
  | SDict sub =>
      prev ← py_get stats_prev key (SDict []);
      r ← (fix loop (items : list (string * stat)) : result (list (string * rstat)) :=
             match items with
             | [] => Ok []
             | (k, v) :: items =>
                 r ← calc_item k v prev tdiff;
                 rs ← loop items;
                 Ok ((k, r) :: rs)
             end) sub;
      Ok (RDict r)
  | SNum b =>
      let c_cnt := b in
      a ← py_get stats_prev key (SNum 0%Qc);
      c_inc ← py_sub b a;
      a ← py_get stats_prev key (SNum 0%Qc);
      d ← py_sub b a;
      c_spd ← py_truediv d tdiff;
      a ← py_get stats_prev key (SNum 0%Qc);
      d ← py_sub b a;
      h ← py_truediv b hundred;
      c_pct ← py_truediv d h;
      Ok (RCounter {| cnt := c_cnt; inc := c_inc; spd := c_spd; pct := c_pct |})
  end.

Fixpoint calc_statistics (stats_cur : list (string * stat)) (stats_prev : stat)
    (tdiff : Qc) : result (list (string * rstat)) :=
  match stats_cur with
  | [] => Ok []
  | (key, v) :: items =>
      r ← calc_item key v stats_prev tdiff;
      rs ← calc_statistics items stats_prev tdiff;
      Ok ((key, r) :: rs)
  end.

(** Every counter record of a result tree, at any depth, satisfies [P]. *)
Fixpoint rstat_Forall (P : counter → Prop) (r : rstat) : Prop :=
  match r with
  | RCounter c => P c
  | RDict items =>
      (fix all (items : list (string * rstat)) : Prop :=
         match items with
         | [] => True
         | (_, r) :: items => rstat_Forall P r ∧ all items
         end) items
  end.

Definition rdict_Forall (P : counter → Prop) (items : list (string * rstat)) : Prop :=
  rstat_Forall P (RDict items).

(** Every number of a statistics tree, at any depth, is not zero. *)
Fixpoint stat_nonzero (s : stat) : Prop :=
  match s with
  | SNum b => b ≠ 0%Qc
  | SDict items =>
      (fix all (items : list (string * stat)) : Prop :=
         match items with
         | [] => True
         | (_, s) :: items => stat_nonzero s ∧ all items
         end) items
  end.

(** The record the specification gives for previous value [a], current
    value [b] and elapsed time [tdiff]. *)
Definition derived (a b tdiff : Qc) : counter :=
  {| cnt := b;
     inc := (b - a)%Qc;
     spd := ((b - a) / tdiff)%Qc;
     pct := ((b - a) / (b / hundred))%Qc |}.

(** With an empty previous snapshot every counter, at any depth, is counted
    from zero. *)
Definition from_zero (tdiff : Qc) (c : counter) : Prop :=
  inc c = cnt c ∧ spd c = (cnt c / tdiff)%Qc.
End statistics.

(** [ZenDaemonComponent]: the counters of a component.  [inc_statistic] only
    writes top-level keys, so the shallow [copy.copy] of [get_statistics]
    copies everything these operations can change. *)
Module ZenDaemonComponent.
Import statistics.

Record t := mk {
  statistics_cur : list (string * stat);
  statistics_prev : list (string * stat);
  statistics_ts : Qc;
}.

(** [__init__]; [now] is what [time.time()] returns. *)
Definition init (now : Qc) : t :=
  {| statistics_cur := []; statistics_prev := []; statistics_ts := now |}.

Definition inc_statistic (key : string) (increment : Qc) (self : t) : result t :=
  match default (SNum 0%Qc) (dict_get (statistics_cur self) key) with
  | SNum n =>
      Ok {| statistics_cur := dict_set (statistics_cur self) key (SNum (n + increment)%Qc);
            statistics_prev := statistics_prev self;
            statistics_ts := statistics_ts self |}
  | SDict _ => Raise TypeError
  end.

Definition get_statistics (curts : Qc) (self : t)
    : result (list (string * rstat) * t) :=
  let tdiff := (curts - statistics_ts self)%Qc in
  stats ← calc_statistics (statistics_cur self) (SDict (statistics_prev self)) tdiff;
  Ok (stats, {| statistics_cur := statistics_cur self;
                statistics_prev := statistics_cur self;
                statistics_ts := curts |}).
End ZenDaemonComponent.

(** ** Strings, paths and sorting from the Python library *)

Module pylib.

(** The characters of a string, and back. *)
Definition chars (s : string) : list ascii := list_ascii_of_string s.
Definition str (l : list ascii) : string := string_of_list_ascii l.

(** The newline character, as a string. *)
Definition LF : string := String (Ascii.ascii_of_nat 10) "".

Definition endswith (suffix s : string) : bool :=
  bool_decide (drop (length (chars s) - length (chars suffix)) (chars s)
               = chars suffix).

(** [s] without its last [n] characters. *)
Definition drop_end (n : nat) (s : string) : string :=
  str (take (length (chars s) - n) (chars s)).

(** [re.sub(pattern, repl, s)] for a pattern that is the literal [lit]
    followed by [$], and a replacement without escapes.  [$] matches at the
    end of the string and just before a newline that ends the string, so
    there is at most one match. *)
Definition re_sub_at_end (lit repl s : string) : string :=
  if endswith lit s then drop_end (String.length lit) s +:+ repl
  else if endswith (lit +:+ LF) s
  then drop_end (String.length lit + 1) s +:+ repl +:+ LF
  else s.

(** ["{:05d}".format(n)] for [n >= 0]: decimal digits, padded with zeros on
    the left up to five characters. *)
Definition format_05d (n : N) : string :=
  let digits := pretty n in
  str (replicate (5 - String.length digits) "0"%char) +:+ digits.

(** [os.path.join(a, b)] *)
Definition os_path_join (a b : string) : string :=
  if String.prefix "/" b then b
  else if bool_decide (a = "") || endswith "/" a then a +:+ b
  else a +:+ "/" +:+ b.

(** [sorted(l, reverse=reverse)] on strings: [list.sort] with the reverse
    flag reverses, sorts ascending, and reverses again. *)
Definition sorted (l : list string) (descending : bool) : list string :=
  if descending then reverse (merge_sort String.le (reverse l))
  else merge_sort String.le l.
End pylib.

(** ** [ZenDaemon]: the names of the files of one process *)

Module zenfiles.
Import pylib.

(** What the file name methods read from [self]: the application name, the
    [run] path and five configuration values. *)
Record t := mk {
  name : string;
  path_run : string;
  cfg_paralel : bool;
  cfg_pid_file : string;
  cfg_state_file : string;
  cfg_runlog_dir : string;
  runlog_tsfsf : string;
}.

Section zenfiles.
(** [pid] is what [os.getpid()] returns; [glob_glob] is [glob.glob] on the
    file system of the moment. *)
Context (pid : N) (glob_glob : string → list string).

Definition _pidfiles_list (reverse : bool) (self : t) : list string :=
  let pfn := os_path_join (path_run self) (name self +:+ "*.pid") in
  sorted (glob_glob pfn) reverse.

Definition _get_fn_state (self : t) : string :=
  if negb (cfg_paralel self) then cfg_state_file self
  else re_sub_at_end ".state" ("." +:+ format_05d pid +:+ ".state")
         (cfg_state_file self).

Definition _get_fn_pidfile (self : t) : string :=
  if negb (cfg_paralel self) then cfg_pid_file self
  else re_sub_at_end ".pid" ("." +:+ format_05d pid +:+ ".pid")
         (cfg_pid_file self).

Definition _get_fn_runlog (self : t) : string :=
  if negb (cfg_paralel self)
  then os_path_join (cfg_runlog_dir self) (runlog_tsfsf self +:+ ".runlog")
  else os_path_join (cfg_runlog_dir self)
         (runlog_tsfsf self +:+ "." +:+ format_05d pid +:+ ".runlog").
End zenfiles.

(** A daemon [d] in parallel mode, for the examples. *)
Definition demo (pid_file : string) : t :=
  {| name := "d"; path_run := "/run"; cfg_paralel := true;
     cfg_pid_file := pid_file; cfg_state_file := "/run/d.state";
     cfg_runlog_dir := "/var/log"; runlog_tsfsf := "201701011200" |}.
End zenfiles.

(** ** [ZenDaemon]: callback registry and event loop

    [self.callbacks] is a [dict] from event names to list objects, and
    [_init_event_callback] changes such a list in place, so the registry is
    a map from names to references ([callbacks]) and a store of lists
    ([lists]): a list that was looked up is still the list that a later
    [append] changes.  A handler is known by a name of type [handler] and
    run by [run_handler], which maps the daemon and the arguments to the
    pair the handler returns and the daemon it leaves behind, or to the
    exception it raises.  What the loop cannot see in time (the clock) and
    in effect (log records) is part of the state. *)

Module ZenDaemon.

Definition FLAG_CONTINUE : Z := 1.
Definition FLAG_STOP : Z := 0.

Definition EVENT_SIGNAL_HUP : string := "signal_hup".
Definition EVENT_SIGNAL_USR1 : string := "signal_usr1".
Definition EVENT_SIGNAL_USR2 : string := "signal_usr2".
Definition EVENT_LOG_STATISTICS : string := "log_statistics".

(** The identity of a list object. *)
Definition ref : Type := nat.

Section ZenDaemon.
Context {payload handler components : Type} `{!EqDecision payload}.

Definition args : Type := option payload.

Record t := mk {
  flag_done : bool;
  queue : EventQueueManager.t payload;
  callbacks : gmap string ref;
  lists : gmap ref (list handler);
  clock : Qc;
  logger : list (string * string);
  cfg_stats_interval : Qc;
  comps : components;
}.

Definition set_flag_done (b : bool) (self : t) : t :=
  {| flag_done := b; queue := queue self; callbacks := callbacks self;
     lists := lists self; clock := clock self; logger := logger self;
     cfg_stats_interval := cfg_stats_interval self; comps := comps self |}.

Definition set_queue (q : EventQueueManager.t payload) (self : t) : t :=
  {| flag_done := flag_done self; queue := q; callbacks := callbacks self;
     lists := lists self; clock := clock self; logger := logger self;
     cfg_stats_interval := cfg_stats_interval self; comps := comps self |}.

Definition set_registry (c : gmap string ref) (l : gmap ref (list handler))
    (self : t) : t :=
  {| flag_done := flag_done self; queue := queue self; callbacks := c;
     lists := l; clock := clock self; logger := logger self;
     cfg_stats_interval := cfg_stats_interval self; comps := comps self |}.

Definition set_clock (now : Qc) (self : t) : t :=
  {| flag_done := flag_done self; queue := queue self;
     callbacks := callbacks self; lists := lists self; clock := now;
     logger := logger self; cfg_stats_interval := cfg_stats_interval self;
     comps := comps self |}.

Definition set_comps (c : components) (self : t) : t :=
  {| flag_done := flag_done self; queue := queue self;
     callbacks := callbacks self; lists := lists self; clock := clock self;
     logger := logger self; cfg_stats_interval := cfg_stats_interval self;
     comps := c |}.

(** [self.logger.<level>(message)] *)
Definition log (level message : string) (self : t) : t :=
  {| flag_done := flag_done self; queue := queue self;
     callbacks := callbacks self; lists := lists self; clock := clock self;
     logger := logger self ++ [(level, message)];
     cfg_stats_interval := cfg_stats_interval self; comps := comps self |}.

(** The list object that [self.callbacks[event]] refers to. *)
Definition chain (event : string) (self : t) : option (list handler) :=
  l ← callbacks self !! event; lists self !! l.

Definition _init_event_callback (event : string) (callback : handler)
    (prepend : bool) (self : t) : t :=
  let self :=
    match callbacks self !! event with
    | Some _ => self
    | None =>
        let l := fresh (dom (lists self)) in
        set_registry (<[event:=l]> (callbacks self)) (<[l:=[]]> (lists self)) self
    end in
  match callbacks self !! event with
  | Some l =>
      let old := default [] (lists self !! l) in
      let new := if prepend then callback :: old else old ++ [callback] in
      set_registry (callbacks self) (<[l:=new]> (lists self)) self
  | None => self
  end.

(** [_init_callbacks] and [_init_components]: every
    [{'event', 'callback', 'prepend'}] record that [get_events] lists, in
    order. *)
Definition _init_callbacks (events : list (string * handler * bool)) (self : t) : t :=
  foldl (λ self '(event, callback, prepend),
           _init_event_callback event callback prepend self) self events.

(** What a handler call comes to. *)
Inductive hresult :=
  | HReturn (flag : Z) (a : args) (self : t)
  | HRaise (e : exn) (self : t).

Definition hstate (r : hresult) : t :=
  match r with HReturn _ _ self | HRaise _ self => self end.

(** One handler call, as the properties below observe it: the handler,
    the arguments it received and the pair it returned, if it returned. *)
Record call := mk_call {
  call_handler : handler;
  call_args : args;
  call_result : option (Z * args);
}.

(** How a piece of the loop ends.  [OutOfFuel] is not an ending: the
    bounded model was stopped before the code was. *)
Inductive outcome :=
  | Return (self : t)
  | Raised (e : exn) (self : t)
  | OutOfFuel.

Context (run_handler : handler → t → args → hresult).

(** [for handler in lst: ...], from index [i] on.  The list iterator keeps
    the list object and an index and reads the object anew for every item. *)
Fixpoint for_handlers (fuel : nat) (lst : ref) (i : nat) (a : args) (self : t)
    : list call * outcome :=
  match fuel with
  | O => ([], OutOfFuel)
  | S fuel =>
      match default [] (lists self !! lst) !! i with
      | None => ([], Return self)
      | Some handler =>
          match run_handler handler self a with
          | HRaise e self => ([mk_call handler a None], Raised e self)
          | HReturn flag a' self =>
              let c := mk_call handler a (Some (flag, a')) in
              if decide (flag ≠ FLAG_CONTINUE) then ([c], Return self)
              else
                let '(calls, r) := for_handlers fuel lst (S i) a' self in
                (c :: calls, r)
          end
      end
  end.

(** [if event:] on what [next] returned. *)
Definition truthy (event : option string) : bool :=
  match event with
  | Some name => negb (bool_decide (name = ""))
  | None => false
  end.

(** The [if event:] branch of the loop, for the event [name]. *)
Definition dispatch (fuel : nat) (name : string) (a : args) (self : t)
    : list call * outcome :=
  match callbacks self !! name with
  | None =>
      ([], Raised (ZenDaemonException
                     ("There is no callback to handle event '" +:+ name +:+ "'"))
                  self)
  | Some lst => for_handlers fuel lst 0 a self
  end.

(** [wait]: the alarm ends the pause after [period] seconds. *)
Definition wait (period : Qc) (self : t) : t :=
  let period := Qceiling period in
  if decide (0 < period)%Z then
    let self :=
      log "info" ("Waiting for '" +:+ pretty period
                  +:+ "' seconds until next scheduled event") self in
    set_clock (clock self + Qc_of_Z period)%Qc self
  else self.

Definition done (self : t) : t := set_flag_done true self.

(** The body of the [try] statement of [_event_loop]. *)
Definition try_body (fuel : nat) (self : t) : list call * outcome :=
  match EventQueueManager.next (clock self) (queue self) with
  | Raise e => ([], Raised e self)
  | Ok ((event, a), q) =>
      let self := set_queue q self in
      if truthy event then dispatch fuel (default "" event) a self
      else
        match EventQueueManager.wait (clock self) (queue self) with
        | Raise e => ([], Raised e self)
        | Ok wait_time =>
            if decide (0 < wait_time)%Qc then ([], Return (wait wait_time self))
            else ([], Return self)
        end
  end.

(** One turn of the [while] loop: the [try] statement with its handler. *)
Definition iteration (fuel : nat) (self : t) : list call * outcome :=
  match try_body fuel self with
  | (calls, Raised (QueueEmptyException _) self) =>
      let self := log "info" "Event queue is empty, terminating" self in
      (calls, Return (set_flag_done true self))
  | r => r
  end.

Fixpoint while_not_done (fuel : nat) (self : t) : list call * outcome :=
  if flag_done self then ([], Return self)
  else
    match fuel with
    | O => ([], OutOfFuel)
    | S fuel =>
        match iteration fuel self with
        | (calls, Return self) =>
            let '(calls', r) := while_not_done fuel self in
            (calls ++ calls', r)
        | r => r
        end
    end.

Definition _event_loop (fuel : nat) (self : t) : list call * outcome :=
  while_not_done fuel (set_flag_done false self).

(** *** Observers, for stating the properties *)

(** Each call receives what the call before it returned, the first one
    [a]; a call that raised is the last one. *)
Fixpoint threaded (a : args) (calls : list call) : Prop :=
  match calls with
  | [] => True
  | c :: calls =>
      call_args c = a ∧
      match call_result c with
      | Some (_, a') => threaded a' calls
      | None => calls = []
      end
  end.

Definition call_flag (c : call) : option Z := fst <$> call_result c.

(** The handler chain as the specification describes it: the handlers of a
    given list, in order; each receives what the one before returned; a
    flag other than [FLAG_CONTINUE] skips the rest. *)
Fixpoint run_chain (handlers : list handler) (a : args) (self : t)
    : list call * outcome :=
  match handlers with
  | [] => ([], Return self)
  | handler :: handlers =>
      match run_handler handler self a with
      | HRaise e self => ([mk_call handler a None], Raised e self)
      | HReturn flag a' self =>
          let c := mk_call handler a (Some (flag, a')) in
          if decide (flag ≠ FLAG_CONTINUE) then ([c], Return self)
          else
            let '(calls, r) := run_chain handlers a' self in
            (c :: calls, r)
      end
  end.

(** The call of a handler that returns [(FLAG_CONTINUE, args)]. *)
Definition passed (a : args) (handler : handler) : call :=
  mk_call handler a (Some (FLAG_CONTINUE, a)).

(** [self.callbacks[event] = [callback]]: what a handler does that puts a
    new list in the registry instead of changing the registered one. *)
Definition rebind_callbacks (event : string) (callback : handler) (self : t) : t :=
  let l := fresh (dom (lists self)) in
  set_registry (<[event:=l]> (callbacks self)) (<[l:=[callback]]> (lists self)) self.
End ZenDaemon.

Arguments t : clear implicits.
Arguments hresult : clear implicits.
Arguments outcome : clear implicits.
Arguments call : clear implicits.
End ZenDaemon.

(** ** [DemoZenDaemon]

    The demonstration daemon of the module: one component with one handler
    for the event [default].  Of the handlers of [ZenDaemon.get_events] the
    two for [SIGUSR1] and [SIGUSR2] write files through [baseapp]; they are
    not part of this example. *)

Module DemoZenDaemon.
Import ZenDaemon.

Inductive handler :=
  | cbk_event_signal_hup
  | cbk_event_log_statistics
  | cbk_event_default.

Global Instance handler_eq_dec : EqDecision handler.
Proof. solve_decision. Defined.

Definition daemon : Type := ZenDaemon.t kv handler ZenDaemonComponent.t.

Definition run_handler (h : handler) (self : daemon) (a : option kv)
    : ZenDaemon.hresult kv handler ZenDaemonComponent.t :=
  match h with
  | cbk_event_signal_hup =>
      let self := log "warning" "Handling event for signal 'SIGHUP'" self in
      HReturn FLAG_CONTINUE a self
  | cbk_event_log_statistics =>
      match EventQueueManager.schedule_after (clock self) (cfg_stats_interval self)
              EVENT_LOG_STATISTICS None (queue self) with
      | Raise e => HRaise e self
      | Ok q => HReturn FLAG_CONTINUE a (set_queue q self)
      end
  | cbk_event_default =>
      let self := set_queue (EventQueueManager.schedule "default" None (queue self)) self in
      let self := log "info" "Working..." self in
      match ZenDaemonComponent.inc_statistic "cnt_default" 1%Qc (comps self) with
      | Raise e => HRaise e self
      | Ok c =>
          let self := set_comps c self in
          let self := set_clock (clock self + 1)%Qc self in
          let self := log "info" "Work unit done" self in
          HReturn FLAG_CONTINUE None self
      end
  end.

(** [get_events] of the daemon and of the component. *)
Definition get_events : list (string * handler * bool) :=
  [(EVENT_SIGNAL_HUP, cbk_event_signal_hup, false);
   (EVENT_LOG_STATISTICS, cbk_event_log_statistics, false)].

Definition component_get_events : list (string * handler * bool) :=
  [("default", cbk_event_default, false)].

(** [__init__]: the callbacks of the daemon, then those of the component,
    then the initial event. *)
Definition init (now : Qc) : daemon :=
  let self :=
    {| flag_done := false; queue := EventQueueManager.init;
       callbacks := ∅; lists := ∅; clock := now; logger := [];
       cfg_stats_interval := Qc_of_Z 300;
       comps := ZenDaemonComponent.init now |} in
  let self := _init_callbacks get_events self in
  let self := _init_callbacks component_get_events self in
  set_queue (EventQueueManager.schedule "default" None (queue self)) self.
End DemoZenDaemon.

(** A registry for the examples: handlers known by name.  [register_late]
    registers the handler [late] for the event it handles, [rebind] puts a
    new list with [late] in the registry, [stop] returns [FLAG_STOP], and
    every other handler returns [FLAG_CONTINUE]. *)
Module TestDaemon.
Import ZenDaemon.

Definition daemon : Type := ZenDaemon.t kv string unit.

Definition run_handler (h : string) (self : daemon) (a : option kv)
    : ZenDaemon.hresult kv string unit :=
  if decide (h = "register_late")
  then HReturn FLAG_CONTINUE a (_init_event_callback "ev" "late" false self)
  else if decide (h = "rebind")
  then HReturn FLAG_CONTINUE a (rebind_callbacks "ev" "late" self)
  else if decide (h = "stop") then HReturn FLAG_STOP (Some [("stopped", 1%Z)]) self
  else if decide (h = "tag") then HReturn FLAG_CONTINUE (Some [("tagged", 1%Z)]) self
  else HReturn FLAG_CONTINUE a self.

(** A daemon with the handlers [hs] registered for the event [ev] and the
    immediate events [es] in its queue. *)
Definition make (hs : list string) (es : list (string * option kv)) : daemon :=
  let self :=
    {| flag_done := false;
       queue := EventQueueManager.schedule_all es EventQueueManager.init;
       callbacks := ∅; lists := ∅; clock := 0%Qc; logger := [];
       cfg_stats_interval := Qc_of_Z 300; comps := tt |} in
  _init_callbacks ((λ h, ("ev", h, false)) <$> hs) self.
End TestDaemon.

(** C5 as the specification words it: the handlers that a dispatch invokes
    are among those registered for the event when the dispatch began. *)
Definition dispatch_invokes_captured_handlers : Prop :=
  ∀ (run_handler : string → TestDaemon.daemon → option kv → ZenDaemon.hresult kv string unit)
    fuel name a self handlers calls r,
    ZenDaemon.chain name self = Some handlers →
    ZenDaemon.dispatch run_handler fuel name a self = (calls, r) →
    ∀ c, c ∈ calls → ZenDaemon.call_handler c ∈ handlers.

(** C6 as the specification words it: an event without an entry in the
    registry makes the turn of the loop that dequeues it end with
    [ZenDaemonException]. *)
Definition unknown_event_raises : Prop :=
  ∀ (run_handler : string → TestDaemon.daemon → option kv → ZenDaemon.hresult kv string unit)
    fuel self name a q,
    EventQueueManager.next (ZenDaemon.clock self) (ZenDaemon.queue self)
      = Ok ((Some name, a), q) →
    ZenDaemon.callbacks self !! name = None →
    ∃ message self',
      (ZenDaemon.iteration run_handler fuel self).2
        = ZenDaemon.Raised (ZenDaemonException message) self'.

(** C9 as the specification words it, for the PID file: in parallel mode
    the resolved path is the configured path, cut somewhere into a stem and
    an extension, with the formatted PID put in between. *)
Definition parallel_pid_file_carries_pid : Prop :=
  ∀ (pid : N) (self : zenfiles.t),
    zenfiles.cfg_paralel self = true →
    ∃ stem ext,
      zenfiles.cfg_pid_file self = stem +:+ ext ∧
      zenfiles._get_fn_pidfile pid self
      = stem +:+ "." +:+ pylib.format_05d pid +:+ ext.

(** C3 as the specification words it: of two entries with the same due time
    the one scheduled first is the one [next] returns first. *)
Definition ties_keep_insertion_order : Prop :=
  ∀ tstamp e1 (a1 : EventQueueManager.args kv) e2 a2 now q2 r q1,
    EventQueueManager.schedule_at tstamp e1 a1 EventQueueManager.init ≫= EventQueueManager.schedule_at tstamp e2 a2 = Ok q2 →
    (tstamp ≤ now)%Qc →
    EventQueueManager.next now q2 = Ok (r, q1) →
    r = (Some e1, a1).

(** * Histories, initial events, signal handlers and daemon statistics *)

(** ** Sequences of queue operations

    A history of a queue: the calls made on it, each with what the clock
    reads where the method reads it. *)

Module queue_ops.
Import EventQueueManager.
Section queue_ops.
Context {payload : Type} `{!EqDecision payload}.

Inductive op :=
  | Schedule (event : string) (a : args payload)
  | ScheduleNext (event : string) (a : args payload)
  | ScheduleAt (tstamp : Qc) (event : string) (a : args payload)
  | ScheduleAfter (now delay : Qc) (event : string) (a : args payload)
  | Next (now : Qc).

(** One call; the tuple that [next] returns is dropped. *)
Definition run_op (o : op) (q : t payload) : result (t payload) :=
  match o with
  | Schedule event a => Ok (schedule event a q)
  | ScheduleNext event a => Ok (schedule_next event a q)
  | ScheduleAt tstamp event a => schedule_at tstamp event a q
  | ScheduleAfter now delay event a => schedule_after now delay event a q
  | Next now => '(_, q) ← next now q; Ok q
  end.

Fixpoint run_ops (ops : list op) (q : t payload) : result (t payload) :=
  match ops with
  | [] => Ok q
  | o :: ops => q ← run_op o q; run_ops ops q
  end.

(** The due time of a timed entry, and the tuple [next] returns for it. *)
Definition due (x : timed_entry payload) : Qc := x.1.1.
Definition timed_fetched (x : timed_entry payload) : fetched payload :=
  (Some x.1.2, x.2).

(** [x] is not after [y] in the order of the heap: by due time, then by
    event name. *)
Definition key_le (x y : timed_entry payload) : Prop := key_ltb y x = false.

(** The order that [heapq] uses where it can, as a comparison that never
    raises. *)
Definition key_lt (x y : timed_entry payload) : result bool := Ok (key_ltb x y).
End queue_ops.
Arguments op : clear implicits.
End queue_ops.

(** ** Histories of a component, and what a result tree is compared with *)

Module component_ops.
Import statistics ZenDaemonComponent.

(** A call of [inc_statistic] or of [get_statistics], the latter with what
    the clock reads. *)
Inductive step :=
  | Inc (key : string) (increment : Qc)
  | Sample (curts : Qc).

(** One call; the statistics that [get_statistics] returns are dropped. *)
Definition run_step (o : step) (self : t) : result t :=
  match o with
  | Inc key increment => inc_statistic key increment self
  | Sample curts => '(_, self) ← get_statistics curts self; Ok self
  end.

Fixpoint run_steps (ops : list step) (self : t) : result t :=
  match ops with
  | [] => Ok self
  | o :: ops => self ← run_step o self; run_steps ops self
  end.

(** [inc_statistic] called for each pair of a list, in order. *)
Fixpoint inc_all (incs : list (string * Qc)) (self : t) : result t :=
  match incs with
  | [] => Ok self
  | (key, increment) :: incs =>
      self ← inc_statistic key increment self; inc_all incs self
  end.

(** The sum of the increments that a list gives to [key]. *)
Fixpoint total (key : string) (incs : list (string * Qc)) : Qc :=
  match incs with
  | [] => 0%Qc
  | (k, increment) :: incs =>
      if decide (k = key) then (increment + total key incs)%Qc
      else total key incs
  end.

(** Every value of a [dict] is a number. *)
Definition flat (d : list (string * stat)) : Prop :=
  Forall (λ kv, ∃ b, kv.2 = SNum b) d.

(** The keys of a tree are distinct at every level, as in a [dict]. *)
Fixpoint keys_distinct (s : stat) : Prop :=
  match s with
  | SNum _ => True
  | SDict items =>
      NoDup items.*1 ∧
      (fix all (items : list (string * stat)) : Prop :=
         match items with
         | [] => True
         | (_, s) :: items => keys_distinct s ∧ all items
         end) items
  end.

(** The result tree [r] has the keys of the tree [s], in the same order at
    every level, a record for every number and a [dict] for every [dict];
    the [cnt] of a record is the number. *)
Fixpoint mirrors (s : stat) (r : rstat) {struct s} : Prop :=
  match s, r with
  | SNum b, RCounter c => cnt c = b
  | SDict items, RDict ritems =>
      (fix all (items : list (string * stat)) (ritems : list (string * rstat))
           : Prop :=
         match items, ritems with
         | [], [] => True
         | (k, s) :: items, (k', r) :: ritems =>
             k = k' ∧ mirrors s r ∧ all items ritems
         | _, _ => False
         end) items ritems
  | _, _ => False
  end.

(** A counter that did not move. *)
Definition unchanged (c : counter) : Prop :=
  inc c = 0%Qc ∧ spd c = 0%Qc ∧ pct c = 0%Qc.
End component_ops.

(** ** [ZenDaemon]: initial events and signal handlers *)

Module ZenDaemon_setup.
Import ZenDaemon.
Section ZenDaemon_setup.
Context {payload handler components : Type} `{!EqDecision payload}.
Implicit Types self : ZenDaemon.t payload handler components.

(** The keyword arguments that [_init_schedule] reads, each one a list of
    argument tuples; the arguments of an event are [None] where a tuple
    leaves them out. *)
Record schedule_kwargs := mk_kwargs {
  kw_schedule : list (string * option payload);
  kw_schedule_next : list (string * option payload);
  kw_schedule_at : list (Qc * string * option payload);
  kw_schedule_after : list (Qc * string * option payload);
}.

(** The loop over [initial_events] that calls [method] with each tuple
    unpacked, for a method that can raise. *)
Fixpoint for_events {A}
    (method : A → EventQueueManager.t payload → result (EventQueueManager.t payload))
    (initial_events : list A) (q : EventQueueManager.t payload)
    : result (EventQueueManager.t payload) :=
  match initial_events with
  | [] => Ok q
  | event :: initial_events =>
      q ← method event q; for_events method initial_events q
  end.

Definition _init_schedule (kw : schedule_kwargs) self
    : result (ZenDaemon.t payload handler components) :=
  let q := queue self in
  let q := foldl (λ q '(event, a), EventQueueManager.schedule event a q)
             q (kw_schedule kw) in
  let q := foldl (λ q '(event, a), EventQueueManager.schedule_next event a q)
             q (kw_schedule_next kw) in
  q ← for_events (λ '(tstamp, event, a), EventQueueManager.schedule_at tstamp event a)
        (kw_schedule_at kw) q;
  q ← for_events
        (λ '(delay, event, a),
           EventQueueManager.schedule_after (clock self) delay event a)
        (kw_schedule_after kw) q;
  Ok (set_queue q self).

(** The handlers that [_daemonize] installs for the signals, and the one
    that [wait] installs for the alarm. *)
Definition _hnd_signal_wakeup (signum : N) self :=
  log "info" ("Received wakeup signal (" +:+ pretty signum +:+ ")") self.

Definition _hnd_signal_hup (signum : N) self :=
  let self :=
    log "warning" ("Received signal 'SIGHUP' (" +:+ pretty signum +:+ ")") self in
  set_queue (EventQueueManager.schedule_next EVENT_SIGNAL_HUP None (queue self)) self.

Definition _hnd_signal_usr1 (signum : N) self :=
  let self :=
    log "info" ("Received signal 'SIGUSR1' (" +:+ pretty signum +:+ ")") self in
  set_queue (EventQueueManager.schedule_next EVENT_SIGNAL_USR1 None (queue self)) self.

Definition _hnd_signal_usr2 (signum : N) self :=
  let self :=
    log "info" ("Received signal 'SIGUSR2' (" +:+ pretty signum +:+ ")") self in
  set_queue (EventQueueManager.schedule_next EVENT_SIGNAL_USR2 None (queue self)) self.

(** *** Observers, for stating the properties *)

(** The handlers of an event, none for an event that is not registered. *)
Definition handlers_of (event : string) self : list handler :=
  default [] (chain event self).

(** Every registered event has a list, and no two events share one: the
    registry as [_init_event_callback] builds it. *)
Definition registry_ok self : Prop :=
  (∀ event l, callbacks self !! event = Some l → is_Some (lists self !! l)) ∧
  (∀ e1 e2 l, callbacks self !! e1 = Some l → callbacks self !! e2 = Some l →
              e1 = e2).

(** The callbacks that a list of [get_events] records gives to [event] with
    the given [prepend] flag, in the order of the records. *)
Fixpoint registered (event : string) (prepend : bool)
    (records : list (string * handler * bool)) : list handler :=
  match records with
  | [] => []
  | (e, callback, p) :: records =>
      if decide (e = event ∧ p = prepend)
      then callback :: registered event prepend records
      else registered event prepend records
  end.

(** A handler that returns and leaves the daemon as it found it: its only
    effect is the pair it returns. *)
Definition quiet
    (run_handler : handler → ZenDaemon.t payload handler components →
                   option payload → ZenDaemon.hresult payload handler components)
    (h : handler) : Prop :=
  ∀ s a, ∃ flag a', run_handler h s a = HReturn flag a' s.

(** The calls of a loop that dispatches the entries [es] of the FIFO, each
    one to the chain of its event, when the handlers leave the daemon alone:
    an entry is dispatched after it was taken from the queue. *)
Fixpoint calls_of
    (run_handler : handler → ZenDaemon.t payload handler components →
                   option payload → ZenDaemon.hresult payload handler components)
    (es : list (string * option payload)) self
    : list (ZenDaemon.call payload handler) :=
  match es with
  | [] => []
  | (event, a) :: es =>
      let q := {| EventQueueManager.events := es;
                  EventQueueManager.events_at :=
                    EventQueueManager.events_at (queue self) |} in
      let self := set_queue q self in
      (run_chain run_handler (handlers_of event self) a self).1
      ++ calls_of run_handler es self
  end.
End ZenDaemon_setup.
Arguments schedule_kwargs : clear implicits.
End ZenDaemon_setup.

(** Handlers that raise, for the examples: [give_up] raises
    [QueueEmptyException], [fail] raises another exception, and every other
    name is a handler of [TestDaemon]. *)
Module FaultyDaemon.
Import ZenDaemon.

Definition run_handler (h : string) (self : TestDaemon.daemon) (a : option kv)
    : ZenDaemon.hresult kv string unit :=
  if decide (h = "give_up")
  then HRaise (QueueEmptyException "nothing to do") self
  else if decide (h = "fail") then HRaise (OtherException "RuntimeError") self
  else TestDaemon.run_handler h self a.
End FaultyDaemon.

(** ** [ZenDaemon._get_statistics]

    The components of a daemon with the names of their classes, in the order
    of [self.components].  The clock is read once for all of a call. *)

Module daemon_statistics.
Import statistics ZenDaemonComponent.

(** The [dict] that [_get_statistics] returns. *)
Record t := mk {
  time : Qc;
  components : list (string * list (string * rstat));
}.

(** The loop over [self.components]: [by_class] is
    [statistics['components']]. *)
Fixpoint _get_statistics_loop (now : Qc)
    (comps : list (string * ZenDaemonComponent.t))
    (by_class : list (string * list (string * rstat)))
    : result (list (string * list (string * rstat))
              * list (string * ZenDaemonComponent.t)) :=
  match comps with
  | [] => Ok (by_class, [])
  | (class_name, component) :: comps =>
      '(stats, component) ← get_statistics now component;
      '(by_class, comps) ←
        _get_statistics_loop now comps (dict_set by_class class_name stats);
      Ok (by_class, (class_name, component) :: comps)
  end.

Definition _get_statistics (now : Qc)
    (comps : list (string * ZenDaemonComponent.t))
    : result (t * list (string * ZenDaemonComponent.t)) :=
  '(by_class, comps) ← _get_statistics_loop now comps [];
  Ok ({| time := now; components := by_class |}, comps).
End daemon_statistics.

(** * Properties *)

(** ** Lists updated in place *)

Section list_swap.
Context {A : Type}.
Implicit Types l : list A.

Lemma insert_cons_lookup_Permutation l j x y :
  l !! j = Some y → y :: <[j:=x]> l ≡ₚ x :: l.
Proof.
  revert j. induction l as [|a l IH]; intros [|j] Hj; simplify_eq/=.
  - apply perm_swap.
  - rewrite perm_swap, (IH j Hj). apply perm_swap.
Qed.

Lemma insert_cons_exchange_Permutation l i x a :
  (i < length l)%nat → x :: <[i:=a]> l ≡ₚ a :: <[i:=x]> l.
Proof.
  revert i. induction l as [|b l IH]; intros [|i] Hi; simpl in *; try lia.
  - apply perm_swap.
  - rewrite perm_swap, (IH i) by lia. apply perm_swap.
Qed.

(** Writing [y = l[j]] over position [i] and then [x] over position [j]
    moves [y] and leaves, up to order, [l] with [x] written at [i]. *)
Lemma insert_move_Permutation l i j x y :
  l !! j = Some y → (i < length l)%nat →
  <[j:=x]> (<[i:=y]> l) ≡ₚ <[i:=x]> l.
Proof.
  revert i j. induction l as [|a l IH]; intros [|i] [|j] Hj Hi;
    simplify_eq/=; try lia.
  - done.
  - by apply insert_cons_lookup_Permutation.
  - apply insert_cons_exchange_Permutation. lia.
  - f_equiv. apply IH; [done|lia].
Qed.
End list_swap.

Lemma getitem_Ok {A} (l : list A) i x : getitem l i = Ok x ↔ l !! i = Some x.
Proof. unfold getitem. destruct (l !! i); split; congruence. Qed.

Lemma setitem_Ok {A} (l : list A) i x l' :
  setitem l i x = Ok l' ↔ (i < length l)%nat ∧ l' = <[i:=x]> l.
Proof.
  unfold setitem. case_decide; split; try congruence.
  - by intros [= <-].
  - by intros [_ ->].
  - tauto.
Qed.

Lemma bind_Ok {A B} (m : result A) (f : A → result B) b :
  m ≫= f = Ok b ↔ ∃ a, m = Ok a ∧ f a = Ok b.
Proof.
  destruct m; simpl; split; eauto; try done.
  - by intros (? & [= <-] & ?).
  - by intros (? & ? & ?).
Qed.

Lemma bind_Raise {A B} (m : result A) (f : A → result B) e :
  m ≫= f = Raise e ↔ m = Raise e ∨ ∃ a, m = Ok a ∧ f a = Raise e.
Proof.
  destruct m as [a|e']; simpl; split.
  - eauto.
  - by intros [|(? & [= <-] & ?)].
  - intros [= ->]. by left.
  - intros [?|(? & ? & ?)]; congruence.
Qed.

(** ** [heapq] keeps the elements *)

Module heapq_facts.
Section heapq_facts.
Context {E : Type} (lt : E → E → result bool).
Implicit Types heap : list E.

Lemma _siftdown_loop_Permutation fuel heap startpos pos newitem heap' :
  heapq._siftdown_loop lt fuel heap startpos pos newitem = Ok heap' →
  heap' ≡ₚ <[pos:=newitem]> heap.
Proof.
  revert heap pos. induction fuel as [|fuel IH]; intros heap pos; simpl.
  - case_decide; [done|]. by intros [_ ->]%setitem_Ok.
  - case_decide; [|by intros [_ ->]%setitem_Ok].
    intros (parent & Hparent%getitem_Ok & (b & _ & Hb)%bind_Ok)%bind_Ok.
    destruct b; [|by apply setitem_Ok in Hb as [_ ->]].
    apply bind_Ok in Hb as (heap1 & [Hpos ->]%setitem_Ok & Hrec).
    rewrite (IH _ _ Hrec). by apply insert_move_Permutation.
Qed.

Lemma _siftdown_Permutation heap startpos pos heap' :
  heapq._siftdown lt heap startpos pos = Ok heap' → heap' ≡ₚ heap.
Proof.
  unfold heapq._siftdown.
  intros (newitem & Hnew%getitem_Ok & Hloop)%bind_Ok.
  rewrite (_siftdown_loop_Permutation _ _ _ _ _ _ Hloop).
  by rewrite list_insert_id.
Qed.

Lemma _siftup_loop_Permutation fuel heap endpos pos newitem heap' pos' :
  heapq._siftup_loop lt fuel heap endpos pos newitem = Ok (heap', pos') →
  heap' ≡ₚ <[pos:=newitem]> heap.
Proof.
  revert heap pos. induction fuel as [|fuel IH]; intros heap pos; simpl.
  - case_decide; [done|].
    intros (? & [_ ->]%setitem_Ok & ?)%bind_Ok. by simplify_eq.
  - case_decide; [|intros (? & [_ ->]%setitem_Ok & ?)%bind_Ok; by simplify_eq].
    intros (childpos & _ & (child & Hchild%getitem_Ok & Hrest)%bind_Ok)%bind_Ok.
    apply bind_Ok in Hrest as (heap1 & [Hpos ->]%setitem_Ok & Hrec).
    rewrite (IH _ _ Hrec). by apply insert_move_Permutation.
Qed.

Lemma _siftup_Permutation heap pos heap' :
  heapq._siftup lt heap pos = Ok heap' → heap' ≡ₚ heap.
Proof.
  unfold heapq._siftup.
  intros (newitem & Hnew%getitem_Ok & ([heap1 pos1] & Hloop & Hdown)%bind_Ok)%bind_Ok.
  rewrite (_siftdown_Permutation _ _ _ _ Hdown).
  rewrite (_siftup_loop_Permutation _ _ _ _ _ _ _ Hloop).
  by rewrite list_insert_id.
Qed.

Lemma heappush_Permutation heap item heap' :
  heapq.heappush lt heap item = Ok heap' → heap' ≡ₚ item :: heap.
Proof.
  unfold heapq.heappush. intros Hdown.
  apply _siftdown_Permutation in Hdown.
  by rewrite Hdown, Permutation_app_comm.
Qed.

(** [heappop] returns the element at index 0 and keeps the others. *)
Lemma heappop_root heap x heap' :
  heapq.heappop lt heap = Ok (x, heap') →
  heap !! 0%nat = Some x ∧ x :: heap' ≡ₚ heap.
Proof.
  unfold heapq.heappop. destruct (last heap) as [lastelt|] eqn:Hlast; [|done].
  apply last_Some in Hlast as [front ->].
  rewrite length_app, Nat.add_sub, take_app_length. simpl.
  destruct front as [|returnitem front]; simpl.
  - intros [= <- <-]. done.
  - intros (heap1 & Hup & [= <- <-])%bind_Ok.
    split; [done|]. apply _siftup_Permutation in Hup.
    f_equiv. rewrite Hup. by rewrite (Permutation_app_comm front).
Qed.

(** *** The only exceptions are those of the comparison

    [P] holds of the elements in the heap and of the element on the move.
    With the bounds on the indices that the callers establish, the model
    raises nothing of its own: an exception of [heappush] or [heappop] on a
    heap that is not empty is one that [lt] raised on two of the elements. *)
Context (P : E → Prop).
Abbreviation raised_by_lt := (heapq.raised_by lt P).

Lemma _siftdown_loop_Raise fuel heap startpos pos newitem e :
  Forall P heap → P newitem →
  (pos < length heap)%nat → (pos ≤ fuel)%nat →
  heapq._siftdown_loop lt fuel heap startpos pos newitem = Raise e →
  raised_by_lt e.
Proof.
  intros Hheap Hnew. revert heap pos Hheap.
  induction fuel as [|fuel IH]; intros heap pos Hheap Hpos Hfuel;
    cbn [heapq._siftdown_loop].
  - rewrite decide_False by lia. unfold setitem. by rewrite decide_True by lia.
  - case_decide as Hstart; [|unfold setitem; by rewrite decide_True by lia].
    assert ((pos - 1) / 2 < pos)%nat as Hparent
      by (apply Nat.Div0.div_lt_upper_bound; lia).
    destruct (heap !! ((pos - 1) / 2)%nat) as [parent|] eqn:Hget;
      [|apply lookup_ge_None in Hget; lia].
    unfold getitem. rewrite Hget. cbn [mbind result_bind].
    assert (P parent) as Hp
      by (eapply Forall_forall; [done|by eapply list_elem_of_lookup_2]).
    destruct (lt newitem parent) as [[]|e'] eqn:Hlt; cbn [mbind result_bind].
    + unfold setitem at 1. rewrite decide_True by lia. cbn [mbind result_bind].
      apply IH; [by apply Forall_insert|rewrite length_insert; lia|lia].
    + unfold setitem. by rewrite decide_True by lia.
    + intros [= ->]. by exists newitem, parent.
Qed.

Lemma _siftdown_Raise heap startpos pos e :
  Forall P heap → (pos < length heap)%nat →
  heapq._siftdown lt heap startpos pos = Raise e → raised_by_lt e.
Proof.
  intros Hheap Hpos. unfold heapq._siftdown.
  destruct (heap !! pos) as [newitem|] eqn:Hget;
    [|apply lookup_ge_None in Hget; lia].
  unfold getitem. rewrite Hget. simpl.
  apply _siftdown_loop_Raise; try done.
  eapply Forall_forall; [done|by eapply list_elem_of_lookup_2].
Qed.

Lemma _siftup_loop_spec fuel heap endpos pos newitem :
  Forall P heap → P newitem →
  endpos = length heap → (pos < endpos)%nat → (endpos - pos ≤ fuel)%nat →
  match heapq._siftup_loop lt fuel heap endpos pos newitem with
  | Ok (heap', pos') =>
      Forall P heap' ∧ length heap' = length heap ∧ (pos' < length heap)%nat
  | Raise e => raised_by_lt e
  end.
Proof.
  intros Hheap Hnew. revert heap pos Hheap.
  induction fuel as [|fuel IH]; intros heap pos Hheap -> Hpos Hfuel;
    cbn [heapq._siftup_loop].
  - lia.
  - case_decide as Hchild.
    + assert (∃ childpos,
          (if decide (2 * pos + 1 + 1 < length heap)%nat
           then l ← getitem heap (2 * pos + 1)%nat;
                r ← getitem heap (2 * pos + 1 + 1)%nat;
                b ← lt l r;
                Ok (if b : bool then (2 * pos + 1)%nat else (2 * pos + 1 + 1)%nat)
           else Ok (2 * pos + 1)%nat) = Ok childpos
          ∧ (pos < childpos < length heap)%nat
        ∨ ∃ e, (if decide (2 * pos + 1 + 1 < length heap)%nat
           then l ← getitem heap (2 * pos + 1)%nat;
                r ← getitem heap (2 * pos + 1 + 1)%nat;
                b ← lt l r;
                Ok (if b : bool then (2 * pos + 1)%nat else (2 * pos + 1 + 1)%nat)
           else Ok (2 * pos + 1)%nat) = Raise e ∧ raised_by_lt e) as Hsel.
      { case_decide as Hright; [|exists (2 * pos + 1)%nat; left; split; [done|lia]].
        destruct (heap !! (2 * pos + 1)%nat) as [l|] eqn:Hl;
          [|apply lookup_ge_None in Hl; lia].
        destruct (heap !! (2 * pos + 1 + 1)%nat) as [r|] eqn:Hr;
          [|apply lookup_ge_None in Hr; lia].
        unfold getitem. rewrite Hl, Hr. cbn [mbind result_bind].
        destruct (lt l r) as [[]|e] eqn:Hlt; cbn [mbind result_bind].
        - exists (2 * pos + 1)%nat. left. split; [done|lia].
        - exists (2 * pos + 1 + 1)%nat. left. split; [done|lia].
        - exists 0%nat. right. exists e. split; [done|]. exists l, r.
          split; [|split; [|done]];
            (eapply Forall_forall; [done|by eapply list_elem_of_lookup_2]). }
      destruct Hsel as [childpos [[-> Hc]|(e & -> & He)]];
        cbn [mbind result_bind]; [|done].
      destruct (heap !! childpos) as [child|] eqn:Hget;
        [|apply lookup_ge_None in Hget; lia].
      unfold getitem. rewrite Hget. cbn [mbind result_bind].
      unfold setitem at 1. rewrite decide_True by lia. cbn [mbind result_bind].
      assert (P child) as Hp
        by (eapply Forall_forall; [done|by eapply list_elem_of_lookup_2]).
      specialize (IH (<[pos:=child]> heap) childpos).
      rewrite length_insert in IH.
      specialize (IH (Forall_insert _ _ _ _ Hheap Hp) eq_refl).
      destruct (heapq._siftup_loop _ _ _ _ _ _) as [[heap' pos']|e];
        apply IH; lia.
    + unfold setitem. rewrite decide_True by lia. cbn [mbind result_bind].
      split; [by apply Forall_insert|]. split; [apply length_insert|lia].
Qed.

Lemma _siftup_Raise heap pos e :
  Forall P heap → (pos < length heap)%nat →
  heapq._siftup lt heap pos = Raise e → raised_by_lt e.
Proof.
  intros Hheap Hpos. unfold heapq._siftup.
  destruct (heap !! pos) as [newitem|] eqn:Hget;
    [|apply lookup_ge_None in Hget; lia].
  unfold getitem. rewrite Hget. simpl.
  assert (P newitem) as Hnew
    by (eapply Forall_forall; [done|by eapply list_elem_of_lookup_2]).
  pose proof (_siftup_loop_spec (length heap) heap (length heap) pos newitem
                Hheap Hnew eq_refl Hpos) as Hloop.
  destruct (heapq._siftup_loop _ _ _ _ _ _) as [[heap' pos']|e']; simpl.
  - destruct Hloop as (Hheap' & Hlen & Hpos'); [lia|].
    apply _siftdown_Raise; [done|lia].
  - intros [= ->]. apply Hloop. lia.
Qed.

Lemma heappush_Raise heap item e :
  Forall P heap → P item →
  heapq.heappush lt heap item = Raise e → raised_by_lt e.
Proof.
  intros Hheap Hitem. unfold heapq.heappush.
  apply _siftdown_Raise.
  - apply Forall_app. split; [done|]. by constructor.
  - rewrite length_app. simpl. lia.
Qed.

Lemma heappop_Raise heap e :
  Forall P heap → heap ≠ [] →
  heapq.heappop lt heap = Raise e → raised_by_lt e.
Proof.
  intros Hheap Hne. unfold heapq.heappop.
  destruct (last heap) as [lastelt|] eqn:Hlast;
    [|by apply last_None in Hlast].
  apply last_Some in Hlast as [front ->].
  rewrite length_app, Nat.add_sub, take_app_length.
  apply Forall_app in Hheap as [Hfront Hlast]. rewrite Forall_singleton in Hlast.
  destruct front as [|returnitem front]; [done|].
  apply Forall_cons in Hfront as [_ Hfront].
  unfold setitem. rewrite decide_True by (simpl; lia).
  cbn [mbind result_bind]. change (<[0%nat:=lastelt]> (returnitem :: front))
    with (lastelt :: front).
  intros [Hup|(heap1 & _ & ?)]%bind_Raise; [|done].
  revert Hup. apply _siftup_Raise; [by constructor|simpl; lia].
Qed.

(** *** The heaps of at most two elements, step by step *)
Lemma heappush_nil x : heapq.heappush lt [] x = Ok [x].
Proof. reflexivity. Qed.

Lemma heappush_singleton x y :
  heapq.heappush lt [x] y = b ← lt y x; Ok (if b : bool then [y; x] else [x; y]).
Proof.
  unfold heapq.heappush, heapq._siftdown. simpl.
  by destruct (lt y x) as [[]|].
Qed.

Lemma heappop_singleton x : heapq.heappop lt [x] = Ok (x, []).
Proof. reflexivity. Qed.

Lemma heappop_pair x y : heapq.heappop lt [x; y] = Ok (x, [y]).
Proof. reflexivity. Qed.
End heapq_facts.
End heapq_facts.

(** ** [heapq] keeps the heap property

    [ltb] decides the order that [lt] computes on the elements that satisfy
    [P], and is the strict part of a total preorder. *)

Module heapq_order.
Section heapq_order.
Context {E : Type} (lt : E → E → result bool) (P : E → Prop) (ltb : E → E → bool).
Hypothesis lt_ltb : ∀ x y, P x → P y → lt x y = Ok (ltb x y).
Hypothesis ltb_irrefl : ∀ x, ltb x x = false.
Hypothesis ltb_le_trans :
  ∀ x y z, ltb y x = false → ltb z y = false → ltb z x = false.
Hypothesis ltb_asym : ∀ x y, ltb x y = true → ltb y x = false.
Implicit Types heap : list E.

Lemma parent_spec i :
  (0 < i)%nat → (i = 2 * ((i - 1) / 2) + 1 ∨ i = 2 * ((i - 1) / 2) + 2)%nat.
Proof.
  intros Hi. pose proof (Nat.div_mod_eq (i - 1) 2).
  pose proof (Nat.mod_upper_bound (i - 1) 2). lia.
Qed.

Lemma parent_left pos : ((2 * pos + 1 - 1) / 2 = pos)%nat.
Proof.
  pose proof (Nat.div_mod_eq (2 * pos + 1 - 1) 2).
  pose proof (Nat.mod_upper_bound (2 * pos + 1 - 1) 2). lia.
Qed.

Lemma parent_right pos : ((2 * pos + 1 + 1 - 1) / 2 = pos)%nat.
Proof.
  pose proof (Nat.div_mod_eq (2 * pos + 1 + 1 - 1) 2).
  pose proof (Nat.mod_upper_bound (2 * pos + 1 + 1 - 1) 2). lia.
Qed.

Lemma is_heap_nil : heapq.is_heap ltb [].
Proof. intros i _ p c. by rewrite lookup_nil. Qed.

Lemma is_heap_take heap n : heapq.is_heap ltb heap → heapq.is_heap ltb (take n heap).
Proof.
  intros Hheap i Hi p c Hp Hc.
  apply lookup_take_Some in Hp as [Hp _]. apply lookup_take_Some in Hc as [Hc _].
  by apply (Hheap i Hi).
Qed.

(** The root of a heap is a least element. *)
Lemma is_heap_root heap r :
  heapq.is_heap ltb heap → heap !! 0%nat = Some r →
  ∀ i x, heap !! i = Some x → ltb x r = false.
Proof.
  intros Hheap Hr i. induction (lt_wf i) as [i _ IH]. intros x Hx.
  destruct (decide (i = 0)) as [->|Hi].
  - simplify_eq. apply ltb_irrefl.
  - pose proof (parent_spec i).
    destruct (heap !! ((i - 1) / 2)%nat) as [p|] eqn:Hp.
    + apply (ltb_le_trans r p x).
      * apply (IH ((i - 1) / 2)%nat); [lia|done].
      * apply (Hheap i); [lia|done..].
    + apply lookup_ge_None in Hp. apply lookup_lt_Some in Hx. lia.
Qed.

(** *** [_siftdown] from any position up to the root *)

Lemma moving_up_step heap pos x parent :
  (0 < pos)%nat → heap !! ((pos - 1) / 2)%nat = Some parent →
  ltb x parent = true →
  heapq.moving_up ltb heap pos x →
  heapq.moving_up ltb (<[pos:=parent]> heap) ((pos - 1) / 2)%nat x.
Proof.
  intros Hpos Hparent Hlt (Hedges & Hchildren & Hgrand).
  pose proof (parent_spec pos Hpos) as Hpp.
  split; [|split].
  - intros i Hi Hne p c Hp Hc.
    apply list_lookup_insert_Some in Hp as [(Hip & Hp & _)|[Hip Hp]];
      apply list_lookup_insert_Some in Hc as [(Hic & Hc & _)|[Hic Hc]].
    + subst. apply ltb_irrefl.
    + subst p. by apply (Hgrand i parent c).
    + subst. simplify_eq. apply ltb_irrefl.
    + by apply (Hedges i Hi).
  - intros i c Hi Hpi Hc.
    apply list_lookup_insert_Some in Hc as [(Hic & Hc & _)|[Hic Hc]].
    + subst c. by apply ltb_asym.
    + apply (ltb_le_trans x parent c); [by apply ltb_asym|].
      apply (Hedges i Hi); [done|by rewrite Hpi|done].
  - intros i p c Hpp0 Hi Hpi Hp Hc.
    apply list_lookup_insert_Some in Hp as [(Heq & _ & _)|[_ Hp]];
      [pose proof (parent_spec _ Hpp0); lia|].
    assert (ltb parent p = false) as Hgp by (apply (Hedges _ Hpp0); [lia|done..]).
    apply list_lookup_insert_Some in Hc as [(Hic & Hc & _)|[Hic Hc]];
      [by subst c|].
    apply (ltb_le_trans p parent c); [done|].
    apply (Hedges i Hi); [done|by rewrite Hpi|done].
Qed.
Lemma moving_up_done heap pos x :
  heapq.moving_up ltb heap pos x →
  pos = 0%nat ∨
    (∃ parent, heap !! ((pos - 1) / 2)%nat = Some parent ∧ ltb x parent = false) →
  heapq.is_heap ltb (<[pos:=x]> heap).
Proof.
  intros (Hedges & Hchildren & _) Hstop i Hi p c Hp Hc.
  apply list_lookup_insert_Some in Hp as [(Hip & Hp & _)|[Hip Hp]];
    apply list_lookup_insert_Some in Hc as [(Hic & Hc & _)|[Hic Hc]].
  - subst. apply ltb_irrefl.
  - subst p. by apply (Hchildren i c).
  - subst c i. destruct Hstop as [->|(parent & Hparent & Hle)]; [lia|].
    by simplify_eq.
  - by apply (Hedges i Hi).
Qed.

Lemma _siftdown_loop_is_heap fuel heap pos x :
  Forall P heap → P x → (pos < length heap)%nat → (pos ≤ fuel)%nat →
  heapq.moving_up ltb heap pos x →
  ∃ heap', heapq._siftdown_loop lt fuel heap 0 pos x = Ok heap' ∧
           heapq.is_heap ltb heap'.
Proof.
  intros Hheap Hx. revert heap pos Hheap.
  induction fuel as [|fuel IH]; intros heap pos Hheap Hpos Hfuel Hup;
    cbn [heapq._siftdown_loop].
  - rewrite decide_False by lia. unfold setitem. rewrite decide_True by lia.
    eexists. split; [done|]. apply moving_up_done; [done|]. left. lia.
  - case_decide as Hstart.
    + pose proof (parent_spec pos Hstart).
      destruct (heap !! ((pos - 1) / 2)%nat) as [parent|] eqn:Hparent;
        [|apply lookup_ge_None in Hparent; lia].
      unfold getitem. rewrite Hparent. cbn [mbind result_bind].
      assert (P parent) as Hp
        by (eapply Forall_forall; [done|by eapply list_elem_of_lookup_2]).
      rewrite lt_ltb by done. cbn [mbind result_bind].
      destruct (ltb x parent) eqn:Hlt.
      * unfold setitem at 1. rewrite decide_True by lia. cbn [mbind result_bind].
        apply IH; [by apply Forall_insert|rewrite length_insert; lia|lia|].
        by apply moving_up_step.
      * unfold setitem. rewrite decide_True by lia.
        eexists. split; [done|]. apply moving_up_done; [done|]. right. eauto.
    + unfold setitem. rewrite decide_True by lia.
      eexists. split; [done|]. apply moving_up_done; [done|]. left. lia.
Qed.

Lemma _siftdown_is_heap heap pos x :
  Forall P heap → heap !! pos = Some x →
  heapq.moving_up ltb heap pos x →
  ∃ heap', heapq._siftdown lt heap 0 pos = Ok heap' ∧ heapq.is_heap ltb heap'.
Proof.
  intros Hheap Hx Hup. unfold heapq._siftdown, getitem. rewrite Hx.
  cbn [mbind result_bind]. apply _siftdown_loop_is_heap; try done.
  - eapply Forall_forall; [done|by eapply list_elem_of_lookup_2].
  - by eapply lookup_lt_Some.
Qed.

(** [heappush] on a heap gives a heap. *)
Lemma heappush_is_heap heap item :
  Forall P heap → P item → heapq.is_heap ltb heap →
  ∃ heap', heapq.heappush lt heap item = Ok heap' ∧ heapq.is_heap ltb heap'.
Proof.
  intros Hheap Hitem His. unfold heapq.heappush.
  rewrite length_app, Nat.add_sub. apply (_siftdown_is_heap _ _ item).
  - apply Forall_app. split; [done|]. by constructor.
  - by rewrite lookup_app_r, Nat.sub_diag.
  - split; [|split].
    + intros i Hi Hne p c Hp Hc.
      assert (i < length heap)%nat.
      { apply lookup_lt_Some in Hc. rewrite length_app in Hc. simpl in Hc. lia. }
      pose proof (parent_spec i Hi).
      rewrite lookup_app_l in Hp by lia. rewrite lookup_app_l in Hc by lia.
      by apply (His i Hi).
    + intros i c Hi Hpi Hc. apply lookup_lt_Some in Hc.
      rewrite length_app in Hc. simpl in Hc. pose proof (parent_spec i Hi). lia.
    + intros i p c _ Hi Hpi _ Hc. apply lookup_lt_Some in Hc.
      rewrite length_app in Hc. simpl in Hc. pose proof (parent_spec i Hi). lia.
Qed.

(** *** [_siftup] from the root *)

Lemma moving_down_step heap pos childpos child :
  (pos < length heap)%nat →
  ((childpos - 1) / 2)%nat = pos → (0 < childpos)%nat →
  heap !! childpos = Some child →
  (∀ i c, (0 < i)%nat → ((i - 1) / 2)%nat = pos → heap !! i = Some c →
          ltb c child = false) →
  heapq.moving_down ltb heap pos →
  heapq.moving_down ltb (<[pos:=child]> heap) childpos.
Proof.
  intros Hpos Hcp Hcp0 Hchild Hmin (Hedges & Hgrand).
  pose proof (parent_spec childpos Hcp0).
  split.
  - intros i Hi Hne Hnp p c Hp Hc.
    apply list_lookup_insert_Some in Hp as [(Hip & Hp & _)|[Hip Hp]];
      apply list_lookup_insert_Some in Hc as [(Hic & Hc & _)|[Hic Hc]].
    + subst. apply ltb_irrefl.
    + subst p. by apply (Hmin i c).
    + subst c i. by apply (Hgrand childpos p child).
    + by apply (Hedges i Hi).
  - intros i p c _ Hi Hpi Hp Hc.
    pose proof (parent_spec i Hi).
    rewrite Hcp, list_lookup_insert_eq in Hp by done.
    assert (p = child) as -> by congruence.
    rewrite list_lookup_insert_ne in Hc by lia.
    apply (Hedges i Hi); [lia|lia|by rewrite Hpi|done].
Qed.

Lemma moving_down_leaf heap pos x :
  (length heap ≤ 2 * pos + 1)%nat →
  heapq.moving_down ltb heap pos →
  heapq.moving_up ltb (<[pos:=x]> heap) pos x.
Proof.
  intros Hleaf (Hedges & _). split; [|split].
  - intros i Hi Hne p c Hp Hc.
    rewrite list_lookup_insert_ne in Hc by done.
    pose proof (parent_spec i Hi). apply lookup_lt_Some in Hc as Hlt.
    rewrite list_lookup_insert_ne in Hp by lia.
    apply (Hedges i Hi); [done|lia|done..].
  - intros i c Hi Hpi Hc. apply lookup_lt_Some in Hc.
    rewrite length_insert in Hc. pose proof (parent_spec i Hi). lia.
  - intros i p c _ Hi Hpi _ Hc. apply lookup_lt_Some in Hc.
    rewrite length_insert in Hc. pose proof (parent_spec i Hi). lia.
Qed.

Lemma _siftup_loop_is_heap fuel heap pos x :
  Forall P heap → P x → (pos < length heap)%nat →
  (length heap - pos ≤ fuel)%nat →
  heapq.moving_down ltb heap pos →
  ∃ heap' pos',
    heapq._siftup_loop lt fuel heap (length heap) pos x = Ok (heap', pos') ∧
    heap' !! pos' = Some x ∧ Forall P heap' ∧
    heapq.moving_up ltb heap' pos' x.
Proof.
  intros Hheap Hx. revert heap pos Hheap.
  induction fuel as [|fuel IH]; intros heap pos Hheap Hpos Hfuel Hdown;
    cbn [heapq._siftup_loop]; [lia|].
  case_decide as Hchild.
  - assert (∃ childpos child,
        (if decide (2 * pos + 1 + 1 < length heap)%nat
         then l ← getitem heap (2 * pos + 1)%nat;
              r ← getitem heap (2 * pos + 1 + 1)%nat;
              b ← lt l r;
              Ok (if b : bool then (2 * pos + 1)%nat else (2 * pos + 1 + 1)%nat)
         else Ok (2 * pos + 1)%nat) = Ok childpos ∧
        ((childpos - 1) / 2)%nat = pos ∧ (pos < childpos)%nat ∧
        heap !! childpos = Some child ∧
        ∀ i c, (0 < i)%nat → ((i - 1) / 2)%nat = pos → heap !! i = Some c →
               ltb c child = false)
      as (childpos & child & -> & Hcp & Hcp0 & Hget & Hmin).
    { destruct (heap !! (2 * pos + 1)%nat) as [l|] eqn:Hl;
        [|apply lookup_ge_None in Hl; lia].
      case_decide as Hright.
      - destruct (heap !! (2 * pos + 1 + 1)%nat) as [r|] eqn:Hr;
          [|apply lookup_ge_None in Hr; lia].
        unfold getitem. rewrite Hl, Hr. cbn [mbind result_bind].
        rewrite lt_ltb
          by (eapply Forall_forall; [done|by eapply list_elem_of_lookup_2]).
        cbn [mbind result_bind].
        destruct (ltb l r) eqn:Hlr.
        + exists (2 * pos + 1)%nat, l.
          split; [done|]. split; [apply parent_left|]. split; [lia|].
          split; [done|]. intros i c Hi Hpi Hc.
          destruct (parent_spec i Hi) as [Hi'|Hi']; rewrite Hpi in Hi';
            subst i.
          * simplify_eq. apply ltb_irrefl.
          * replace (2 * pos + 2)%nat with (2 * pos + 1 + 1)%nat in Hc by lia.
            simplify_eq. by apply ltb_asym.
        + exists (2 * pos + 1 + 1)%nat, r.
          split; [done|]. split; [apply parent_right|]. split; [lia|].
          split; [done|]. intros i c Hi Hpi Hc.
          destruct (parent_spec i Hi) as [Hi'|Hi']; rewrite Hpi in Hi';
            subst i.
          * by simplify_eq.
          * replace (2 * pos + 2)%nat with (2 * pos + 1 + 1)%nat in Hc by lia.
            simplify_eq. apply ltb_irrefl.
      - exists (2 * pos + 1)%nat, l.
        split; [done|]. split; [apply parent_left|]. split; [lia|].
        split; [done|]. intros i c Hi Hpi Hc.
        destruct (parent_spec i Hi) as [Hi'|Hi']; rewrite Hpi in Hi'; subst i.
        + simplify_eq. apply ltb_irrefl.
        + apply lookup_lt_Some in Hc. lia. }
    cbn [mbind result_bind]. unfold getitem. rewrite Hget.
    cbn [mbind result_bind]. unfold setitem at 1. rewrite decide_True by lia.
    cbn [mbind result_bind].
    assert (P child) as Hp
      by (eapply Forall_forall; [done|by eapply list_elem_of_lookup_2]).
    specialize (IH (<[pos:=child]> heap) childpos).
    rewrite length_insert in IH. apply IH.
    + by apply Forall_insert.
    + by eapply lookup_lt_Some.
    + lia.
    + apply (moving_down_step heap pos childpos child); try done. lia.
  - unfold setitem. rewrite decide_True by lia. cbn [mbind result_bind].
    exists (<[pos:=x]> heap), pos. split; [done|].
    split; [by apply list_lookup_insert_eq|].
    split; [by apply Forall_insert|]. apply moving_down_leaf; [lia|done].
Qed.

(** [heappop] on a heap returns a least element and leaves a heap. *)
Lemma heappop_is_heap heap :
  Forall P heap → heap ≠ [] → heapq.is_heap ltb heap →
  ∃ x heap',
    heapq.heappop lt heap = Ok (x, heap') ∧ heap !! 0%nat = Some x ∧
    heapq.is_heap ltb heap' ∧ ∀ i y, heap !! i = Some y → ltb y x = false.
Proof.
  intros Hheap Hne His. unfold heapq.heappop.
  destruct (last heap) as [lastelt|] eqn:Hlast;
    [|by apply last_None in Hlast].
  pose proof (is_heap_take heap (length heap - 1) His) as Htake.
  apply last_Some in Hlast as [front ->].
  rewrite length_app, Nat.add_sub, take_app_length in Htake |- *.
  apply Forall_app in Hheap as [HPfront HPlast].
  rewrite Forall_singleton in HPlast.
  destruct front as [|returnitem front].
  - exists lastelt, []. split; [done|]. split; [done|].
    split; [apply is_heap_nil|].
    intros [|i] y; [|done]. intros [= <-]. apply ltb_irrefl.
  - pose proof (is_heap_root _ returnitem His eq_refl) as Hleast.
    apply Forall_cons in HPfront as [_ HPfront].
    unfold setitem. rewrite decide_True by (simpl; lia).
    cbn [mbind result_bind].
    change (<[0%nat:=lastelt]> (returnitem :: front)) with (lastelt :: front).
    unfold heapq._siftup, getitem.
    change ((lastelt :: front) !! 0%nat) with (Some lastelt).
    cbn [mbind result_bind].
    destruct (_siftup_loop_is_heap (length (lastelt :: front)) (lastelt :: front)
                0 lastelt) as (heap1 & pos1 & -> & Hx1 & HP1 & Hup);
      [by constructor|done|simpl; lia|lia|..].
    { split.
      - intros i Hi Hne' Hnp p c Hp Hc.
        pose proof (parent_spec i Hi).
        destruct i as [|i]; [lia|].
        destruct ((S i - 1) / 2)%nat as [|j] eqn:Hj; [done|].
        apply (Htake (S i) Hi); by rewrite ?Hj.
      - intros i p c Hpos. lia. }
    cbn [mbind result_bind].
    destruct (_siftdown_is_heap heap1 pos1 lastelt HP1 Hx1 Hup)
      as (heap2 & -> & His2).
    cbn [mbind result_bind]. eauto 10.
Qed.
End heapq_order.
End heapq_order.

(** ** The event queue *)

Module EventQueueManager_facts.
Import EventQueueManager.
Section EventQueueManager_facts.
Context {payload : Type} `{!EqDecision payload}.
Implicit Types q : t payload.
Implicit Types a : args payload.

Lemma next_unfold now q :
  next now q =
    if root_due now q then
      '((tstamp, event, a), heap) ← heapq.heappop tuple_lt (events_at q);
      Ok ((Some event, a), {| events := events q; events_at := heap |})
    else
      match events q with
      | (event, a) :: rest =>
          Ok ((Some event, a), {| events := rest; events_at := events_at q |})
      | [] =>
          match events_at q with
          | [] => Raise (QueueEmptyException "Event queue is empty")
          | _ :: _ => Ok ((None, None), q)
          end
      end.
Proof.
  unfold next, root_due. destruct q as [fifo [|[[tstamp event] a] heap]]; simpl.
  - by destruct fifo as [|[??] ?].
  - destruct (bool_decide _); [done|]. by destruct fifo as [|[??] ?].
Qed.

(** The four cases of [next], one lemma each. *)
Lemma next_due now q r q' :
  root_due now q = true → next now q = Ok (r, q') →
  ∃ tstamp event a,
    events_at q !! 0%nat = Some (tstamp, event, a) ∧ (tstamp ≤ now)%Qc ∧
    r = (Some event, a) ∧ events q' = events q ∧
    (tstamp, event, a) :: events_at q' ≡ₚ events_at q.
Proof.
  rewrite next_unfold. intros Hdue. rewrite Hdue.
  intros ([[[tstamp event] a] heap] & Hpop & [= <- <-])%bind_Ok.
  apply heapq_facts.heappop_root in Hpop as [Hroot Hperm].
  exists tstamp, event, a. repeat split; try done.
  unfold root_due in Hdue. destruct (events_at q) as [|[[??]?]?]; [done|].
  simplify_eq/=. by apply bool_decide_eq_true in Hdue.
Qed.

Lemma next_fifo now q event a rest :
  root_due now q = false → events q = (event, a) :: rest →
  next now q = Ok ((Some event, a), {| events := rest; events_at := events_at q |}).
Proof. rewrite next_unfold. by intros -> ->. Qed.

Lemma next_empty now q :
  events q = [] → events_at q = [] →
  next now q = Raise (QueueEmptyException "Event queue is empty").
Proof. rewrite next_unfold. unfold root_due. by intros -> ->. Qed.

Lemma next_idle now q :
  root_due now q = false → events q = [] → events_at q ≠ [] →
  next now q = Ok ((None, None), q).
Proof.
  rewrite next_unfold. intros -> -> ?. by destruct (events_at q).
Qed.

(** *** What [next] and [schedule_at] can raise *)

Lemma tuple_lt_Raise (x y : timed_entry payload) e :
  tuple_lt x y = Raise e → e = TypeError ∧ x.1 = y.1 ∧ x.2 ≠ y.2.
Proof.
  destruct x as [[t1 e1] a1], y as [[t2 e2] a2]. unfold tuple_lt.
  repeat case_decide; try done. intros [= <-]. simpl. by subst.
Qed.

Lemma next_Raise now q e :
  next now q = Raise e →
  (e = QueueEmptyException "Event queue is empty" ∧
   events q = [] ∧ events_at q = []) ∨
  (e = TypeError ∧ root_due now q = true ∧
   ∃ x y, x ∈ events_at q ∧ y ∈ events_at q ∧ x.1 = y.1 ∧ x.2 ≠ y.2).
Proof.
  rewrite next_unfold. destruct (root_due now q) eqn:Hdue.
  - intros [Hpop|([[[??]?]?] & _ & ?)]%bind_Raise; [|done]. right.
    apply (heapq_facts.heappop_Raise _ (λ x, x ∈ events_at q)) in Hpop
      as (x & y & Hx & Hy & Hlt).
    + apply tuple_lt_Raise in Hlt as (-> & ? & ?). eauto 10.
    + by apply Forall_forall.
    + unfold root_due in Hdue. by destruct (events_at q).
  - destruct (events q) as [|[??]?]; [|done].
    destruct (events_at q); [|done]. intros [= <-]. by left.
Qed.

Lemma schedule_at_Raise tstamp event a q e :
  schedule_at tstamp event a q = Raise e →
  e = TypeError ∧
  ∃ x y, x ∈ (tstamp, event, a) :: events_at q ∧
         y ∈ (tstamp, event, a) :: events_at q ∧ x.1 = y.1 ∧ x.2 ≠ y.2.
Proof.
  unfold schedule_at. intros [Hpush|(? & _ & ?)]%bind_Raise; [|done].
  apply (heapq_facts.heappush_Raise _ (λ x, x ∈ (tstamp, event, a) :: events_at q))
    in Hpush as (x & y & Hx & Hy & Hlt).
  - apply tuple_lt_Raise in Hlt as (-> & ? & ?). eauto 10.
  - apply Forall_forall. intros x Hx. by right.
  - by left.
Qed.

(** The policy of [next], for every state of the queue in which [heapq]
    can order the timed entries. *)
Lemma next_policy now q :
  tie_free (events_at q) →
  match events_at q, events q with
  | (tstamp, event, a) :: _, fifo =>
      if bool_decide (tstamp ≤ now)%Qc then
        ∃ heap, next now q = Ok ((Some event, a), {| events := fifo; events_at := heap |})
                ∧ (tstamp, event, a) :: heap ≡ₚ events_at q
      else
        match fifo with
        | (event', a') :: rest =>
            next now q
            = Ok ((Some event', a'), {| events := rest; events_at := events_at q |})
        | [] => next now q = Ok ((None, None), q)
        end
  | [], (event', a') :: rest =>
      next now q = Ok ((Some event', a'), {| events := rest; events_at := [] |})
  | [], [] => next now q = Raise (QueueEmptyException "Event queue is empty")
  end.
Proof.
  intros Hfree.
  destruct (events_at q) as [|[[tstamp event] a] heap] eqn:Hheap.
  - destruct (events q) as [|[event' a'] rest] eqn:Hfifo.
    + by apply next_empty.
    + rewrite (next_fifo now q event' a' rest), ?Hheap; try done.
      unfold root_due. by rewrite Hheap.
  - destruct (bool_decide (tstamp ≤ now)%Qc) eqn:Hdue.
    + assert (root_due now q = true) as Hroot
        by (unfold root_due; by rewrite Hheap).
      destruct (next now q) as [[r q']|e] eqn:Hnext.
      * destruct (next_due now q r q' Hroot Hnext)
          as (tstamp' & event' & a'' & Hlook & _ & -> & Hev & Hperm).
        rewrite Hheap in Hlook, Hperm. simplify_eq/=.
        exists (events_at q'). split; [|done]. destruct q'. simpl in *. by subst.
      * apply next_Raise in Hnext as [(_ & _ & Hnil)|(_ & _ & Htie)];
          [by rewrite Hheap in Hnil|].
        destruct Htie as (x & y & Hx & Hy & Heq & Hne).
        rewrite <-Hheap in Hfree. destruct Hne. by apply Hfree.
    + assert (root_due now q = false) as Hroot
        by (unfold root_due; by rewrite Hheap).
      destruct (events q) as [|[event' a'] rest] eqn:Hfifo.
      * apply next_idle; try done. by rewrite Hheap.
      * by rewrite (next_fifo now q event' a' rest), ?Hheap.
Qed.

(** *** The order of the timed entries *)

Lemma ltb_irrefl e : String.ltb e e = false.
Proof.
  unfold String.ltb. assert (String.compare e e = Eq) as ->; [|done].
  induction e as [|c e IH]; simpl; [done|].
  unfold Ascii.compare. by rewrite N.compare_refl.
Qed.

Lemma ltb_asym e1 e2 : String.ltb e1 e2 = true → String.ltb e2 e1 = false.
Proof.
  unfold String.ltb. rewrite (String.compare_antisym e1 e2).
  by destruct (String.compare e2 e1).
Qed.

Lemma ltb_total e1 e2 :
  e1 ≠ e2 → String.ltb e1 e2 = true ∨ String.ltb e2 e1 = true.
Proof.
  intros Hne. unfold String.ltb. rewrite (String.compare_antisym e1 e2).
  destruct (String.compare e2 e1) eqn:Hcmp; simpl; auto.
  apply String.compare_eq_iff in Hcmp. congruence.
Qed.

Lemma ltb_leb e1 e2 : String.ltb e1 e2 = negb (String.leb e2 e1).
Proof.
  unfold String.ltb, String.leb. rewrite (String.compare_antisym e2 e1).
  by destruct (String.compare e1 e2).
Qed.

Lemma key_ltb_false (x y : timed_entry payload) :
  key_ltb y x = false ↔
  (x.1.1 < y.1.1)%Qc ∨ (x.1.1 = y.1.1 ∧ String.le x.1.2 y.1.2).
Proof.
  destruct x as [[t1 e1] a1], y as [[t2 e2] a2]. unfold key_ltb. simpl.
  case_decide as Ht; [subst t2|].
  - case_decide as He; [subst e2|].
    + split; [|done]. intros _. right. split; [done|]. apply (reflexivity e1).
    + rewrite ltb_leb, negb_false_iff. unfold String.le. split.
      * intros Hle. right. split; [done|]. by apply Is_true_true.
      * intros [Hlt|[_ Hle]]; [by apply Qclt_not_eq in Hlt|].
        by apply Is_true_true.
  - rewrite bool_decide_eq_false. split.
    + intros Hnlt. left. apply Qcnot_le_lt. intros Hle.
      destruct (Qcle_lt_or_eq _ _ Hle) as [?|?]; [done|]. by destruct Ht.
    + intros [Hlt|[-> _]]; [|done]. intros Hlt'.
      by apply (Qclt_not_le _ _ Hlt), Qclt_le_weak.
Qed.

Lemma key_ltb_irrefl (x : timed_entry payload) : key_ltb x x = false.
Proof.
  apply key_ltb_false. right. split; [done|]. apply (reflexivity (x.1.2)).
Qed.

Lemma key_ltb_le_trans (x y z : timed_entry payload) :
  key_ltb y x = false → key_ltb z y = false → key_ltb z x = false.
Proof.
  rewrite !key_ltb_false.
  intros [Hxy|[Hxy Hexy]] [Hyz|[Hyz Heyz]].
  - left. by apply (Qclt_trans _ y.1.1).
  - left. by rewrite <-Hyz.
  - left. by rewrite Hxy.
  - right. split; [congruence|]. by apply (transitivity (y := y.1.2)).
Qed.

Lemma key_ltb_asym (x y : timed_entry payload) :
  key_ltb x y = true → key_ltb y x = false.
Proof.
  intros Hlt. destruct (key_ltb y x) eqn:Hyx; [|done].
  destruct x as [[t1 e1] a1], y as [[t2 e2] a2]. unfold key_ltb in *.
  destruct (decide (t1 = t2)) as [->|Ht].
  - rewrite decide_True in Hyx by done.
    destruct (decide (e1 = e2)) as [->|He]; [done|].
    rewrite decide_False in Hyx by congruence.
    by rewrite (ltb_asym _ _ Hlt) in Hyx.
  - rewrite decide_False in Hyx by congruence.
    apply bool_decide_eq_true in Hlt, Hyx.
    destruct (Qclt_not_le _ _ Hlt). by apply Qclt_le_weak.
Qed.

Lemma tuple_lt_key_ltb (heap : list (timed_entry payload)) x y :
  tie_free heap → x ∈ heap → y ∈ heap → tuple_lt x y = Ok (key_ltb x y).
Proof.
  intros Hfree Hx Hy. specialize (Hfree x y Hx Hy).
  destruct x as [[t1 e1] a1], y as [[t2 e2] a2]. unfold tuple_lt, key_ltb.
  simpl in Hfree. repeat case_decide; try done. destruct H1. apply Hfree.
  by subst.
Qed.

Lemma tie_free_Permutation (heap heap' : list (timed_entry payload)) :
  heap ≡ₚ heap' → tie_free heap → tie_free heap'.
Proof. intros Hperm Hfree x y Hx Hy. apply Hfree; by rewrite Hperm. Qed.

Lemma tie_free_tail x (heap : list (timed_entry payload)) :
  tie_free (x :: heap) → tie_free heap.
Proof. intros Hfree y z Hy Hz. apply Hfree; by right. Qed.

Lemma well_formed_init : well_formed (init (payload := payload)).
Proof. split; [apply heapq_order.is_heap_nil|]. by intros x y ?%elem_of_nil. Qed.

Lemma well_formed_schedule event a q :
  well_formed q → well_formed (schedule event a q).
Proof. done. Qed.

Lemma well_formed_schedule_next event a q :
  well_formed q → well_formed (schedule_next event a q).
Proof. done. Qed.

(** [schedule_at] on a well-formed queue returns, and the queue stays
    well-formed, unless the new entry ties with a queued one. *)
Lemma well_formed_schedule_at tstamp event a q :
  well_formed q → tie_free ((tstamp, event, a) :: events_at q) →
  ∃ q', schedule_at tstamp event a q = Ok q' ∧ well_formed q' ∧
        events q' = events q ∧
        events_at q' ≡ₚ (tstamp, event, a) :: events_at q.
Proof.
  intros [Hheap _] Hfree. unfold schedule_at.
  destruct (heapq_order.heappush_is_heap tuple_lt
              (λ x, x ∈ (tstamp, event, a) :: events_at q) key_ltb)
    with (heap := events_at q) (item := (tstamp, event, a))
    as (heap' & Hpush & Hheap'); try done.
  - intros x y. by apply tuple_lt_key_ltb.
  - apply key_ltb_irrefl.
  - apply key_ltb_le_trans.
  - apply key_ltb_asym.
  - apply Forall_forall. intros x Hx. by right.
  - by left.
  - pose proof (heapq_facts.heappush_Permutation _ _ _ _ Hpush) as Hperm.
    rewrite Hpush. simpl. eexists. split; [done|]. split; [|done].
    split; [done|]. simpl. by apply (tie_free_Permutation _ _ (symmetry Hperm)).
Qed.

(** [next] on a well-formed queue whose root is due: the root is popped, it
    is a least tuple, and the rest is a heap again. *)
Lemma next_due_least now q :
  well_formed q → root_due now q = true →
  ∃ tstamp event a heap',
    next now q = Ok ((Some event, a), {| events := events q; events_at := heap' |}) ∧
    events_at q !! 0%nat = Some (tstamp, event, a) ∧
    heapq.is_heap key_ltb heap' ∧
    (tstamp, event, a) :: heap' ≡ₚ events_at q ∧
    ∀ i y, events_at q !! i = Some y → key_ltb y (tstamp, event, a) = false.
Proof.
  intros [Hheap Hfree] Hdue.
  destruct (heapq_order.heappop_is_heap tuple_lt (λ x, x ∈ events_at q) key_ltb)
    with (heap := events_at q) as (x & heap' & Hpop & Hroot & Hheap' & Hleast);
    try done.
  - intros x y. by apply tuple_lt_key_ltb.
  - apply key_ltb_irrefl.
  - apply key_ltb_le_trans.
  - apply key_ltb_asym.
  - by apply Forall_forall.
  - unfold root_due in Hdue. by destruct (events_at q).
  - destruct x as [[tstamp event] a]. exists tstamp, event, a, heap'.
    split; [by rewrite next_unfold, Hdue, Hpop|]. split; [done|].
    split; [done|]. split; [|done].
    by destruct (heapq_facts.heappop_root _ _ _ _ Hpop).
Qed.

(** C3, amended, for every well-formed queue (the empty queue is
    well-formed, and the operations keep a queue well-formed).  When the
    root of the timed heap is due, [next] returns a timed entry, and no
    timed entry with the same due time has a smaller event name: timed
    entries that tie on the due time leave the queue in the order of their
    names, whatever the order in which they were scheduled. *)
Theorem equal_due_time_by_name now q :
  well_formed q → root_due now q = true →
  ∃ tstamp event a q',
    next now q = Ok ((Some event, a), q') ∧
    (tstamp ≤ now)%Qc ∧
    well_formed q' ∧ events q' = events q ∧
    (tstamp, event, a) :: events_at q' ≡ₚ events_at q ∧
    ∀ event' a', (tstamp, event', a') ∈ events_at q → String.le event event'.
Proof.
  intros Hwf Hdue.
  destruct (next_due_least now q Hwf Hdue)
    as (tstamp & event & a & heap' & Hnext & Hroot & Hheap' & Hperm & Hleast).
  destruct Hwf as [_ Hfree].
  assert (tstamp ≤ now)%Qc as Hle.
  { unfold root_due in Hdue. destruct (events_at q) as [|[[??]?]?]; [done|].
    simplify_eq/=. by apply bool_decide_eq_true in Hdue. }
  exists tstamp, event, a, {| events := events q; events_at := heap' |}.
  split; [done|]. split; [done|]. split; [|split; [done|split; [done|]]].
  - split; [done|]. simpl.
    apply (tie_free_tail (tstamp, event, a)).
    by apply (tie_free_Permutation _ _ (symmetry Hperm)).
  - intros event' a' [i Hi]%list_elem_of_lookup.
    specialize (Hleast i _ Hi). apply key_ltb_false in Hleast. simpl in Hleast.
    destruct Hleast as [Hlt|[_ Hle']]; [by apply Qclt_not_eq in Hlt|done].
Qed.

(** [next] keeps a queue well-formed. *)
Lemma well_formed_next now q r q' :
  well_formed q → next now q = Ok (r, q') → well_formed q'.
Proof.
  intros Hwf Hnext. destruct (root_due now q) eqn:Hdue.
  - destruct (next_due_least now q Hwf Hdue)
      as (tstamp & event & a & heap' & Hnext' & _ & Hheap' & Hperm & _).
    rewrite Hnext in Hnext'. injection Hnext' as -> ->.
    split; [done|]. simpl. destruct Hwf as [_ Hfree].
    apply (tie_free_tail (tstamp, event, a)).
    by apply (tie_free_Permutation _ _ (symmetry Hperm)).
  - rewrite next_unfold, Hdue in Hnext.
    destruct (events q) as [|[event a] rest]; simplify_eq/=; [|done].
    by destruct (events_at q); simplify_eq.
Qed.

Lemma well_formed_schedule_after now delay event a q :
  well_formed q → tie_free (((now + delay)%Qc, event, a) :: events_at q) →
  ∃ q', schedule_after now delay event a q = Ok q' ∧ well_formed q'.
Proof.
  intros Hwf Hfree.
  destruct (well_formed_schedule_at (now + delay)%Qc event a q Hwf Hfree)
    as (q' & Hq' & Hwf' & _).
  by exists q'.
Qed.

Lemma schedule_all_events es q : events (schedule_all es q) = events q ++ es.
Proof.
  revert q. induction es as [|[event a] es IH]; intros q; simpl.
  - by rewrite app_nil_r.
  - rewrite IH. simpl. by rewrite <-app_assoc.
Qed.

Lemma schedule_all_events_at es q :
  events_at (schedule_all es q) = events_at q.
Proof.
  revert q. induction es as [|[event a] es IH]; intros q; simpl; [done|].
  by rewrite IH.
Qed.

Lemma next_all_fifo nows (fifo : list (entry payload)) :
  length nows = length fifo →
  next_all nows {| events := fifo; events_at := [] |}
  = Ok (as_fetched <$> fifo, init).
Proof.
  revert fifo. induction nows as [|now nows IH]; intros [|[event a] fifo] Hlen;
    try done.
  cbn [next_all]. rewrite (next_fifo now _ event a fifo) by done.
  cbn [mbind result_bind events_at]. rewrite IH by (simpl in Hlen; lia). done.
Qed.

(** [schedule_next] puts its entry in front of whatever the FIFO holds: the
    next call of [next] returns it unless a timed entry is due. *)
Lemma schedule_next_next now q event a :
  root_due now q = false →
  next now (schedule_next event a q) = Ok ((Some event, a), q).
Proof.
  intros Hdue. rewrite (next_fifo now _ event a (events q)) by done.
  by destruct q.
Qed.


Lemma schedule_at_nil fifo tstamp event a :
  schedule_at tstamp event a {| events := fifo; events_at := [] |}
  = Ok {| events := fifo; events_at := [(tstamp, event, a)] |}.
Proof. reflexivity. Qed.

Lemma schedule_at_singleton fifo x tstamp event a :
  schedule_at tstamp event a {| events := fifo; events_at := [x] |}
  = b ← tuple_lt (tstamp, event, a) x;
    Ok {| events := fifo;
          events_at := if b : bool then [(tstamp, event, a); x]
                       else [x; (tstamp, event, a)] |}.
Proof.
  unfold schedule_at. cbn [events_at events].
  rewrite heapq_facts.heappush_singleton.
  by destruct (tuple_lt _ _) as [[]|].
Qed.

End EventQueueManager_facts.
End EventQueueManager_facts.

Module EventQueueManager_examples.
Import EventQueueManager EventQueueManager_facts.

(** C1, the input on which [next] fails.  Three calls of [schedule_at] that
    all succeed leave two entries with the same due time and name and
    different payloads below the root.  The root is due, yet [next] raises
    [TypeError] instead of returning it: to restore the heap [heappop] has to
    order the two payloads. *)
Theorem next_raises_TypeError_on_tied_payloads :
  ∃ q : t kv,
    (q ← schedule_at (Qc_of_Z 1) "r" None init;
     q ← schedule_at (Qc_of_Z 5) "a" (Some [("k", 1%Z)]) q;
     schedule_at (Qc_of_Z 5) "a" (Some [("k", 2%Z)]) q) = Ok q ∧
    events_at q !! 0%nat = Some (Qc_of_Z 1, "r", None) ∧
    root_due (Qc_of_Z 10) q = true ∧
    next (Qc_of_Z 10) q = Raise TypeError.
Proof. eexists. vm_compute. repeat split. Qed.


(** [schedule_at(5, 'b')] then [schedule_at(5, 'a')]: [next] returns ['a']. *)
Lemma ties_keep_insertion_order_fails : ¬ ties_keep_insertion_order.
Proof.
  intros H.
  assert (∃ q2 q1 : t kv,
    schedule_at (Qc_of_Z 5) "b" None init ≫= schedule_at (Qc_of_Z 5) "a" None = Ok q2 ∧
    next (Qc_of_Z 5) q2 = Ok ((Some "a", None), q1)) as (q2 & q1 & Hq2 & Hq1).
  { do 2 eexists. vm_compute. split; reflexivity. }
  specialize (H _ _ _ _ _ _ _ _ _ Hq2 (Qcle_refl _) Hq1). discriminate.
Qed.


(** The queue after [schedule_at(5, 'b')] and [schedule_at(5, 'a')]. *)
Lemma well_formed_b_a :
  well_formed (payload := kv)
    {| events := []; events_at := [(Qc_of_Z 5, "a", None); (Qc_of_Z 5, "b", None)] |}.
Proof.
  split.
  - intros [|[|[|i]]] Hi p c Hp Hc; simplify_eq/=; try lia. reflexivity.
  - intros x y Hx Hy _. simpl in *.
    apply list_elem_of_In in Hx, Hy. simpl in *.
    destruct Hx as [<-|[<-|[]]], Hy as [<-|[<-|[]]]; reflexivity.
Qed.

Lemma equal_due_time_by_name_witness :
  let q : t kv :=
    {| events := []; events_at := [(Qc_of_Z 5, "a", None); (Qc_of_Z 5, "b", None)] |} in
  let now := Qc_of_Z 7 in
  schedule_at (Qc_of_Z 5) "b" None init ≫= schedule_at (Qc_of_Z 5) "a" None = Ok q ∧
  well_formed q ∧ root_due now q = true ∧
  ∃ tstamp event a q',
    next now q = Ok ((Some event, a), q') ∧
    (tstamp ≤ now)%Qc ∧
    well_formed q' ∧ events q' = events q ∧
    (tstamp, event, a) :: events_at q' ≡ₚ events_at q ∧
    ∀ event' a', (tstamp, event', a') ∈ events_at q → String.le event event'.
Proof.
  intros q now. split; [reflexivity|].
  split; [exact well_formed_b_a|]. split; [reflexivity|].
  exact (equal_due_time_by_name now q well_formed_b_a eq_refl).
Defined.
End EventQueueManager_examples.

(** ** Statistics *)

Module statistics_facts.
Import statistics.

Lemma stat_ind' (P : stat → Prop) :
  (∀ n, P (SNum n)) →
  (∀ items, Forall (λ kv, P kv.2) items → P (SDict items)) →
  ∀ s, P s.
Proof.
  intros Hnum Hdict. fix IH 1. intros [n|items]; [apply Hnum|].
  apply Hdict. revert items. fix IHitems 1.
  intros [|[k v] items]; constructor; [apply IH|apply IHitems].
Qed.

Lemma hundred_neq_0 : hundred ≠ 0%Qc.
Proof. intros H. discriminate H. Qed.

Lemma div_hundred_eq_0 b : (b / hundred)%Qc = 0%Qc ↔ b = 0%Qc.
Proof.
  split; [|intros ->; unfold Qcdiv; apply Qcmult_0_l].
  intros Hdiv. rewrite <-(Qcmult_div_r b hundred) by apply hundred_neq_0.
  rewrite Hdiv. ring.
Qed.

Lemma calc_item_SDict key sub stats_prev tdiff :
  calc_item key (SDict sub) stats_prev tdiff =
    prev ← py_get stats_prev key (SDict []);
    r ← calc_statistics sub prev tdiff;
    Ok (RDict r).
Proof.
  simpl. destruct (py_get _ _ _) as [prev|]; [simpl|done].
  f_equal. induction sub as [|[k v] sub IH]; [done|].
  simpl. by rewrite IH.
Qed.

(** One numeric key against a previous snapshot that is a [dict]. *)
Lemma calc_item_SNum key b prev a tdiff :
  default (SNum 0%Qc) (dict_get prev key) = SNum a →
  calc_item key (SNum b) (SDict prev) tdiff =
    if decide (tdiff = 0%Qc) then Raise ZeroDivisionError
    else if decide (b = 0%Qc) then Raise ZeroDivisionError
    else Ok (RCounter (derived a b tdiff)).
Proof.
  intros Ha. simpl. rewrite Ha. simpl. unfold py_truediv.
  destruct (decide (tdiff = 0%Qc)); [done|]. simpl.
  destruct (decide (b = 0%Qc)) as [->|Hb].
  - by rewrite decide_True by (by apply div_hundred_eq_0).
  - by rewrite decide_False by (by rewrite div_hundred_eq_0).
Qed.

Lemma calc_statistics_lookup stats_cur stats_prev tdiff res key v :
  calc_statistics stats_cur stats_prev tdiff = Ok res →
  dict_get stats_cur key = Some v →
  ∃ r, dict_get res key = Some r ∧ calc_item key v stats_prev tdiff = Ok r.
Proof.
  revert res. induction stats_cur as [|[k v'] items IH]; intros res; [done|].
  simpl. intros (r & Hr & (rs & Hrs & [= <-])%bind_Ok)%bind_Ok. simpl.
  case_decide as Hk.
  - intros [= ->]. subst k. eauto.
  - by apply IH.
Qed.

Lemma calc_statistics_Raise stats_cur stats_prev tdiff key v e :
  dict_get stats_cur key = Some v →
  calc_item key v stats_prev tdiff = Raise e →
  ∃ e', calc_statistics stats_cur stats_prev tdiff = Raise e'.
Proof.
  induction stats_cur as [|[k v'] items IH]; [done|]. simpl.
  case_decide as Hk.
  - intros [= ->] Hraise. subst k. rewrite Hraise. simpl. eauto.
  - intros Hget Hraise. destruct (calc_item k v' _ _) as [r|e1]; simpl; [|eauto].
    destruct (IH Hget Hraise) as [e' ->]. simpl. eauto.
Qed.

(** A flat tree of counters, none of them zero, against a flat snapshot:
    [calc_statistics] returns. *)
Lemma calc_statistics_flat_Ok stats_cur stats_prev tdiff :
  tdiff ≠ 0%Qc →
  Forall (λ kv, ∃ b, kv.2 = SNum b ∧ b ≠ 0%Qc) stats_cur →
  Forall (λ kv, ∃ a, kv.2 = SNum a) stats_prev →
  is_Ok (calc_statistics stats_cur (SDict stats_prev) tdiff).
Proof.
  intros Htdiff Hcur Hprev.
  induction Hcur as [|[k v] items (b & Hv & Hb) _ IH]; [done|].
  simpl in Hv. subst v.
  assert (∃ a, default (SNum 0%Qc) (dict_get stats_prev k) = SNum a) as [a Ha].
  { clear -Hprev. induction Hprev as [|[k' v'] prev [a Ha] _ IH]; simpl; [eauto|].
    case_decide; simpl in *; eauto. }
  cbn [calc_statistics]. rewrite (calc_item_SNum _ _ _ _ _ Ha).
  rewrite !decide_False by done. cbn [mbind result_bind].
  by destruct (calc_statistics items _ _).
Qed.


Lemma calc_item_no_prev tdiff s :
  ∀ key r, calc_item key s (SDict []) tdiff = Ok r → rstat_Forall (from_zero tdiff) r.
Proof.
  induction s as [b|items IH] using stat_ind'; intros key r.
  - rewrite (calc_item_SNum key b [] 0%Qc tdiff) by reflexivity.
    repeat case_decide; try done. intros [= <-]. simpl.
    split; simpl; [ring|]. f_equal. ring.
  - rewrite calc_item_SDict. simpl.
    intros (rs & Hrs & [= <-])%bind_Ok. simpl.
    revert rs Hrs. induction IH as [|[k v] items Hv _ IHitems]; intros rs; simpl.
    + by intros [= <-].
    + intros (r & Hr & (rs' & Hrs' & [= <-])%bind_Ok)%bind_Ok.
      split; [by eapply Hv|by apply IHitems].
Qed.

Lemma calc_statistics_no_prev tdiff sub r :
  calc_statistics sub (SDict []) tdiff = Ok r → rdict_Forall (from_zero tdiff) r.
Proof.
  intros Hr. apply (calc_item_no_prev tdiff (SDict sub) "").
  rewrite calc_item_SDict. simpl. by rewrite Hr.
Qed.

Lemma calc_item_no_prev_Ok tdiff s :
  tdiff ≠ 0%Qc → stat_nonzero s →
  ∀ key, is_Ok (calc_item key s (SDict []) tdiff).
Proof.
  intros Htdiff. induction s as [b|items IH] using stat_ind'; intros Hs key.
  - rewrite (calc_item_SNum key b [] 0%Qc tdiff) by reflexivity.
    simpl in Hs. by rewrite !decide_False by done.
  - rewrite calc_item_SDict. simpl.
    assert (is_Ok (calc_statistics items (SDict []) tdiff)) as Hok.
    { simpl in Hs. induction IH as [|[k v] items Hv _ IHitems]; [done|].
      destruct Hs as [Hs1 Hs2]. simpl.
      specialize (Hv Hs1 k). simpl in Hv.
      destruct (calc_item k v _ _); [simpl|done].
      specialize (IHitems Hs2). by destruct (calc_statistics items _ _). }
    by destruct (calc_statistics items _ _).
Qed.


(** The first sample of a component: its snapshot is still empty. *)
Lemma get_statistics_first now curts self stats self' :
  ZenDaemonComponent.statistics_prev self = [] →
  ZenDaemonComponent.statistics_ts self = now →
  ZenDaemonComponent.get_statistics curts self = Ok (stats, self') →
  rdict_Forall (from_zero (curts - now)) stats ∧
  ZenDaemonComponent.statistics_prev self' = ZenDaemonComponent.statistics_cur self.
Proof.
  unfold ZenDaemonComponent.get_statistics. intros -> ->.
  intros (r & Hr & [= <- <-])%bind_Ok. split; [|done].
  by apply (calc_statistics_no_prev _ (ZenDaemonComponent.statistics_cur self)).
Qed.
End statistics_facts.

Module statistics_examples.
Import statistics statistics_facts.

(** Seven events counted, four at the previous sample three seconds ago. *)
Example calc_statistics_7_4_3 :
  ∃ c, calc_statistics [("cnt_default", SNum (Qc_of_Z 7))]
         (SDict [("cnt_default", SNum (Qc_of_Z 4))]) (Qc_of_Z 3)
       = Ok [("cnt_default", RCounter c)] ∧
       this (cnt c) = 7%Q ∧ this (inc c) = 3%Q ∧
       this (spd c) = 1%Q ∧ this (pct c) = (300 # 7)%Q.
Proof. eexists. split; [reflexivity|]. vm_compute. auto. Qed.

Example calc_statistics_zero_counter :
  calc_statistics [("cnt_default", SNum 0%Qc)] (SDict []) (Qc_of_Z 3)
  = Raise ZeroDivisionError.
Proof. reflexivity. Qed.



(** The nested tree of the witness, sampled for the first time. *)
Example calc_statistics_nested_first_sample :
  ∃ c_a c_b,
    calc_statistics
      [("by_kind", SDict [("a", SNum (Qc_of_Z 2)); ("b", SNum (Qc_of_Z 5))])]
      (SDict []) (Qc_of_Z 2)
    = Ok [("by_kind", RDict [("a", RCounter c_a); ("b", RCounter c_b)])] ∧
    this (inc c_a) = 2%Q ∧ this (spd c_a) = 1%Q ∧
    this (inc c_b) = 5%Q ∧ this (spd c_b) = (5 # 2)%Q.
Proof. do 2 eexists. split; [reflexivity|]. vm_compute. auto. Qed.
End statistics_examples.

(** ** File names in parallel mode *)

Module pylib_facts.
Import pylib.

Lemma chars_app s1 s2 : chars (s1 +:+ s2) = chars s1 ++ chars s2.
Proof. unfold chars. induction s1 as [|c s1 IH]; simpl; [done|]. by rewrite IH. Qed.

Lemma str_app l1 l2 : str (l1 ++ l2) = str l1 +:+ str l2.
Proof. unfold str. induction l1 as [|c l1 IH]; simpl; [done|]. by rewrite IH. Qed.

Lemma str_chars s : str (chars s) = s.
Proof. apply string_of_list_ascii_of_string. Qed.

Lemma length_chars s : length (chars s) = String.length s.
Proof. unfold chars. induction s as [|c s IH]; simpl; [done|]. by rewrite IH. Qed.

Lemma length_str_replicate n c : String.length (str (replicate n c)) = n.
Proof. induction n as [|n IH]; simpl; [done|]. by rewrite IH. Qed.

Lemma length_append s1 s2 :
  String.length (s1 +:+ s2) = (String.length s1 + String.length s2)%nat.
Proof. by rewrite <-!length_chars, chars_app, length_app. Qed.

Lemma endswith_app stem lit : endswith lit (stem +:+ lit) = true.
Proof.
  unfold endswith. apply bool_decide_eq_true_2.
  rewrite chars_app, length_app, Nat.add_sub. apply drop_app_length.
Qed.

Lemma drop_end_app stem lit : drop_end (String.length lit) (stem +:+ lit) = stem.
Proof.
  unfold drop_end.
  rewrite chars_app, length_app, <-(length_chars lit), Nat.add_sub.
  rewrite take_app_length. apply str_chars.
Qed.

(** The pattern matches at the end of the string: the literal is replaced. *)
Lemma re_sub_at_end_match lit repl stem :
  re_sub_at_end lit repl (stem +:+ lit) = stem +:+ repl.
Proof. unfold re_sub_at_end. by rewrite endswith_app, drop_end_app. Qed.

(** No match: the string is returned as it is. *)
Lemma re_sub_at_end_no_match lit repl s :
  endswith lit s = false → endswith (lit +:+ LF) s = false →
  re_sub_at_end lit repl s = s.
Proof. unfold re_sub_at_end. by intros -> ->. Qed.

Lemma pretty_N_go_length (k : nat) (x : N) s :
  (x < 10 ^ N.of_nat k)%N →
  (String.length (pretty_N_go x s) ≤ k + String.length s)%nat.
Proof.
  revert x s. induction k as [|k IH]; intros x s Hx.
  - assert (x = 0%N) as -> by (simpl in Hx; lia). rewrite pretty_N_go_0. lia.
  - destruct (decide (x = 0%N)) as [->|Hx0]; [rewrite pretty_N_go_0; lia|].
    rewrite pretty_N_go_step by lia.
    etrans; [apply IH|simpl; lia].
    rewrite Nat2N.inj_succ, N.pow_succ_r' in Hx.
    apply N.Div0.div_lt_upper_bound. lia.
Qed.

Lemma pretty_N_length (k : nat) (x : N) :
  (0 < k)%nat → (x < 10 ^ N.of_nat k)%N → (String.length (pretty x) ≤ k)%nat.
Proof.
  intros Hk Hx. unfold pretty, pretty_N. case_decide; [simpl; lia|].
  etrans; [by apply pretty_N_go_length|simpl; lia].
Qed.

Lemma format_05d_length n :
  String.length (format_05d n) = (5 `max` String.length (pretty n))%nat.
Proof. unfold format_05d. rewrite length_append, length_str_replicate. lia. Qed.

Lemma format_05d_five_digits n :
  (n < 100000)%N → String.length (format_05d n) = 5%nat.
Proof.
  intros Hn. rewrite format_05d_length.
  pose proof (pretty_N_length 5 n). simpl in *. lia.
Qed.

Lemma sorted_Permutation l rev : sorted l rev ≡ₚ l.
Proof.
  unfold sorted. destruct rev.
  - by rewrite reverse_Permutation, merge_sort_Permutation, reverse_Permutation.
  - apply merge_sort_Permutation.
Qed.

Lemma sorted_ascending l : Sorted String.le (sorted l false).
Proof. apply (Sorted_merge_sort _). Qed.

Lemma sorted_descending l : Sorted (flip String.le) (sorted l true).
Proof. apply Sorted_reverse, (Sorted_merge_sort _). Qed.
End pylib_facts.

Module zenfiles_facts.
Import pylib pylib_facts zenfiles.

(** C9, amended. In parallel mode a configured PID file that ends in
    [.pid] (state file: [.state]) resolves to the same path with a dot and
    the PID, zero-padded to five digits or more, put before that extension; a
    configured path that ends otherwise is returned as it is.  The padded
    PID has exactly five digits below 100000.  [_pidfiles_list] returns what
    [glob] finds for [run/name*.pid], ascending, or descending on request. *)
Theorem parallel_file_names pid glob_glob self descending :
  cfg_paralel self = true →
  (∀ stem, cfg_pid_file self = stem +:+ ".pid" →
     _get_fn_pidfile pid self = stem +:+ "." +:+ format_05d pid +:+ ".pid") ∧
  (∀ stem, cfg_state_file self = stem +:+ ".state" →
     _get_fn_state pid self = stem +:+ "." +:+ format_05d pid +:+ ".state") ∧
  (endswith ".pid" (cfg_pid_file self) = false →
   endswith (".pid" +:+ LF) (cfg_pid_file self) = false →
     _get_fn_pidfile pid self = cfg_pid_file self) ∧
  (endswith ".state" (cfg_state_file self) = false →
   endswith (".state" +:+ LF) (cfg_state_file self) = false →
     _get_fn_state pid self = cfg_state_file self) ∧
  String.length (format_05d pid) = (5 `max` String.length (pretty pid))%nat ∧
  ((pid < 100000)%N → String.length (format_05d pid) = 5%nat) ∧
  _pidfiles_list glob_glob descending self
    ≡ₚ glob_glob (os_path_join (path_run self) (name self +:+ "*.pid")) ∧
  Sorted (if descending then flip String.le else String.le)
    (_pidfiles_list glob_glob descending self).
Proof.
  intros Hpar. unfold _get_fn_pidfile, _get_fn_state, _pidfiles_list.
  rewrite Hpar. simpl negb. cbv iota.
  split; [|split; [|split; [|split; [|split; [|split; [|split]]]]]].
  - intros stem ->. apply re_sub_at_end_match.
  - intros stem ->. apply re_sub_at_end_match.
  - apply re_sub_at_end_no_match.
  - apply re_sub_at_end_no_match.
  - apply format_05d_length.
  - apply format_05d_five_digits.
  - apply sorted_Permutation.
  - destruct descending; [apply sorted_descending|apply sorted_ascending].
Qed.
End zenfiles_facts.

Module zenfiles_examples.
Import pylib pylib_facts zenfiles zenfiles_facts.

Example pid_file_of_process_42 :
  _get_fn_pidfile 42 (demo "/run/d.pid") = "/run/d.00042.pid".
Proof. reflexivity. Qed.

(** A PID above 99999 takes six digits. *)
Example pid_file_of_process_123456 :
  _get_fn_pidfile 123456 (demo "/run/d.pid") = "/run/d.123456.pid".
Proof. reflexivity. Qed.

Example pid_files_descending :
  _pidfiles_list (λ _, ["/run/d.00007.pid"; "/run/d.00042.pid"; "/run/d.00001.pid"])
    true (demo "/run/d.pid")
  = ["/run/d.00042.pid"; "/run/d.00007.pid"; "/run/d.00001.pid"].
Proof. reflexivity. Qed.

(** With [--pid-file /run/d.lock] the resolved path is the configured one:
    no PID is put in. *)
Lemma parallel_pid_file_carries_pid_fails : ¬ parallel_pid_file_carries_pid.
Proof.
  intros H.
  destruct (H 42%N (demo "/run/d.lock") eq_refl) as (stem & ext & Hcfg & Hres).
  apply (f_equal String.length) in Hcfg, Hres.
  rewrite !length_append in Hcfg, Hres.
  change (String.length (format_05d 42)) with 5%nat in Hres.
  change (String.length (_get_fn_pidfile 42 (demo "/run/d.lock"))) with 11%nat in Hres.
  change (String.length (cfg_pid_file (demo "/run/d.lock"))) with 11%nat in Hcfg.
  simpl in Hres. change ("" +:+ ext) with ext in Hres. lia.
Qed.

Lemma parallel_file_names_witness :
  let self := demo "/run/d.pid" in
  let glob_glob := λ _ : string, ["/run/d.00007.pid"; "/run/d.00042.pid"] in
  cfg_paralel self = true ∧
  (∀ stem, cfg_pid_file self = stem +:+ ".pid" →
     _get_fn_pidfile 42 self = stem +:+ "." +:+ format_05d 42 +:+ ".pid") ∧
  (∀ stem, cfg_state_file self = stem +:+ ".state" →
     _get_fn_state 42 self = stem +:+ "." +:+ format_05d 42 +:+ ".state") ∧
  (endswith ".pid" (cfg_pid_file self) = false →
   endswith (".pid" +:+ LF) (cfg_pid_file self) = false →
     _get_fn_pidfile 42 self = cfg_pid_file self) ∧
  (endswith ".state" (cfg_state_file self) = false →
   endswith (".state" +:+ LF) (cfg_state_file self) = false →
     _get_fn_state 42 self = cfg_state_file self) ∧
  String.length (format_05d 42) = (5 `max` String.length (pretty 42%N))%nat ∧
  ((42 < 100000)%N → String.length (format_05d 42) = 5%nat) ∧
  _pidfiles_list glob_glob true self
    ≡ₚ glob_glob (os_path_join (path_run self) (name self +:+ "*.pid")) ∧
  Sorted (flip String.le) (_pidfiles_list glob_glob true self).
Proof.
  intros self glob_glob. split; [reflexivity|].
  apply (parallel_file_names 42 glob_glob self true). reflexivity.
Defined.
End zenfiles_examples.

(** ** Callback dispatch and the event loop *)

Module ZenDaemon_facts.
Import ZenDaemon.
Section ZenDaemon_facts.
Context {payload handler components : Type} `{!EqDecision payload}.
Abbreviation daemon := (ZenDaemon.t payload handler components).
Abbreviation hresult := (ZenDaemon.hresult payload handler components).
Context (run_handler : handler → daemon → option payload → hresult).
Implicit Types self s : daemon.
Implicit Types a : option payload.
Implicit Types handlers : list handler.

Lemma FLAG_STOP_not_CONTINUE : FLAG_STOP ≠ FLAG_CONTINUE.
Proof. done. Qed.

(** *** The chain over a fixed list *)

Lemma run_chain_ends handlers a self :
  (run_chain run_handler handlers a self).2 ≠ OutOfFuel.
Proof.
  revert a self. induction handlers as [|h handlers IH]; intros a self; [done|].
  simpl. destruct (run_handler h self a) as [flag a' s|e s]; [|done].
  case_decide; [done|].
  specialize (IH a' s). by destruct (run_chain _ _ _ _).
Qed.

Lemma run_chain_prefix handlers a self :
  call_handler <$> (run_chain run_handler handlers a self).1 `prefix_of` handlers.
Proof.
  revert a self. induction handlers as [|h handlers IH]; intros a self; [done|].
  simpl. destruct (run_handler h self a) as [flag a' s|e s]; simpl.
  - case_decide; simpl.
    + apply (prefix_cons h [] handlers), prefix_nil.
    + specialize (IH a' s). destruct (run_chain _ _ _ _). simpl in *.
      by apply prefix_cons.
  - apply (prefix_cons h [] handlers), prefix_nil.
Qed.

Lemma run_chain_threaded handlers a self :
  threaded a (run_chain run_handler handlers a self).1.
Proof.
  revert a self. induction handlers as [|h handlers IH]; intros a self; [done|].
  simpl. destruct (run_handler h self a) as [flag a' s|e s]; simpl; [|done].
  case_decide; simpl; [done|].
  specialize (IH a' s). by destruct (run_chain _ _ _ _).
Qed.

Lemma run_chain_short_circuit handlers a self i c :
  (run_chain run_handler handlers a self).1 !! i = Some c →
  call_flag c ≠ Some FLAG_CONTINUE →
  length (run_chain run_handler handlers a self).1 = S i.
Proof.
  revert a self i. induction handlers as [|h handlers IH]; intros a self i; [done|].
  simpl. destruct (run_handler h self a) as [flag a' s|e s]; simpl.
  - case_decide as Hflag; simpl.
    + by destruct i.
    + specialize (IH a' s). destruct (run_chain _ _ _ _) as [calls r].
      destruct i as [|i]; simpl in *.
      * intros [= <-]. unfold call_flag. simpl. intros Hne.
        destruct (decide (flag = FLAG_CONTINUE)) as [->|]; [by destruct Hne|].
        by destruct Hflag.
      * intros Hc Hne. f_equal. by apply IH.
  - by destruct i.
Qed.

Lemma run_chain_all handlers a self :
  (∀ c, c ∈ (run_chain run_handler handlers a self).1 →
        call_flag c = Some FLAG_CONTINUE) →
  call_handler <$> (run_chain run_handler handlers a self).1 = handlers.
Proof.
  revert a self. induction handlers as [|h handlers IH]; intros a self; [done|].
  simpl. destruct (run_handler h self a) as [flag a' s|e s]; simpl.
  - case_decide as Hflag; simpl.
    + intros Hall. destruct Hflag.
      specialize (Hall _ (list_elem_of_here _ _)).
      unfold call_flag in Hall. simpl in Hall. by simplify_eq.
    + specialize (IH a' s). destruct (run_chain _ _ _ _) as [calls r].
      simpl in *. intros Hall. f_equal. apply IH.
      intros c Hc. apply Hall. by right.
  - intros Hall. specialize (Hall _ (list_elem_of_here _ _)). done.
Qed.

(** *** The loop over the live list *)

(** While the handlers leave the list object alone, the loop over the live
    list is the chain over the list as it was when the loop began. *)
Lemma for_handlers_run_chain fuel lst handlers i a self :
  lists self !! lst = Some handlers →
  (length handlers - i < fuel)%nat →
  (∀ h s a', h ∈ handlers → lists s !! lst = Some handlers →
     lists (hstate (run_handler h s a')) !! lst = Some handlers) →
  for_handlers run_handler fuel lst i a self
  = run_chain run_handler (drop i handlers) a self.
Proof.
  intros Hlst Hfuel Hstable. revert i a self Hlst Hfuel.
  induction fuel as [|fuel IH]; intros i a self Hlst Hfuel; [lia|].
  simpl. rewrite Hlst. simpl.
  destruct (handlers !! i) as [h|] eqn:Hi.
  - rewrite (drop_S _ _ _ Hi). simpl.
    pose proof (Hstable h self a (list_elem_of_lookup_2 _ _ _ Hi) Hlst) as Hs.
    destruct (run_handler h self a) as [flag a' s|e s]; [|done].
    case_decide; [done|]. simpl in Hs.
    rewrite IH; [done..|]. apply lookup_lt_Some in Hi. lia.
  - apply lookup_ge_None in Hi. by rewrite drop_ge.
Qed.


Lemma _init_event_callback_registered event callback prepend self lst :
  callbacks self !! event = Some lst →
  _init_event_callback event callback prepend self
  = set_registry (callbacks self)
      (<[lst:=if prepend then callback :: default [] (lists self !! lst)
              else default [] (lists self !! lst) ++ [callback]]> (lists self))
      self.
Proof. intros Hlst. unfold _init_event_callback. by rewrite !Hlst. Qed.

Lemma for_handlers_exhausted fuel lst i a self handlers :
  lists self !! lst = Some handlers → (length handlers ≤ i)%nat →
  for_handlers run_handler (S fuel) lst i a self = ([], Return self).
Proof.
  intros Hlst Hi. simpl. rewrite Hlst. simpl.
  by rewrite (lookup_ge_None_2 handlers i Hi).
Qed.

(** A stretch of handlers that return [(FLAG_CONTINUE, args)] and change
    nothing: the loop walks over it. *)
Lemma for_handlers_passed n fuel lst i a self handlers :
  lists self !! lst = Some handlers →
  (i + n ≤ length handlers)%nat →
  (∀ g, g ∈ take n (drop i handlers) →
        ∀ s a', run_handler g s a' = HReturn FLAG_CONTINUE a' s) →
  for_handlers run_handler (n + fuel) lst i a self
  = ((passed a <$> take n (drop i handlers))
       ++ (for_handlers run_handler fuel lst (i + n) a self).1,
     (for_handlers run_handler fuel lst (i + n) a self).2).
Proof.
  intros Hlst. revert i. induction n as [|n IH]; intros i Hi Hpass.
  - rewrite Nat.add_0_r. simpl. by destruct (for_handlers _ _ _ _ _ _).
  - destruct (handlers !! i) as [g|] eqn:Hg;
      [|apply lookup_ge_None in Hg; lia].
    rewrite (drop_S _ _ _ Hg) in Hpass |- *. simpl in Hpass |- *.
    rewrite Hlst. simpl. rewrite Hg.
    rewrite (Hpass g) by left. rewrite decide_False by (by intros []).
    rewrite IH; [|lia|intros g' Hg'; apply Hpass; by right].
    by rewrite Nat.add_succ_r.
Qed.

Lemma run_chain_passed handlers a self :
  (∀ g, g ∈ handlers → ∀ s a', run_handler g s a' = HReturn FLAG_CONTINUE a' s) →
  run_chain run_handler handlers a self = (passed a <$> handlers, Return self).
Proof.
  induction handlers as [|g handlers IH]; intros Hpass; [done|].
  simpl. rewrite (Hpass g) by left. rewrite decide_False by (by intros []).
  rewrite IH; [done|]. intros g' Hg'. apply Hpass. by right.
Qed.

Lemma run_chain_app_passed pre handlers a self :
  (∀ g, g ∈ pre → ∀ s a', run_handler g s a' = HReturn FLAG_CONTINUE a' s) →
  run_chain run_handler (pre ++ handlers) a self
  = ((passed a <$> pre) ++ (run_chain run_handler handlers a self).1,
     (run_chain run_handler handlers a self).2).
Proof.
  induction pre as [|g pre IH]; intros Hpass.
  - simpl. by destruct (run_chain _ _ _ _).
  - simpl. rewrite (Hpass g) by left. rewrite decide_False by (by intros []).
    rewrite IH; [done|]. intros g' Hg'. apply Hpass. by right.
Qed.


(** *** The loop *)

Lemma truthy_Some name : name ≠ "" → truthy (Some name) = true.
Proof. intros Hne. unfold truthy. by rewrite bool_decide_eq_false_2. Qed.

(** C6, amended. The loop dequeues an event whose name is not the empty
    string and has no entry in the registry: the turn of the loop ends with
    [ZenDaemonException], the message of which holds the name, no handler
    has been called, and the exception leaves the loop. *)
Theorem unknown_event_is_fatal fuel self name a q :
  EventQueueManager.next (clock self) (queue self) = Ok ((Some name, a), q) →
  name ≠ "" →
  callbacks self !! name = None →
  let e := ZenDaemonException
             ("There is no callback to handle event '" +:+ name +:+ "'") in
  iteration run_handler fuel self = ([], Raised e (set_queue q self)) ∧
  (flag_done self = false →
   while_not_done run_handler (S fuel) self = ([], Raised e (set_queue q self))) ∧
  _event_loop run_handler (S fuel) self
  = ([], Raised e (set_queue q (set_flag_done false self))).
Proof.
  intros Hnext Hname Hreg e.
  assert (∀ s, clock s = clock self → queue s = queue self →
               callbacks s = callbacks self →
               iteration run_handler fuel s = ([], Raised e (set_queue q s)))
    as Hiter.
  { intros s Hclock Hqueue Hcallbacks. unfold iteration, try_body.
    rewrite Hclock, Hqueue, Hnext. rewrite truthy_Some by done.
    unfold dispatch. simpl. by rewrite Hcallbacks, Hreg. }
  split; [by apply Hiter|]. split.
  - intros Hdone. simpl. rewrite Hdone. by rewrite Hiter.
  - unfold _event_loop. simpl. by rewrite Hiter.
Qed.

(** C7. [next] raises [QueueEmptyException]: the turn of the loop catches
    it, writes one [info] record, sets the done flag, and the loop ends
    without an exception. *)
Theorem queue_empty_ends_loop fuel self description :
  EventQueueManager.next (clock self) (queue self)
    = Raise (QueueEmptyException description) →
  let note := ("info", "Event queue is empty, terminating") in
  iteration run_handler fuel self
  = ([], Return (set_flag_done true (log note.1 note.2 self))) ∧
  (flag_done self = false →
   while_not_done run_handler (S fuel) self
   = ([], Return (set_flag_done true (log note.1 note.2 self)))) ∧
  (∃ self',
     _event_loop run_handler (S fuel) self = ([], Return self') ∧
     flag_done self' = true ∧
     logger self' = logger self ++ [note] ∧
     queue self' = queue self).
Proof.
  intros Hnext note.
  assert (∀ s, clock s = clock self → queue s = queue self →
               iteration run_handler fuel s
               = ([], Return (set_flag_done true (log note.1 note.2 s))))
    as Hiter.
  { intros s Hclock Hqueue. unfold iteration, try_body.
    by rewrite Hclock, Hqueue, Hnext. }
  assert (∀ s, flag_done s = false → clock s = clock self → queue s = queue self →
               while_not_done run_handler (S fuel) s
               = ([], Return (set_flag_done true (log note.1 note.2 s))))
    as Hwhile.
  { intros s Hdone Hclock Hqueue. simpl. rewrite Hdone, Hiter by done.
    by destruct fuel. }
  split; [by apply Hiter|]. split; [intros; by apply Hwhile|].
  eexists. split; [unfold _event_loop; by apply Hwhile|]. done.
Qed.
End ZenDaemon_facts.
End ZenDaemon_facts.

Module ZenDaemon_examples.
Import ZenDaemon ZenDaemon_facts.

(** The first turn of the loop of the demonstration daemon calls the
    handler of the component, which schedules [default] again. *)
Example demo_first_turn :
  ∃ self,
    iteration DemoZenDaemon.run_handler 5 (DemoZenDaemon.init 0%Qc)
    = ([mk_call DemoZenDaemon.cbk_event_default None (Some (FLAG_CONTINUE, None))],
       Return self) ∧
    EventQueueManager.events (queue self) = [("default", None)] ∧
    logger self = [("info", "Working..."); ("info", "Work unit done")].
Proof. eexists. vm_compute. repeat split. Qed.

(** Handlers that [TestDaemon.run_handler] runs without a change of the
    daemon. *)
Lemma test_handler_passes g s a :
  g ∈ ["a"; "b"; "late"; "never"] →
  TestDaemon.run_handler g s a = HReturn FLAG_CONTINUE a s.
Proof.
  intros Hg. apply list_elem_of_In in Hg. simpl in Hg.
  by destruct Hg as [<-|[<-|[<-|[<-|[]]]]].
Qed.


(** The chain [a, tag, stop, never]: [stop] ends the dispatch, [never] is
    not called, and [stop] receives what [tag] returned. *)
Example short_circuit :
  (dispatch TestDaemon.run_handler 10 "ev" None
     (TestDaemon.make ["a"; "tag"; "stop"; "never"] [])).1
  = [mk_call "a" None (Some (FLAG_CONTINUE, None));
     mk_call "tag" None (Some (FLAG_CONTINUE, Some [("tagged", 1%Z)]));
     mk_call "stop" (Some [("tagged", 1%Z)]) (Some (FLAG_STOP, Some [("stopped", 1%Z)]))].
Proof. vm_compute. reflexivity. Qed.



(** A handler that replaces the registered list does not change the
    dispatch that called it. *)
Example rebind_is_not_seen :
  (dispatch TestDaemon.run_handler 10 "ev" None
     (TestDaemon.make ["a"; "rebind"; "b"] [])).1
  = passed None <$> ["a"; "rebind"; "b"].
Proof. vm_compute. reflexivity. Qed.

(** [schedule('')] on a daemon without callbacks: the loop takes the empty
    name for the placeholder of [next], asks the queue how long to wait, and
    the queue, empty by now, raises [IndexError]. *)
Lemma unknown_event_raises_fails : ¬ unknown_event_raises.
Proof.
  intros H.
  pose (self := TestDaemon.make [] [("", None)]).
  assert (∃ q, EventQueueManager.next (clock self) (queue self)
               = Ok ((Some "", None), q)) as [q Hnext]
    by (eexists; vm_compute; reflexivity).
  assert (callbacks self !! "" = None) as Hreg by (vm_compute; reflexivity).
  destruct (H TestDaemon.run_handler 5%nat self "" None q Hnext Hreg)
    as (message & self' & Hraised).
  vm_compute in Hraised. discriminate Hraised.
Qed.

Lemma unknown_event_is_fatal_witness :
  let self := TestDaemon.make ["a"] [("nope", None)] in
  let q := EventQueueManager.init in
  let e := ZenDaemonException "There is no callback to handle event 'nope'" in
  EventQueueManager.next (clock self) (queue self) = Ok ((Some "nope", None), q) ∧
  "nope" ≠ "" ∧
  callbacks self !! "nope" = None ∧
  iteration TestDaemon.run_handler 5 self = ([], Raised e (set_queue q self)) ∧
  (flag_done self = false →
   while_not_done TestDaemon.run_handler 6 self = ([], Raised e (set_queue q self))) ∧
  _event_loop TestDaemon.run_handler 6 self
  = ([], Raised e (set_queue q (set_flag_done false self))).
Proof.
  intros self q e.
  assert (EventQueueManager.next (clock self) (queue self)
          = Ok ((Some "nope", None), q)) as H1 by (vm_compute; reflexivity).
  assert ("nope" ≠ "") as H2 by done.
  assert (callbacks self !! "nope" = None) as H3 by (vm_compute; reflexivity).
  split; [exact H1|]. split; [exact H2|]. split; [exact H3|].
  exact (unknown_event_is_fatal TestDaemon.run_handler 5 self "nope" None q
           H1 H2 H3).
Defined.

Lemma queue_empty_ends_loop_witness :
  let self := TestDaemon.make ["a"] [] in
  let note := ("info", "Event queue is empty, terminating") in
  EventQueueManager.next (clock self) (queue self)
    = Raise (QueueEmptyException "Event queue is empty") ∧
  iteration TestDaemon.run_handler 5 self
  = ([], Return (set_flag_done true (log note.1 note.2 self))) ∧
  (flag_done self = false →
   while_not_done TestDaemon.run_handler 6 self
   = ([], Return (set_flag_done true (log note.1 note.2 self)))) ∧
  (∃ self',
     _event_loop TestDaemon.run_handler 6 self = ([], Return self') ∧
     flag_done self' = true ∧
     logger self' = logger self ++ [note] ∧
     queue self' = queue self).
Proof.
  intros self note.
  assert (EventQueueManager.next (clock self) (queue self)
          = Raise (QueueEmptyException "Event queue is empty")) as H1
    by (vm_compute; reflexivity).
  split; [exact H1|].
  exact (queue_empty_ends_loop TestDaemon.run_handler 5 self
           "Event queue is empty" H1).
Defined.

(** The loop of a daemon with two immediate events: both are dispatched in
    order, then the queue is empty and the loop ends. *)
Example two_events_then_empty :
  ∃ self,
    _event_loop TestDaemon.run_handler 10
      (TestDaemon.make ["a"; "stop"] [("ev", None); ("ev", Some [("n", 2%Z)])])
    = ([mk_call "a" None (Some (FLAG_CONTINUE, None));
        mk_call "stop" None (Some (FLAG_STOP, Some [("stopped", 1%Z)]));
        mk_call "a" (Some [("n", 2%Z)]) (Some (FLAG_CONTINUE, Some [("n", 2%Z)]));
        mk_call "stop" (Some [("n", 2%Z)]) (Some (FLAG_STOP, Some [("stopped", 1%Z)]))],
       Return self) ∧
    flag_done self = true ∧
    logger self = [("info", "Event queue is empty, terminating")].
Proof. eexists. vm_compute. repeat split. Qed.
End ZenDaemon_examples.

(** * More properties *)

(** ** [heapq] under a comparison that raises less

    When [lt'] returns what [lt] returns wherever [lt] returns, the heap
    operations return under [lt'] what they return under [lt]. *)

Module heapq_refine.
Section heapq_refine.
Context {E : Type} (lt lt' : E → E → result bool).
Hypothesis lt_lt' : ∀ x y b, lt x y = Ok b → lt' x y = Ok b.
Implicit Types heap : list E.

Lemma _siftdown_loop_refine fuel heap startpos pos newitem heap' :
  heapq._siftdown_loop lt fuel heap startpos pos newitem = Ok heap' →
  heapq._siftdown_loop lt' fuel heap startpos pos newitem = Ok heap'.
Proof.
  revert heap pos. induction fuel as [|fuel IH]; intros heap pos; simpl.
  - done.
  - case_decide; [|done].
    destruct (getitem heap _) as [parent|]; [|done]. cbn [mbind result_bind].
    destruct (lt newitem parent) as [b|] eqn:Hlt; [|done].
    rewrite (lt_lt' _ _ _ Hlt). cbn [mbind result_bind].
    destruct b; [|done].
    destruct (setitem heap pos parent) as [heap1|]; [|done].
    cbn [mbind result_bind]. apply IH.
Qed.

Lemma _siftdown_refine heap startpos pos heap' :
  heapq._siftdown lt heap startpos pos = Ok heap' →
  heapq._siftdown lt' heap startpos pos = Ok heap'.
Proof.
  unfold heapq._siftdown. destruct (getitem heap pos); [|done].
  cbn [mbind result_bind]. apply _siftdown_loop_refine.
Qed.

Lemma _siftup_loop_refine fuel heap endpos pos newitem r :
  heapq._siftup_loop lt fuel heap endpos pos newitem = Ok r →
  heapq._siftup_loop lt' fuel heap endpos pos newitem = Ok r.
Proof.
  revert heap pos. induction fuel as [|fuel IH]; intros heap pos; simpl; [done|].
  case_decide; [|done]. case_decide.
  - destruct (getitem heap (pos + (pos + 0) + 1)) as [l|]; [|done].
    cbn [mbind result_bind].
    destruct (getitem heap (pos + (pos + 0) + 1 + 1)) as [r'|]; [|done].
    cbn [mbind result_bind].
    destruct (lt l r') as [b|] eqn:Hlt; [|done].
    rewrite (lt_lt' _ _ _ Hlt). cbn [mbind result_bind].
    destruct (getitem heap _) as [child|]; [|done]. cbn [mbind result_bind].
    destruct (setitem heap pos child) as [heap1|]; [|done].
    cbn [mbind result_bind]. apply IH.
  - cbn [mbind result_bind].
    destruct (getitem heap _) as [child|]; [|done]. cbn [mbind result_bind].
    destruct (setitem heap pos child) as [heap1|]; [|done].
    cbn [mbind result_bind]. apply IH.
Qed.

Lemma _siftup_refine heap pos heap' :
  heapq._siftup lt heap pos = Ok heap' → heapq._siftup lt' heap pos = Ok heap'.
Proof.
  unfold heapq._siftup. destruct (getitem heap pos) as [newitem|]; [|done].
  cbn [mbind result_bind].
  destruct (heapq._siftup_loop lt _ _ _ _ _) as [[heap1 pos1]|] eqn:Hloop;
    [|done].
  rewrite (_siftup_loop_refine _ _ _ _ _ _ Hloop). cbn [mbind result_bind].
  apply _siftdown_refine.
Qed.

Lemma heappush_refine heap item heap' :
  heapq.heappush lt heap item = Ok heap' →
  heapq.heappush lt' heap item = Ok heap'.
Proof. apply _siftdown_refine. Qed.

Lemma heappop_refine heap r :
  heapq.heappop lt heap = Ok r → heapq.heappop lt' heap = Ok r.
Proof.
  unfold heapq.heappop. destruct (last heap) as [lastelt|]; [|done].
  destruct (take _ heap) as [|returnitem front]; [done|].
  destruct (setitem _ _ _) as [heap1|]; [|done]. cbn [mbind result_bind].
  destruct (heapq._siftup lt heap1 0) as [heap2|] eqn:Hup; [|done].
  by rewrite (_siftup_refine _ _ _ Hup).
Qed.
End heapq_refine.
End heapq_refine.

Module queue_laws.
Import EventQueueManager EventQueueManager_facts queue_ops.
Section queue_laws.
Context {payload : Type} `{!EqDecision payload}.
Implicit Types q : t payload.
Implicit Types a : args payload.
Implicit Types x y : timed_entry payload.

Lemma tuple_lt_key_lt x y b : tuple_lt x y = Ok b → key_lt x y = Ok b.
Proof.
  destruct x as [[t1 e1] a1], y as [[t2 e2] a2]. unfold tuple_lt, key_lt, key_ltb.
  repeat case_decide; by intros [= <-].
Qed.

Lemma heappush_Ok_is_heap (heap heap' : list (timed_entry payload)) x :
  heapq.is_heap key_ltb heap →
  heapq.heappush tuple_lt heap x = Ok heap' →
  heapq.is_heap key_ltb heap'.
Proof.
  intros Hheap Hpush.
  apply (heapq_refine.heappush_refine _ _ tuple_lt_key_lt) in Hpush.
  destruct (heapq_order.heappush_is_heap (key_lt (payload := payload))
               (λ _, True) key_ltb)
    with (heap := heap) (item := x) as (heap'' & Hpush' & Hheap'');
    try done.
  - apply key_ltb_irrefl.
  - apply key_ltb_le_trans.
  - apply key_ltb_asym.
  - by apply Forall_forall.
  - rewrite Hpush in Hpush'. by injection Hpush' as <-.
Qed.

Lemma heappop_Ok_is_heap (heap heap' : list (timed_entry payload)) x :
  heapq.is_heap key_ltb heap →
  heapq.heappop tuple_lt heap = Ok (x, heap') →
  heapq.is_heap key_ltb heap' ∧ ∀ y, y ∈ heap → key_le x y.
Proof.
  intros Hheap Hpop.
  assert (heap ≠ []) as Hne by (by intros ->).
  apply (heapq_refine.heappop_refine _ _ tuple_lt_key_lt) in Hpop.
  destruct (heapq_order.heappop_is_heap (key_lt (payload := payload))
               (λ _, True) key_ltb)
    with (heap := heap) as (x' & heap'' & Hpop' & _ & Hheap'' & Hleast);
    try done.
  - apply key_ltb_irrefl.
  - apply key_ltb_le_trans.
  - apply key_ltb_asym.
  - by apply Forall_forall.
  - rewrite Hpop in Hpop'. injection Hpop' as <- <-. split; [done|].
    intros y [i Hi]%list_elem_of_lookup. by apply (Hleast i).
Qed.

Lemma key_le_due x y : key_le x y → (due x ≤ due y)%Qc.
Proof.
  unfold key_le, due. rewrite key_ltb_false.
  intros [Hlt|[-> _]]; [by apply Qclt_le_weak|apply Qcle_refl].
Qed.

Lemma is_heap_run_op (o : op payload) q q' :
  heapq.is_heap key_ltb (events_at q) → run_op o q = Ok q' →
  heapq.is_heap key_ltb (events_at q').
Proof.
  intros Hheap. destruct o as [event a|event a|tstamp event a|now delay event a|now];
    simpl.
  - by intros [= <-].
  - by intros [= <-].
  - unfold schedule_at. intros (heap' & Hpush & [= <-])%bind_Ok. simpl.
    by apply (heappush_Ok_is_heap _ _ _ Hheap Hpush).
  - unfold schedule_after. intros (heap' & Hpush & [= <-])%bind_Ok. simpl.
    by apply (heappush_Ok_is_heap _ _ _ Hheap Hpush).
  - intros ([r q1] & Hnext & [= <-])%bind_Ok.
    rewrite next_unfold in Hnext. destruct (root_due now q).
    + apply bind_Ok in Hnext as ([[[tstamp event] a] heap'] & Hpop & [= <- <-]).
      simpl. by apply (heappop_Ok_is_heap _ _ _ Hheap Hpop).
    + destruct (events q) as [|[event a] rest]; simplify_eq/=; try done.
      destruct (events_at q) eqn:Hq; simplify_eq. by rewrite Hq.
Qed.

Lemma is_heap_run_ops (ops : list (op payload)) q q' :
  heapq.is_heap key_ltb (events_at q) → run_ops ops q = Ok q' →
  heapq.is_heap key_ltb (events_at q').
Proof.
  revert q. induction ops as [|o ops IH]; intros q Hheap; simpl.
  - by intros [= <-].
  - intros (q1 & Hop & Hops)%bind_Ok.
    apply (IH q1); [|done]. by apply (is_heap_run_op o q).
Qed.

(** X3. Whatever calls were made on a queue since it was created, the call that
    raises in the end raises [QueueEmptyException] (from [next]) or the
    [TypeError] of a comparison of arguments ([heapq] on two entries that
    tie); the heap code itself never indexes out of range. *)
Theorem queue_raises_only_empty_or_TypeError (ops : list (op payload)) q e :
  run_ops ops q = Raise e →
  e = QueueEmptyException "Event queue is empty" ∨ e = TypeError.
Proof.
  revert q. induction ops as [|o ops IH]; intros q; simpl; [done|].
  intros [Hop|(q1 & _ & Hops)]%bind_Raise; [|by apply (IH q1)].
  destruct o as [event a|event a|tstamp event a|now delay event a|now];
    simpl in Hop; try done.
  - right. by apply schedule_at_Raise in Hop as [-> _].
  - right. by apply (schedule_at_Raise (now + delay)%Qc) in Hop as [-> _].
  - apply bind_Raise in Hop as [Hnext|([r q1] & _ & ?)]; [|done].
    apply next_Raise in Hnext as [(-> & _)|(-> & _)]; auto.
Qed.

(** X1. On a queue that was created empty and then used in any way, [next]
    serves the timed entries first and in the order of their due times: it
    either returns a timed entry that is due and whose due time is the least
    of all timed entries, leaving the FIFO alone; or no timed entry is due
    yet, the heap is left alone, and the head of the FIFO or the placeholder
    is returned. *)
Theorem next_earliest_due_first (ops : list (op payload)) now q r q' :
  run_ops ops init = Ok q →
  next now q = Ok (r, q') →
  (∃ x, r = timed_fetched x ∧ x ∈ events_at q ∧ (due x ≤ now)%Qc ∧
        (∀ y, y ∈ events_at q → (due x ≤ due y)%Qc) ∧
        events q' = events q ∧ x :: events_at q' ≡ₚ events_at q)
  ∨ ((∀ y, y ∈ events_at q → (now < due y)%Qc) ∧
     events_at q' = events_at q ∧
     match events q with
     | (event, a) :: rest => r = (Some event, a) ∧ events q' = rest
     | [] => r = (None, None) ∧ events q' = [] ∧ events_at q ≠ []
     end).
Proof.
  intros Hops Hnext.
  assert (heapq.is_heap key_ltb (events_at q)) as Hheap.
  { apply (is_heap_run_ops ops init); [|done]. apply heapq_order.is_heap_nil. }
  rewrite next_unfold in Hnext. destruct (root_due now q) eqn:Hdue.
  - left.
    apply bind_Ok in Hnext as ([[[tstamp event] a] heap'] & Hpop & [= <- <-]).
    destruct (heappop_Ok_is_heap _ _ _ Hheap Hpop) as [_ Hleast].
    destruct (heapq_facts.heappop_root _ _ _ _ Hpop) as [Hroot Hperm].
    exists (tstamp, event, a). split; [done|].
    split; [by eapply list_elem_of_lookup_2|]. split.
    { unfold root_due in Hdue. destruct (events_at q) as [|[[??]?]?]; [done|].
      simplify_eq/=. by apply bool_decide_eq_true in Hdue. }
    split; [|done]. intros y Hy. by apply key_le_due, Hleast.
  - right.
    assert (∀ y, y ∈ events_at q → (now < due y)%Qc) as Hfuture.
    { intros y Hy. unfold root_due in Hdue.
      destruct (events_at q) as [|[[tstamp event] a] heap] eqn:Hq;
        [by apply elem_of_nil in Hy|].
      apply bool_decide_eq_false in Hdue. apply Qcnot_le_lt in Hdue.
      apply (Qclt_le_trans _ tstamp); [done|].
      apply (key_le_due (tstamp, event, a) y).
      apply list_elem_of_lookup in Hy as [i Hi].
      apply (heapq_order.is_heap_root key_ltb key_ltb_irrefl key_ltb_le_trans
               _ _ Hheap eq_refl i y Hi). }
    split; [done|].
    destruct (events q) as [|[event a] rest] eqn:Hfifo; simplify_eq/=; [|done].
    destruct (events_at q) eqn:Hq; simplify_eq/=. by rewrite Hq.
Qed.

(** X4. [next] raises [QueueEmptyException] exactly when [count] is 0. *)
Theorem next_QueueEmpty_iff_count_0 now q :
  (∃ description, next now q = Raise (QueueEmptyException description))
  ↔ count q = 0%nat.
Proof.
  unfold count. split.
  - intros [description Hnext].
    apply next_Raise in Hnext as [(_ & -> & ->)|(? & _)]; done.
  - intros Hcount. exists "Event queue is empty". apply next_empty.
    + destruct (events q); [done|]. simpl in Hcount. lia.
    + destruct (events_at q); [done|]. simpl in Hcount. lia.
Qed.

(** X5. [count] follows the calls: every scheduling method that returns adds
    one, [next] takes one away when it returns an entry, and the placeholder
    leaves the queue as it was (and is returned by a queue that is not
    empty). *)
Theorem count_follows_the_calls now tstamp delay event a q :
  count (schedule event a q) = S (count q) ∧
  count (schedule_next event a q) = S (count q) ∧
  (∀ q', schedule_at tstamp event a q = Ok q' → count q' = S (count q)) ∧
  (∀ q', schedule_after now delay event a q = Ok q' → count q' = S (count q)) ∧
  (∀ r q', next now q = Ok (r, q') →
     match r.1 with
     | Some _ => count q = S (count q')
     | None => q' = q ∧ r = (None, None) ∧ count q ≠ 0%nat
     end).
Proof.
  unfold count. split; [|split; [|split; [|split]]].
  - simpl. rewrite length_app. simpl. lia.
  - simpl. lia.
  - unfold schedule_at. intros q' (heap' & Hpush & [= <-])%bind_Ok. simpl.
    apply heapq_facts.heappush_Permutation in Hpush. rewrite Hpush. simpl. lia.
  - unfold schedule_after. intros q' (heap' & Hpush & [= <-])%bind_Ok. simpl.
    apply heapq_facts.heappush_Permutation in Hpush. rewrite Hpush. simpl. lia.
  - intros r q'. rewrite next_unfold. destruct (root_due now q).
    + intros ([[[tstamp' event'] a'] heap'] & Hpop & [= <- <-])%bind_Ok.
      apply heapq_facts.heappop_root in Hpop as [_ Hperm]. simpl.
      rewrite <-Hperm. simpl. lia.
    + destruct (events q) as [|[event' a'] rest].
      * destruct (events_at q) eqn:Hq; [done|]. intros [= <- <-]. simpl.
        split; [done|]. split; [done|]. lia.
      * intros [= <- <-]. simpl. lia.
Qed.

(** X6. [when] and [wait] index the heap without looking at its length: on a
    queue with no entry at all they raise [IndexError], and on every other
    queue they return. *)
Theorem when_wait_IndexError_iff_empty now q :
  (count q = 0%nat ↔ when now q = Raise IndexError) ∧
  (count q = 0%nat ↔ wait now q = Raise IndexError) ∧
  (count q ≠ 0%nat ↔ is_Ok (when now q) ∧ is_Ok (wait now q)).
Proof.
  unfold count, when, wait.
  destruct (events q) as [|[event a] rest];
    destruct (events_at q) as [|[[tstamp event'] a'] heap]; simpl;
    (split; [|split]); split; try done; try lia; intros []; done.
Qed.

(** X7. [wait] is the time from now until [when]. *)
Theorem wait_is_when_minus_now now q :
  wait now q = (t ← when now q; Ok (t - now)%Qc).
Proof.
  unfold when, wait. destruct (events q) as [|[event a] rest]; simpl.
  - by destruct (getitem (events_at q) 0) as [[[tstamp event] a]|].
  - f_equal. ring.
Qed.

Lemma next_placeholder now q r q' :
  next now q = Ok (r, q') → r.1 = None →
  q' = q ∧ r = (None, None) ∧ events q = [] ∧
  ∃ tstamp event a heap,
    events_at q = (tstamp, event, a) :: heap ∧ (now < tstamp)%Qc.
Proof.
  rewrite next_unfold. unfold root_due.
  destruct (events_at q) as [|[[tstamp event] a] heap] eqn:Hq.
  - destruct (events q) as [|[event a] rest]; [done|]. by intros [= <- <-].
  - destruct (bool_decide (tstamp ≤ now)%Qc) eqn:Hdue.
    + by intros ([[[tstamp' event'] a'] heap'] & _ & [= <- <-])%bind_Ok.
    + destruct (events q) as [|[event' a'] rest]; [|by intros [= <- <-]].
      intros [= <- <-] _. split; [done|]. split; [done|]. split; [done|].
      apply bool_decide_eq_false in Hdue. apply Qcnot_le_lt in Hdue.
      by exists tstamp, event, a, heap.
Qed.


(** X2. Timed entries that are all due leave a well-formed queue in the order of
    the heap, earliest due time first and the event names in ascending order
    among equal due times, whatever the order in which they were scheduled:
    as many calls of [next] as there are timed entries return them all,
    sorted, and none of these calls touches the FIFO. *)
Theorem due_entries_leave_in_order nows q :
  well_formed q →
  length nows = length (events_at q) →
  (∀ now x, now ∈ nows → x ∈ events_at q → (due x ≤ now)%Qc) →
  ∃ l, next_all nows q
         = Ok (timed_fetched <$> l, {| events := events q; events_at := [] |}) ∧
       l ≡ₚ events_at q ∧ StronglySorted key_le l.
Proof.
  revert q. induction nows as [|now nows IH]; intros q Hwf Hlen Hdue.
  - exists []. destruct q as [fifo [|??]]; [|done]. split; [done|].
    split; [done|]. constructor.
  - assert (root_due now q = true) as Hroot.
    { unfold root_due. destruct (events_at q) as [|[[tstamp event] a] heap] eqn:Hq;
        [done|].
      apply bool_decide_eq_true. apply (Hdue now (tstamp, event, a)); by left. }
    destruct (next_due_least now q Hwf Hroot)
      as (tstamp & event & a & heap' & Hnext & _ & Hheap' & Hperm & Hleast).
    destruct Hwf as [_ Hfree].
    destruct (IH {| events := events q; events_at := heap' |})
      as (l & Hall & Hl & Hsorted).
    + split; [done|]. simpl. apply (tie_free_tail (tstamp, event, a)).
      by apply (tie_free_Permutation _ _ (symmetry Hperm)).
    + simpl in *. rewrite <-Hperm in Hlen. simpl in Hlen. lia.
    + simpl. intros now' x Hnow' Hx. apply Hdue; [by right|].
      rewrite <-Hperm. by right.
    + exists ((tstamp, event, a) :: l). split; [|split].
      * cbn [next_all]. rewrite Hnext. cbn [mbind result_bind].
        rewrite Hall. done.
      * by rewrite Hl.
      * constructor; [done|]. apply Forall_forall. intros y Hy.
        rewrite Hl in Hy. simpl in Hy.
        assert (y ∈ events_at q) as [i Hi]%list_elem_of_lookup
          by (rewrite <-Hperm; by right).
        by apply (Hleast i).
Qed.

End queue_laws.
End queue_laws.

Module queue_examples.
Import EventQueueManager EventQueueManager_facts EventQueueManager_examples.
Import queue_ops queue_laws.

Lemma queue_raises_only_empty_or_TypeError_witness :
  let ops : list (op kv) :=
    [ScheduleAt (Qc_of_Z 1) "r" None;
     ScheduleAt (Qc_of_Z 5) "a" (Some [("k", 1%Z)]);
     ScheduleAt (Qc_of_Z 5) "a" (Some [("k", 2%Z)]);
     Next (Qc_of_Z 10)] in
  run_ops ops init = Raise TypeError ∧
  (TypeError = QueueEmptyException "Event queue is empty" ∨ TypeError = TypeError).
Proof.
  intros ops. split; [by vm_compute|].
  apply (queue_raises_only_empty_or_TypeError ops init TypeError). by vm_compute.
Defined.

Lemma next_earliest_due_first_witness :
  let ops : list (op kv) :=
    [Schedule "x" None;
     ScheduleAt (Qc_of_Z 9) "late" None;
     ScheduleAt (Qc_of_Z 5) "b" None;
     ScheduleAt (Qc_of_Z 5) "a" None] in
  let q : t kv :=
    {| events := [("x", None)];
       events_at := [(Qc_of_Z 5, "a", None); (Qc_of_Z 9, "late", None);
                     (Qc_of_Z 5, "b", None)] |} in
  let r : fetched kv := (Some "a", None) in
  let q' : t kv :=
    {| events := [("x", None)];
       events_at := [(Qc_of_Z 5, "b", None); (Qc_of_Z 9, "late", None)] |} in
  run_ops ops init = Ok q ∧
  next (Qc_of_Z 6) q = Ok (r, q') ∧
  ((∃ x, r = timed_fetched x ∧ x ∈ events_at q ∧
         (due x ≤ Qc_of_Z 6)%Qc ∧
         (∀ y, y ∈ events_at q → (due x ≤ due y)%Qc) ∧
         events q' = events q ∧ x :: events_at q' ≡ₚ events_at q)
   ∨ ((∀ y, y ∈ events_at q → (Qc_of_Z 6 < due y)%Qc) ∧
      events_at q' = events_at q ∧
      match events q with
      | (event, a) :: rest => r = (Some event, a) ∧ events q' = rest
      | [] => r = (None, None) ∧ events q' = [] ∧ events_at q ≠ []
      end)).
Proof.
  intros ops q r q'.
  assert (run_ops ops init = Ok q) as Hops by (by vm_compute).
  assert (next (Qc_of_Z 6) q = Ok (r, q')) as Hnext by (by vm_compute).
  split; [exact Hops|]. split; [exact Hnext|].
  exact (next_earliest_due_first ops (Qc_of_Z 6) q r q' Hops Hnext).
Defined.


Lemma due_entries_leave_in_order_witness :
  let q : t kv :=
    {| events := []; events_at := [(Qc_of_Z 5, "a", None); (Qc_of_Z 5, "b", None)] |} in
  let nows := [Qc_of_Z 5; Qc_of_Z 6] in
  well_formed q ∧
  length nows = length (events_at q) ∧
  (∀ now x, now ∈ nows → x ∈ events_at q → (due x ≤ now)%Qc) ∧
  ∃ l, next_all nows q
         = Ok (timed_fetched <$> l, {| events := events q; events_at := [] |}) ∧
       l ≡ₚ events_at q ∧ StronglySorted key_le l.
Proof.
  intros q nows.
  assert (∀ now x, now ∈ nows → x ∈ events_at q → (due x ≤ now)%Qc) as Hdue.
  { intros now x Hnow Hx. apply list_elem_of_In in Hnow, Hx. simpl in Hnow, Hx.
    destruct Hnow as [<-|[<-|[]]], Hx as [<-|[<-|[]]];
      apply (bool_decide_unpack _); by vm_compute. }
  split; [exact well_formed_b_a|]. split; [reflexivity|]. split; [exact Hdue|].
  exact (due_entries_leave_in_order nows q well_formed_b_a eq_refl Hdue).
Defined.
End queue_examples.

(** ** Component statistics *)

Module statistics_laws.
Import statistics statistics_facts ZenDaemonComponent component_ops.

Lemma dict_get_dict_set {V} (d : list (string * V)) key v k :
  dict_get (dict_set d key v) k
  = if decide (k = key) then Some v else dict_get d k.
Proof.
  induction d as [|[k' v'] d IH]; simpl.
  - repeat case_decide; congruence.
  - repeat (case_decide; simpl); congruence.
Qed.

Lemma fst_dict_set {V} (d : list (string * V)) key v :
  (dict_set d key v).*1
  = match dict_get d key with
    | Some _ => d.*1
    | None => d.*1 ++ [key]
    end.
Proof.
  induction d as [|[k' v'] d IH]; [done|].
  cbn [dict_set dict_get]. case_decide; [done|].
  rewrite fmap_cons, IH. by destruct (dict_get d key).
Qed.

Lemma flat_dict_set d key b : flat d → flat (dict_set d key (SNum b)).
Proof.
  unfold flat. induction 1 as [|[k v] d Hv Hd IH]; simpl.
  - constructor; [|done]. by exists b.
  - case_decide; constructor; try done. by exists b.
Qed.

Lemma flat_dict_get d key :
  flat d → ∃ a, default (SNum 0%Qc) (dict_get d key) = SNum a.
Proof.
  unfold flat. induction 1 as [|[k v] d [b Hb] _ IH]; simpl; [eauto|].
  case_decide; simpl in *; eauto.
Qed.

(** X10. [inc_statistic] reads the counter with the default 0 and writes the sum
    back under the same key: afterwards the counter holds the old value plus
    the increment, every other key holds what it held, a key that is new is
    the last one, and the previous snapshot and its time are untouched.  It
    raises ([TypeError]) only when the key holds a [dict]. *)
Theorem inc_statistic_writes_one_counter key increment self :
  match default (SNum 0%Qc) (dict_get (statistics_cur self) key) with
  | SNum old =>
      ∃ self', inc_statistic key increment self = Ok self' ∧
        dict_get (statistics_cur self') key = Some (SNum (old + increment)%Qc) ∧
        (∀ k, k ≠ key →
           dict_get (statistics_cur self') k = dict_get (statistics_cur self) k) ∧
        (statistics_cur self').*1
        = match dict_get (statistics_cur self) key with
          | Some _ => (statistics_cur self).*1
          | None => (statistics_cur self).*1 ++ [key]
          end ∧
        statistics_prev self' = statistics_prev self ∧
        statistics_ts self' = statistics_ts self
  | SDict _ => inc_statistic key increment self = Raise TypeError
  end.
Proof.
  unfold inc_statistic.
  destruct (default _ _) as [old|sub]; [|done].
  eexists. split; [done|]. simpl. split; [|split; [|split]].
  - by rewrite dict_get_dict_set, decide_True.
  - intros k Hk. by rewrite dict_get_dict_set, decide_False.
  - apply fst_dict_set.
  - done.
Qed.

Lemma inc_statistic_Ok key increment self self' :
  inc_statistic key increment self = Ok self' →
  ∃ old, default (SNum 0%Qc) (dict_get (statistics_cur self) key) = SNum old ∧
    statistics_cur self'
    = dict_set (statistics_cur self) key (SNum (old + increment)%Qc) ∧
    statistics_prev self' = statistics_prev self ∧
    statistics_ts self' = statistics_ts self.
Proof.
  unfold inc_statistic. destruct (default _ _) as [old|sub]; [|done].
  intros [= <-]. by exists old.
Qed.

Lemma inc_all_Ok incs self self' key :
  inc_all incs self = Ok self' →
  statistics_prev self' = statistics_prev self ∧
  statistics_ts self' = statistics_ts self ∧
  (key ∉ incs.*1 →
     dict_get (statistics_cur self') key = dict_get (statistics_cur self) key) ∧
  (key ∈ incs.*1 →
     ∃ old, default (SNum 0%Qc) (dict_get (statistics_cur self) key) = SNum old ∧
       dict_get (statistics_cur self') key = Some (SNum (old + total key incs)%Qc)).
Proof.
  revert self. induction incs as [|[k x] incs IH]; intros self; simpl.
  - intros [= <-]. split; [done|]. split; [done|]. split; [done|].
    by intros ?%elem_of_nil.
  - intros (self1 & Hinc & Hall)%bind_Ok.
    apply inc_statistic_Ok in Hinc as (old & Hold & Hcur & Hprev & Hts).
    destruct (IH self1 Hall) as (Hprev' & Hts' & Hout & Hin).
    split; [congruence|]. split; [congruence|]. split.
    + intros Hkey. apply not_elem_of_cons in Hkey as [Hne Hkey].
      rewrite (Hout Hkey), Hcur, dict_get_dict_set. by rewrite decide_False.
    + intros Hkey. case_decide as Hk.
      * subst k. exists old. split; [done|].
        destruct (decide (key ∈ incs.*1)) as [Hin'|Hout'].
        -- destruct (Hin Hin') as (old1 & Hold1 & ->).
           rewrite Hcur, dict_get_dict_set, decide_True in Hold1 by done.
           simpl in Hold1. injection Hold1 as <-. do 2 f_equal. ring.
        -- rewrite (Hout Hout'), Hcur, dict_get_dict_set, decide_True by done.
           assert (total key incs = 0%Qc) as ->.
           { clear -Hout'. induction incs as [|[k x'] incs IH]; [done|].
             simpl in *. apply not_elem_of_cons in Hout' as [Hne Hout'].
             rewrite decide_False by done. by apply IH. }
           do 2 f_equal. ring.
      * apply elem_of_cons in Hkey as [Hkey|Hkey]; [done|].
        destruct (Hin Hkey) as (old1 & Hold1 & ->).
        rewrite Hcur, dict_get_dict_set, decide_False in Hold1 by done.
        by exists old1.
Qed.


Lemma keys_distinct_SDict items :
  keys_distinct (SDict items)
  ↔ NoDup items.*1 ∧ Forall (λ kv, keys_distinct kv.2) items.
Proof.
  simpl. apply and_iff_compat_l.
  induction items as [|[k v] items IH]; simpl.
  - split; [constructor|done].
  - rewrite Forall_cons, IH. done.
Qed.

Lemma rstat_Forall_RDict P rs :
  rstat_Forall P (RDict rs) ↔ Forall (λ kr, rstat_Forall P kr.2) rs.
Proof.
  simpl. induction rs as [|[k r] rs IH]; simpl.
  - split; [constructor|done].
  - rewrite Forall_cons, IH. done.
Qed.

Lemma NoDup_dict_get {V} (d : list (string * V)) k v :
  NoDup d.*1 → (k, v) ∈ d → dict_get d k = Some v.
Proof.
  induction d as [|[k' v'] d IH]; intros Hnodup Hin.
  - by apply elem_of_nil in Hin.
  - simpl in *. apply NoDup_cons in Hnodup as [Hk' Hnodup].
    apply elem_of_cons in Hin as [[= -> ->]|Hin].
    + by rewrite decide_True.
    + rewrite decide_False; [by apply IH|].
      intros ->. apply Hk'. apply list_elem_of_fmap. by exists (k, v).
Qed.

Lemma calc_item_unchanged tdiff s :
  keys_distinct s →
  ∀ key prev r,
    dict_get prev key = Some s →
    calc_item key s (SDict prev) tdiff = Ok r →
    rstat_Forall unchanged r.
Proof.
  induction s as [b|items IH] using stat_ind'; intros Hs key prev r Hprev.
  - rewrite (calc_item_SNum key b prev b tdiff) by (by rewrite Hprev).
    repeat case_decide; try done. intros [= <-].
    unfold rstat_Forall, unchanged, derived. cbn [inc spd pct].
    assert (b - b = 0)%Qc as -> by ring.
    unfold Qcdiv. by rewrite !Qcmult_0_l.
  - rewrite calc_item_SDict. simpl. rewrite Hprev. simpl.
    intros (rs & Hrs & [= <-])%bind_Ok.
    apply keys_distinct_SDict in Hs as [Hnodup Hsub].
    apply rstat_Forall_RDict.
    assert (∀ sub rs,
      Forall (λ kv, keys_distinct kv.2 ∧ dict_get items kv.1 = Some kv.2 ∧
                    ∀ key prev r, keys_distinct kv.2 →
                      dict_get prev key = Some kv.2 →
                      calc_item key kv.2 (SDict prev) tdiff = Ok r →
                      rstat_Forall unchanged r) sub →
      calc_statistics sub (SDict items) tdiff = Ok rs →
      Forall (λ kr, rstat_Forall unchanged kr.2) rs) as Hgen.
    { clear. intros sub rs Hall. revert rs.
      induction Hall as [|[k v] sub (Hv1 & Hv2 & Hv3) _ IHsub]; intros rs; simpl.
      - intros [= <-]. constructor.
      - intros (r & Hr & (rs' & Hrs' & [= <-])%bind_Ok)%bind_Ok.
        constructor; [|by apply IHsub]. simpl in *. by apply (Hv3 k items r). }
    apply (Hgen items rs); [|done].
    apply Forall_forall. intros [k v] Hin. simpl.
    rewrite Forall_forall in Hsub, IH.
    split; [by apply (Hsub (k, v))|]. split; [by apply NoDup_dict_get|].
    intros key' prev' r' Hd. by apply (IH (k, v)).
Qed.

(** X12. A sample right after a sample: when the counters have not moved since
    the snapshot was taken (the current tree is the snapshot itself),
    [get_statistics] reports inc = 0, spd = 0 and pct = 0 for every counter
    at every depth. *)
Theorem sample_of_unchanged_counters curts self stats self' :
  keys_distinct (SDict (statistics_cur self)) →
  statistics_prev self = statistics_cur self →
  get_statistics curts self = Ok (stats, self') →
  rdict_Forall unchanged stats ∧ statistics_prev self' = statistics_cur self.
Proof.
  unfold get_statistics. intros Hkeys Hprev.
  intros (rs & Hrs & [= <- <-])%bind_Ok. split; [|done].
  apply (calc_item_unchanged (curts - statistics_ts self)
           (SDict (statistics_cur self)) Hkeys ""
           [("", SDict (statistics_cur self))]); [reflexivity|].
  rewrite calc_item_SDict. rewrite Hprev in Hrs.
  change (py_get (SDict [("", SDict (statistics_cur self))]) "" (SDict []))
    with (Ok (SDict (statistics_cur self))).
  cbn [mbind result_bind]. by rewrite Hrs.
Qed.

Lemma calc_item_mirrors tdiff s :
  ∀ key prev r, calc_item key s prev tdiff = Ok r → mirrors s r.
Proof.
  induction s as [b|items IH] using stat_ind'; intros key prev r.
  - simpl. intros Hr. repeat (apply bind_Ok in Hr as (? & _ & Hr)).
    by injection Hr as <-.
  - rewrite calc_item_SDict.
    intros (prev' & _ & (rs & Hrs & [= <-])%bind_Ok)%bind_Ok. simpl.
    revert rs Hrs. induction IH as [|[k v] items Hv _ IHitems]; intros rs; simpl.
    + by intros [= <-].
    + intros (r & Hr & (rs' & Hrs' & [= <-])%bind_Ok)%bind_Ok.
      split; [done|]. split; [by eapply Hv|by apply IHitems].
Qed.

(** X13. The result of [calc_statistics] has the shape of the current tree: the
    same keys in the same order at every level, a record for every number
    with the number as cnt, a [dict] for every [dict].  Keys that only the
    previous snapshot has are not reported. *)
Theorem calc_statistics_mirrors_current stats_cur stats_prev tdiff res :
  calc_statistics stats_cur stats_prev tdiff = Ok res →
  mirrors (SDict stats_cur) (RDict res) ∧ res.*1 = stats_cur.*1.
Proof.
  intros Hres. split.
  - apply (calc_item_mirrors tdiff (SDict stats_cur) "" (SDict [("", stats_prev)])).
    rewrite calc_item_SDict.
    change (py_get (SDict [("", stats_prev)]) "" (SDict [])) with (Ok stats_prev).
    cbn [mbind result_bind]. by rewrite Hres.
  - revert res Hres. induction stats_cur as [|[k v] items IH]; intros res; simpl.
    + by intros [= <-].
    + intros (r & Hr & (rs' & Hrs' & [= <-])%bind_Ok)%bind_Ok. simpl.
      f_equal. by apply IH.
Qed.

Lemma calc_statistics_flat stats_cur stats_prev tdiff :
  flat stats_cur → flat stats_prev →
  match calc_statistics stats_cur (SDict stats_prev) tdiff with
  | Ok _ => tdiff ≠ 0%Qc ∨ stats_cur = []
  | Raise e => e = ZeroDivisionError
  end.
Proof.
  intros Hcur Hprev. induction Hcur as [|[k v] items [b Hb] _ IH]; simpl.
  - by right.
  - simpl in Hb. subst v. destruct (flat_dict_get stats_prev k Hprev) as [a Ha].
    change (calc_item k (SNum b) (SDict stats_prev) tdiff ≫= _)
      with (calc_item k (SNum b) (SDict stats_prev) tdiff ≫=
              λ r, calc_statistics items (SDict stats_prev) tdiff ≫=
                λ rs, Ok ((k, r) :: rs)).
    rewrite (calc_item_SNum _ _ _ _ _ Ha).
    repeat case_decide; simpl; try done.
    destruct (calc_statistics items _ _); simpl; [by left|done].
Qed.

Lemma run_steps_flat ops self :
  flat (statistics_cur self) → flat (statistics_prev self) →
  match run_steps ops self with
  | Ok self' => flat (statistics_cur self') ∧ flat (statistics_prev self')
  | Raise e => e = ZeroDivisionError
  end.
Proof.
  revert self. induction ops as [|o ops IH]; intros self Hcur Hprev; simpl; [done|].
  destruct o as [key increment|curts]; simpl.
  - destruct (flat_dict_get _ key Hcur) as [old Hold]. unfold inc_statistic.
    rewrite Hold. simpl. apply IH; simpl; [|done]. by apply flat_dict_set.
  - unfold get_statistics.
    pose proof (calc_statistics_flat (statistics_cur self) (statistics_prev self)
                  (curts - statistics_ts self) Hcur Hprev) as Hcalc.
    destruct (calc_statistics _ _ _) as [stats|e]; simpl; [|done].
    by apply IH.
Qed.



(** X16. A key that changes its kind between the snapshot and the current tree
    makes [calc_statistics] raise: a number now and a [dict] before raises
    [TypeError] (the subtraction); a non-empty [dict] now and a number
    before raises [AttributeError] (the number has no [get]); an empty
    [dict] now is reported as an empty [dict] whatever was there before. *)
Theorem calc_statistics_kind_change_raises stats_prev key tdiff :
  (∀ stats_cur b d,
     dict_get stats_cur key = Some (SNum b) →
     dict_get stats_prev key = Some (SDict d) →
     calc_statistics [(key, SNum b)] (SDict stats_prev) tdiff = Raise TypeError ∧
     ∃ e, calc_statistics stats_cur (SDict stats_prev) tdiff = Raise e) ∧
  (∀ stats_cur k v sub a,
     dict_get stats_cur key = Some (SDict ((k, v) :: sub)) →
     dict_get stats_prev key = Some (SNum a) →
     calc_statistics [(key, SDict ((k, v) :: sub))] (SDict stats_prev) tdiff
     = Raise AttributeError ∧
     ∃ e, calc_statistics stats_cur (SDict stats_prev) tdiff = Raise e) ∧
  (∀ a, dict_get stats_prev key = Some (SNum a) →
     calc_statistics [(key, SDict [])] (SDict stats_prev) tdiff
     = Ok [(key, RDict [])]).
Proof.
  assert (∀ b d, dict_get stats_prev key = Some (SDict d) →
            calc_item key (SNum b) (SDict stats_prev) tdiff = Raise TypeError)
    as Hnum.
  { intros b d Hprev. cbn [calc_item]. unfold py_get. rewrite Hprev. reflexivity. }
  assert (∀ k v sub a, dict_get stats_prev key = Some (SNum a) →
            calc_item key (SDict ((k, v) :: sub)) (SDict stats_prev) tdiff
            = Raise AttributeError) as Hdict.
  { intros k v sub a Hprev. rewrite calc_item_SDict.
    unfold py_get at 1. rewrite Hprev. cbn [default mbind result_bind].
    cbn [calc_statistics]. by destruct v. }
  split; [|split].
  - intros stats_cur b d Hcur Hprev. split.
    + cbn [calc_statistics]. by rewrite (Hnum b d Hprev).
    + by apply (calc_statistics_Raise _ _ _ key (SNum b) TypeError), (Hnum b d).
  - intros stats_cur k v sub a Hcur Hprev. split.
    + cbn [calc_statistics]. by rewrite (Hdict k v sub a Hprev).
    + by apply (calc_statistics_Raise _ _ _ key (SDict ((k, v) :: sub))
                  AttributeError), (Hdict k v sub a).
  - intros a Hprev. cbn [calc_statistics]. rewrite calc_item_SDict.
    unfold py_get. rewrite Hprev. reflexivity.
Qed.
End statistics_laws.

Module component_examples.
Import statistics statistics_facts ZenDaemonComponent component_ops statistics_laws.


Lemma sample_of_unchanged_counters_witness :
  let cur :=
    [("cnt_default", SNum (Qc_of_Z 7));
     ("by_kind", SDict [("a", SNum (Qc_of_Z 2)); ("b", SNum (Qc_of_Z 5))])] in
  let self :=
    {| statistics_cur := cur; statistics_prev := cur; statistics_ts := Qc_of_Z 10 |} in
  let curts := Qc_of_Z 12 in
  ∃ stats self',
    keys_distinct (SDict (statistics_cur self)) ∧
    statistics_prev self = statistics_cur self ∧
    get_statistics curts self = Ok (stats, self') ∧
    rdict_Forall unchanged stats ∧ statistics_prev self' = statistics_cur self.
Proof.
  intros cur self curts.
  assert (keys_distinct (SDict (statistics_cur self))) as H1.
  { simpl. repeat split; apply (bool_decide_unpack _); by vm_compute. }
  do 2 eexists. split; [exact H1|]. split; [reflexivity|].
  split; [reflexivity|].
  by eapply (sample_of_unchanged_counters curts self _ _ H1 eq_refl).
Defined.

Lemma calc_statistics_mirrors_current_witness :
  let stats_cur :=
    [("cnt_default", SNum (Qc_of_Z 7));
     ("by_kind", SDict [("a", SNum (Qc_of_Z 2)); ("b", SNum (Qc_of_Z 5))])] in
  let stats_prev := SDict [("gone", SNum (Qc_of_Z 4))] in
  let tdiff := Qc_of_Z 3 in
  ∃ res,
    calc_statistics stats_cur stats_prev tdiff = Ok res ∧
    mirrors (SDict stats_cur) (RDict res) ∧ res.*1 = stats_cur.*1.
Proof.
  intros stats_cur stats_prev tdiff. eexists. split; [reflexivity|].
  by eapply (calc_statistics_mirrors_current stats_cur stats_prev tdiff).
Defined.

End component_examples.

(** ** The registry, the initial events and the loop *)

Module registry_laws.
Import ZenDaemon ZenDaemon_facts ZenDaemon_setup.
Section registry_laws.
Context {payload handler components : Type} `{!EqDecision payload}.
Implicit Types self : ZenDaemon.t payload handler components.

Lemma _init_event_callback_new event callback prepend self :
  callbacks self !! event = None →
  let l := fresh (dom (lists self)) in
  _init_event_callback event callback prepend self
  = set_registry (<[event:=l]> (callbacks self)) (<[l:=[callback]]> (lists self))
      self.
Proof.
  intros Hnone l. unfold _init_event_callback. rewrite Hnone.
  cbn [callbacks set_registry lists]. rewrite lookup_insert_eq.
  cbn [callbacks set_registry lists]. rewrite lookup_insert_eq. simpl.
  rewrite insert_insert_eq. by destruct prepend.
Qed.

(** [_init_event_callback] on a registry that it built: the callback goes to
    the front of the chain of its event when [prepend] is set and to the end
    otherwise (a chain of its own for an event that had none), the chain of
    every other event is what it was, and nothing else of the daemon
    changes. *)
Lemma _init_event_callback_chain event callback prepend self :
  registry_ok self →
  let self' := _init_event_callback event callback prepend self in
  chain event self'
  = Some (if prepend then callback :: handlers_of event self
          else handlers_of event self ++ [callback]) ∧
  (∀ e, e ≠ event → chain e self' = chain e self) ∧
  registry_ok self' ∧
  queue self' = queue self ∧ flag_done self' = flag_done self ∧
  clock self' = clock self ∧ logger self' = logger self.
Proof.
  intros [Hlists Hinj] self'. subst self'. unfold handlers_of, chain.
  destruct (callbacks self !! event) as [l|] eqn:Hevent.
  - rewrite (_init_event_callback_registered _ _ _ _ _ Hevent).
    cbn [callbacks lists set_registry queue flag_done clock logger].
    rewrite Hevent. cbn [mbind option_bind]. rewrite lookup_insert_eq.
    split; [done|]. split; [|split; [split|done]].
    + intros e He. destruct (callbacks self !! e) as [l'|] eqn:He'; [|done].
      cbn [mbind option_bind]. rewrite lookup_insert_ne; [done|].
      intros <-. by apply He, (Hinj e event l).
    + intros e l' He. cbn [callbacks lists set_registry] in He |- *.
      destruct (decide (l' = l)) as [->|Hne].
      * by rewrite lookup_insert_eq.
      * rewrite lookup_insert_ne by done. by apply (Hlists e).
    + done.
  - rewrite (_init_event_callback_new _ _ _ _ Hevent).
    cbn [callbacks lists set_registry queue flag_done clock logger].
    rewrite lookup_insert_eq. cbn [mbind option_bind].
    rewrite lookup_insert_eq.
    assert (∀ e l', callbacks self !! e = Some l' →
                    l' ≠ fresh (dom (lists self))) as Hfresh.
    { intros e l' He ->. apply Hlists in He.
      apply elem_of_dom in He. by apply is_fresh in He. }
    split; [by destruct prepend|]. split; [|split; [split|done]].
    + intros e He. rewrite lookup_insert_ne by done.
      destruct (callbacks self !! e) as [l'|] eqn:He'; [|done].
      cbn [mbind option_bind]. rewrite lookup_insert_ne; [done|].
      intros Heq. by apply (Hfresh e l').
    + intros e l' He. cbn [callbacks lists set_registry] in He |- *.
      destruct (decide (e = event)) as [->|Hne].
      * rewrite lookup_insert_eq in He. injection He as <-.
        by rewrite lookup_insert_eq.
      * rewrite lookup_insert_ne in He by done.
        rewrite lookup_insert_ne by (intros Heq; by apply (Hfresh e l')).
        by apply (Hlists e).
    + intros e1 e2 l' He1 He2. cbn [callbacks lists set_registry] in He1, He2.
      destruct (decide (e1 = event)) as [->|Hne1];
        destruct (decide (e2 = event)) as [->|Hne2]; [done|..].
      * rewrite lookup_insert_eq in He1. injection He1 as <-.
        rewrite lookup_insert_ne in He2 by done. by destruct (Hfresh e2 _ He2).
      * rewrite lookup_insert_eq in He2. injection He2 as <-.
        rewrite lookup_insert_ne in He1 by done. by destruct (Hfresh e1 _ He1).
      * rewrite lookup_insert_ne in He1, He2 by done. by apply (Hinj e1 e2 l').
Qed.

Lemma handlers_of_init_event_callback event callback prepend e self :
  registry_ok self →
  handlers_of e (_init_event_callback event callback prepend self)
  = if decide (event = e)
    then (if prepend then callback :: handlers_of e self
          else handlers_of e self ++ [callback])
    else handlers_of e self.
Proof.
  intros Hok.
  destruct (_init_event_callback_chain event callback prepend self Hok)
    as (Hchain & Hother & _).
  case_decide as He.
  - subst e. unfold handlers_of at 1. by rewrite Hchain.
  - unfold handlers_of. by rewrite Hother.
Qed.

(** X18. The chains that [_init_callbacks] builds from the records of
    [get_events]: for every event, the callbacks registered with [prepend]
    come first, the one registered last in front; then the handlers that the
    event already had; then the callbacks registered without [prepend], in
    the order of the records.  An event that no record names keeps its
    chain, and the queue is not touched. *)
Theorem _init_callbacks_order records event self :
  registry_ok self →
  let self' := _init_callbacks records self in
  handlers_of event self'
  = reverse (registered event true records) ++ handlers_of event self
    ++ registered event false records ∧
  registry_ok self' ∧ queue self' = queue self.
Proof.
  intros Hok self'. subst self'. revert self Hok. unfold _init_callbacks.
  induction records as [|[[e callback] p] records IH]; intros self Hok.
  - simpl. by rewrite app_nil_r.
  - cbn [foldl registered].
    destruct (_init_event_callback_chain e callback p self Hok)
      as (_ & _ & Hok1 & Hqueue & _).
    destruct (IH (_init_event_callback e callback p self) Hok1)
      as (Hchain & Hok' & Hqueue').
    split; [|split; [done|congruence]].
    rewrite Hchain, handlers_of_init_event_callback by done.
    destruct p.
    + rewrite (decide_False (P := e = event ∧ true = false)) by (by intros [_ ?]).
      destruct (decide (e = event)) as [->|Hne].
      * rewrite decide_True by done. by rewrite reverse_cons, <-!app_assoc.
      * by rewrite decide_False by (by intros [? _]).
    + rewrite (decide_False (P := e = event ∧ false = true)) by (by intros [_ ?]).
      destruct (decide (e = event)) as [->|Hne].
      * rewrite decide_True by done. by rewrite <-!app_assoc.
      * by rewrite decide_False by (by intros [? _]).
Qed.

Lemma foldl_schedule es (q : EventQueueManager.t payload) :
  foldl (λ q '(event, a), EventQueueManager.schedule event a q) q es
  = {| EventQueueManager.events := EventQueueManager.events q ++ es;
       EventQueueManager.events_at := EventQueueManager.events_at q |}.
Proof.
  revert q. induction es as [|[event a] es IH]; intros q; simpl.
  - rewrite app_nil_r. by destruct q.
  - rewrite IH. simpl. by rewrite <-app_assoc.
Qed.

Lemma foldl_schedule_next es (q : EventQueueManager.t payload) :
  foldl (λ q '(event, a), EventQueueManager.schedule_next event a q) q es
  = {| EventQueueManager.events := reverse es ++ EventQueueManager.events q;
       EventQueueManager.events_at := EventQueueManager.events_at q |}.
Proof.
  revert q. induction es as [|[event a] es IH]; intros q; simpl.
  - by destruct q.
  - rewrite IH. simpl. by rewrite reverse_cons, <-app_assoc.
Qed.

Lemma for_events_schedule_at (f : Qc → Qc) es (q : EventQueueManager.t payload) :
  match for_events
          (λ '(tstamp, event, a), EventQueueManager.schedule_at (f tstamp) event a)
          es q with
  | Ok q' =>
      EventQueueManager.events q' = EventQueueManager.events q ∧
      EventQueueManager.events_at q'
      ≡ₚ EventQueueManager.events_at q ++ ((λ x, (f x.1.1, x.1.2, x.2)) <$> es)
  | Raise e => e = TypeError ∧ es ≠ []
  end.
Proof.
  revert q. induction es as [|[[tstamp event] a] es IH]; intros q; simpl.
  - by rewrite app_nil_r.
  - destruct (EventQueueManager.schedule_at (f tstamp) event a q) as [q1|e] eqn:Hq1;
      simpl.
    + specialize (IH q1).
      destruct (for_events _ es q1) as [q'|e]; [|by destruct IH as [-> _]].
      destruct IH as [Hev Hat]. unfold EventQueueManager.schedule_at in Hq1.
      apply bind_Ok in Hq1 as (heap & Hpush & [= <-]).
      apply heapq_facts.heappush_Permutation in Hpush. simpl in *.
      split; [done|]. rewrite Hat, Hpush. by rewrite <-Permutation_middle.
    + by apply EventQueueManager_facts.schedule_at_Raise in Hq1 as [-> _].
Qed.

Lemma for_events_Ok {A} (r : result A) (P : A → Prop) (Q : exn → Prop) x :
  match r with Ok x => P x | Raise e => Q e end → r = Ok x → P x.
Proof. by intros H ->. Qed.

Lemma for_events_Raise {A} (r : result A) (P : A → Prop) (Q : exn → Prop) e :
  match r with Ok x => P x | Raise e => Q e end → r = Raise e → Q e.
Proof. by intros H ->. Qed.

End registry_laws.
End registry_laws.

Module loop_laws.
Import ZenDaemon ZenDaemon_facts ZenDaemon_setup.
Section loop_laws.
Context {payload handler components : Type} `{!EqDecision payload}.
Context (run_handler : handler → ZenDaemon.t payload handler components →
                       option payload →
                       ZenDaemon.hresult payload handler components).
Implicit Types self s : ZenDaemon.t payload handler components.
Implicit Types a : option payload.

Lemma Qc_le_ceiling (x : Qc) : (x ≤ Qc_of_Z (Qceiling x))%Qc.
Proof.
  unfold Qcle, Qc_of_Z. cbn [this]. apply Qle_ceiling.
Qed.

Lemma Qceiling_pos (x : Qc) : (0 < x)%Qc → (0 < Qceiling x)%Z.
Proof.
  intros Hx. rewrite Zlt_Qlt. apply (Qlt_le_trans _ x); [exact Hx|].
  apply Qle_ceiling.
Qed.

Lemma set_queue_queue self : set_queue (queue self) self = self.
Proof. by destruct self. Qed.


(** X22. An exception in a handler ends the dispatch, and the [try] statement of
    the loop decides: [QueueEmptyException] from a handler is taken for the
    empty queue, so the loop logs and ends without an exception, whatever
    the queue still holds; every other exception leaves the loop.  The
    event is gone from the queue in both cases. *)
Theorem exception_in_handler fuel self name a q lst calls e self' :
  flag_done self = false →
  EventQueueManager.next (clock self) (queue self) = Ok ((Some name, a), q) →
  name ≠ "" →
  callbacks self !! name = Some lst →
  for_handlers run_handler fuel lst 0 a (set_queue q self)
  = (calls, Raised e self') →
  while_not_done run_handler (S fuel) self
  = match e with
    | QueueEmptyException _ =>
        (calls, Return (set_flag_done true
                          (log "info" "Event queue is empty, terminating" self')))
    | _ => (calls, Raised e self')
    end.
Proof.
  intros Hdone Hnext Hname Hlst Hfor. cbn [while_not_done]. rewrite Hdone.
  unfold iteration, try_body. rewrite Hnext, truthy_Some by done.
  unfold dispatch. cbn [default from_option id].
  change (callbacks (set_queue q self)) with (callbacks self).
  rewrite Hlst, Hfor.
  destruct e; try done. destruct fuel; simpl; by rewrite app_nil_r.
Qed.

Lemma try_body_schedule_next fuel event self s :
  event ≠ "" →
  EventQueueManager.root_due (clock self) (queue self) = false →
  clock s = clock self →
  queue s = EventQueueManager.schedule_next event None (queue self) →
  try_body run_handler fuel s
  = dispatch run_handler fuel event None (set_queue (queue self) s).
Proof.
  intros Hevent Hdue Hclock Hqueue. unfold try_body.
  rewrite Hclock, Hqueue, EventQueueManager_facts.schedule_next_next by done.
  by rewrite truthy_Some.
Qed.

(** X23. A signal between two turns of the loop: the handler of the signal puts
    the event of the signal in front of the FIFO, and the next turn
    dispatches that event before everything the FIFO holds, unless a timed
    entry is due.  The three signals are treated alike. *)
Theorem signal_event_is_dispatched_next fuel signum self :
  EventQueueManager.root_due (clock self) (queue self) = false →
  try_body run_handler fuel (_hnd_signal_hup signum self)
  = dispatch run_handler fuel EVENT_SIGNAL_HUP None
      (log "warning" ("Received signal 'SIGHUP' (" +:+ pretty signum +:+ ")") self) ∧
  try_body run_handler fuel (_hnd_signal_usr1 signum self)
  = dispatch run_handler fuel EVENT_SIGNAL_USR1 None
      (log "info" ("Received signal 'SIGUSR1' (" +:+ pretty signum +:+ ")") self) ∧
  try_body run_handler fuel (_hnd_signal_usr2 signum self)
  = dispatch run_handler fuel EVENT_SIGNAL_USR2 None
      (log "info" ("Received signal 'SIGUSR2' (" +:+ pretty signum +:+ ")") self).
Proof.
  intros Hdue.
  split; [|split].
  - rewrite (try_body_schedule_next fuel EVENT_SIGNAL_HUP self);
      [by destruct self|by unfold EVENT_SIGNAL_HUP|done..].
  - rewrite (try_body_schedule_next fuel EVENT_SIGNAL_USR1 self);
      [by destruct self|by unfold EVENT_SIGNAL_USR1|done..].
  - rewrite (try_body_schedule_next fuel EVENT_SIGNAL_USR2 self);
      [by destruct self|by unfold EVENT_SIGNAL_USR2|done..].
Qed.

Lemma run_chain_quiet handlers a self :
  Forall (quiet run_handler) handlers →
  (run_chain run_handler handlers a self).2 = Return self.
Proof.
  intros Hquiet. revert a. induction Hquiet as [|h handlers Hh _ IH]; intros a.
  - done.
  - cbn [run_chain]. destruct (Hh self a) as (flag & a' & ->).
    case_decide; [done|]. specialize (IH a').
    by destruct (run_chain run_handler handlers a' self).
Qed.

Lemma while_dispatches_fifo m es : ∀ fuel self,
  flag_done self = false →
  EventQueueManager.events_at (queue self) = [] →
  EventQueueManager.events (queue self) = es →
  (∀ event a, (event, a) ∈ es →
     event ≠ "" ∧
     ∃ lst hs, callbacks self !! event = Some lst ∧ lists self !! lst = Some hs ∧
               (length hs ≤ m)%nat ∧ Forall (quiet run_handler) hs) →
  (length es + m < fuel)%nat →
  while_not_done run_handler fuel self
  = (calls_of run_handler es self,
     Return (set_flag_done true
               (log "info" "Event queue is empty, terminating"
                  (set_queue EventQueueManager.init self)))).
Proof.
  induction es as [|[event a] es IH]; intros [|fuel] self Hdone Hheap Hfifo Hreg Hfuel;
    try (simpl in Hfuel; lia).
  - cbn [while_not_done]. rewrite Hdone. unfold iteration, try_body.
    rewrite EventQueueManager_facts.next_empty by done.
    destruct self as [? [fifo heap] ? ? ? ? ? ?]. simpl in *. subst.
    by destruct fuel.
  - destruct (Hreg event a) as (Hevent & lst & hs & Hlst & Hhs & Hlen & Hquiet);
      [by left|].
    cbn [while_not_done]. rewrite Hdone. unfold iteration, try_body.
    rewrite (EventQueueManager_facts.next_fifo _ _ event a es);
      [|unfold EventQueueManager.root_due; by rewrite Hheap|done].
    rewrite truthy_Some by done. unfold dispatch. cbn [default from_option id].
    set (s1 := set_queue _ self).
    change (callbacks s1) with (callbacks self). rewrite Hlst.
    rewrite (for_handlers_run_chain run_handler fuel lst hs 0 a s1);
      [|done|simpl in Hfuel; lia|].
    2:{ intros h s a' Hh Hs. rewrite Forall_forall in Hquiet.
        destruct (Hquiet h Hh s a') as (flag & a'' & ->). done. }
    rewrite drop_0.
    pose proof (run_chain_quiet hs a s1 Hquiet) as Hchain.
    destruct (run_chain run_handler hs a s1) as [calls r] eqn:Hrun.
    simpl in Hchain. subst r.
    rewrite (IH fuel s1); [| done | by rewrite <-Hheap | done | | simpl in Hfuel; lia].
    + cbn [calls_of]. fold s1. unfold handlers_of at 1, chain.
      change (callbacks s1) with (callbacks self).
      change (lists s1) with (lists self).
      rewrite Hlst. cbn [mbind option_bind]. rewrite Hhs.
      cbn [default from_option id]. by rewrite Hrun.
    + intros event' a' Hin. apply (Hreg event' a'). by right.
Qed.

End loop_laws.
End loop_laws.

Module demo_laws.
Import statistics ZenDaemonComponent ZenDaemon DemoZenDaemon.
Import component_ops statistics_laws.

Lemma demo_loop_goes_on fuel : ∀ (self : DemoZenDaemon.daemon) lst,
  flag_done self = false →
  queue self = {| EventQueueManager.events := [("default", None)];
                  EventQueueManager.events_at := [] |} →
  callbacks self !! "default" = Some lst →
  lists self !! lst = Some [cbk_event_default] →
  flat (statistics_cur (comps self)) →
  (while_not_done DemoZenDaemon.run_handler fuel self).2 = OutOfFuel.
Proof.
  induction fuel as [|fuel IH]; intros self lst Hdone Hqueue Hlst Hlists Hflat.
  - cbn [while_not_done]. by rewrite Hdone.
  - destruct (flat_dict_get _ "cnt_default" Hflat) as [old Hold].
    destruct self as [done q cbs ls now lg interval c].
    cbn in Hdone, Hqueue, Hlst, Hlists, Hflat, Hold.
    subst done q. cbn [while_not_done flag_done]. unfold iteration, try_body.
    cbn [clock queue].
    rewrite (EventQueueManager_facts.next_fifo _ _ "default" None []) by done.
    rewrite ZenDaemon_facts.truthy_Some by done. unfold dispatch.
    cbn [default from_option id callbacks set_queue]. rewrite Hlst.
    destruct fuel as [|fuel']; [done|].
    cbn [for_handlers lists set_queue log set_clock set_comps]. rewrite Hlists.
    cbn [default from_option id lookup list_lookup].
    unfold DemoZenDaemon.run_handler, inc_statistic.
    cbn [comps log set_queue queue flag_done callbacks lists clock logger
         cfg_stats_interval].
    rewrite Hold.
    cbn [comps log set_queue set_clock set_comps queue flag_done callbacks lists
         clock logger cfg_stats_interval].
    rewrite decide_False by (intros H; by apply H).
    destruct fuel' as [|fuel'']; [done|].
    cbn [for_handlers lists set_queue log set_clock set_comps]. rewrite Hlists.
    cbn [default from_option id lookup list_lookup].
    match goal with
    | |- context [while_not_done ?rh ?f ?s] =>
        specialize (IH s lst eq_refl eq_refl Hlst Hlists);
        change (while_not_done rh f s)
          with (while_not_done DemoZenDaemon.run_handler f s);
        destruct (while_not_done DemoZenDaemon.run_handler f s) as [calls r]
    end.
    cbn in IH |- *. apply IH. by apply flat_dict_set.
Qed.

(** X24. The demonstration daemon does not leave its loop: the handler of the
    component schedules the event it handles again, so the queue is never
    found empty, no handler raises and none sets the done flag.  However
    many steps the loop is given, it has neither returned nor raised when
    they are used up. *)
Theorem demo_daemon_stays_in_the_loop now fuel :
  (_event_loop DemoZenDaemon.run_handler fuel (DemoZenDaemon.init now)).2
  = OutOfFuel.
Proof.
  unfold _event_loop.
  apply (demo_loop_goes_on fuel _ 2%nat); try reflexivity. constructor.
Qed.
End demo_laws.

Module setup_examples.
Import ZenDaemon ZenDaemon_facts ZenDaemon_setup registry_laws loop_laws.

Lemma registry_ok_empty :
  registry_ok (TestDaemon.make [] []).
Proof.
  split.
  - intros event l H.
    change (callbacks (TestDaemon.make [] [])) with (∅ : gmap string ref) in H.
    by rewrite lookup_empty in H.
  - intros e1 e2 l H.
    change (callbacks (TestDaemon.make [] [])) with (∅ : gmap string ref) in H.
    by rewrite lookup_empty in H.
Qed.

Lemma _init_callbacks_order_witness :
  let self := TestDaemon.make [] [] in
  let records :=
    [("ev", "a", false); ("ev", "b", true); ("other", "c", false);
     ("ev", "d", true)] in
  registry_ok self ∧
  handlers_of "ev" (_init_callbacks records self) = ["d"; "b"; "a"] ∧
  registry_ok (_init_callbacks records self) ∧
  queue (_init_callbacks records self) = queue self.
Proof.
  intros self records. split; [exact registry_ok_empty|].
  exact (_init_callbacks_order records "ev" self registry_ok_empty).
Defined.


Lemma exception_in_handler_witness :
  let self := TestDaemon.make ["a"; "give_up"; "never"] [("ev", None); ("ev", None)] in
  let q : EventQueueManager.t kv :=
    {| EventQueueManager.events := [("ev", None)];
       EventQueueManager.events_at := [] |} in
  flag_done self = false ∧
  EventQueueManager.next (clock self) (queue self) = Ok ((Some "ev", None), q) ∧
  "ev" ≠ "" ∧
  callbacks self !! "ev" = Some 0%nat ∧
  for_handlers FaultyDaemon.run_handler 5 0 0 None (set_queue q self)
  = ([passed None "a"; mk_call "give_up" None None],
     Raised (QueueEmptyException "nothing to do") (set_queue q self)) ∧
  while_not_done FaultyDaemon.run_handler 6 self
  = ([passed None "a"; mk_call "give_up" None None],
     Return (set_flag_done true
               (log "info" "Event queue is empty, terminating"
                  (set_queue q self)))).
Proof.
  intros self q.
  assert (EventQueueManager.next (clock self) (queue self)
          = Ok ((Some "ev", None), q)) as H2 by reflexivity.
  assert ("ev" ≠ "") as H3 by done.
  assert (callbacks self !! "ev" = Some 0%nat) as H4 by (vm_compute; reflexivity).
  assert (for_handlers FaultyDaemon.run_handler 5 0 0 None (set_queue q self)
          = ([passed None "a"; mk_call "give_up" None None],
             Raised (QueueEmptyException "nothing to do") (set_queue q self)))
    as H5 by (vm_compute; reflexivity).
  split; [reflexivity|]. split; [exact H2|]. split; [exact H3|].
  split; [exact H4|]. split; [exact H5|].
  exact (exception_in_handler FaultyDaemon.run_handler 5 self "ev" None q 0%nat
           _ _ _ eq_refl H2 H3 H4 H5).
Defined.

Lemma signal_event_is_dispatched_next_witness :
  let self := TestDaemon.make ["a"] [("ev", None)] in
  let fuel := 5%nat in
  let signum := 1%N in
  EventQueueManager.root_due (clock self) (queue self) = false ∧
  try_body TestDaemon.run_handler fuel (_hnd_signal_hup signum self)
  = dispatch TestDaemon.run_handler fuel EVENT_SIGNAL_HUP None
      (log "warning" ("Received signal 'SIGHUP' (" +:+ pretty signum +:+ ")") self) ∧
  try_body TestDaemon.run_handler fuel (_hnd_signal_usr1 signum self)
  = dispatch TestDaemon.run_handler fuel EVENT_SIGNAL_USR1 None
      (log "info" ("Received signal 'SIGUSR1' (" +:+ pretty signum +:+ ")") self) ∧
  try_body TestDaemon.run_handler fuel (_hnd_signal_usr2 signum self)
  = dispatch TestDaemon.run_handler fuel EVENT_SIGNAL_USR2 None
      (log "info" ("Received signal 'SIGUSR2' (" +:+ pretty signum +:+ ")") self).
Proof.
  intros self fuel signum. split; [reflexivity|].
  exact (signal_event_is_dispatched_next TestDaemon.run_handler fuel signum self
           eq_refl).
Defined.

Lemma test_handler_quiet h :
  h ∈ ["a"; "tag"; "stop"; "never"] → quiet TestDaemon.run_handler h.
Proof.
  intros Hh s a. apply list_elem_of_In in Hh. simpl in Hh.
  destruct Hh as [<-|[<-|[<-|[<-|[]]]]]; by do 2 eexists.
Qed.

End setup_examples.

(** ** File names *)

Module naming_laws.
Import pylib pylib_facts zenfiles.

Lemma append_inj_r s x y : s +:+ x = s +:+ y → x = y.
Proof. apply (inj (String.app s)). Qed.

Lemma append_assoc s1 s2 s3 : (s1 +:+ s2) +:+ s3 = s1 +:+ s2 +:+ s3.
Proof.
  rewrite <-(str_chars ((s1 +:+ s2) +:+ s3)), <-(str_chars (s1 +:+ s2 +:+ s3)).
  by rewrite !chars_app, app_assoc.
Qed.

Lemma pretty_N_go_head x s :
  (0 < x)%N → ∃ c s', pretty_N_go x s = String c s' ∧ c ≠ "0"%char.
Proof.
  revert s. induction (N.lt_wf_0 x) as [x _ IH]; intros s Hx.
  rewrite pretty_N_go_step by done.
  destruct (decide (x `div` 10 = 0)%N) as [Hdiv|Hdiv].
  - rewrite Hdiv, pretty_N_go_0. eexists _, _. split; [done|].
    apply N.div_small_iff in Hdiv; [|done].
    rewrite N.mod_small by done. intros Hc.
    apply (pretty_N_char_inj x 0) in Hc; lia.
  - apply IH; [apply N.div_lt; lia|by apply N.neq_0_lt_0].
Qed.

Lemma pretty_N_head n :
  ∃ c s', pretty n = String c s' ∧ (c = "0"%char → n = 0%N).
Proof.
  unfold pretty, pretty_N. case_decide as Hn.
  - by exists "0"%char, "".
  - destruct (pretty_N_go_head n "") as (c & s' & -> & Hc); [lia|].
    by exists c, s'.
Qed.

Lemma str_replicate_S n c : str (replicate (S n) c) = String c (str (replicate n c)).
Proof. done. Qed.

Lemma str_replicate_add n m c :
  str (replicate (n + m) c) = str (replicate n c) +:+ str (replicate m c).
Proof. by rewrite replicate_add, str_app. Qed.

(** The decimal digits of two numbers, padded with zeros to five places,
    are the same only for the same number. *)
Lemma format_05d_inj n1 n2 : format_05d n1 = format_05d n2 → n1 = n2.
Proof.
  assert (∀ a b, (String.length (pretty a) < String.length (pretty b))%nat →
                 format_05d a ≠ format_05d b) as Hlt.
  { intros a b Hlen Heq.
    pose proof (f_equal String.length Heq) as Hl. rewrite !format_05d_length in Hl.
    unfold format_05d in Heq.
    destruct (pretty_N_head a) as (ca & sa & Ha & _).
    destruct (pretty_N_head b) as (cb & sb & Hb & Hb0).
    assert (5 - String.length (pretty a)
            = (5 - String.length (pretty b)) + S (String.length (pretty b)
                 - String.length (pretty a) - 1))%nat as Hpad by lia.
    rewrite Hpad, str_replicate_add, append_assoc in Heq.
    apply append_inj_r in Heq. rewrite str_replicate_S, Hb in Heq.
    simpl in Heq. injection Heq as Hc _.
    rewrite (Hb0 (eq_sym Hc)) in Hlen. rewrite Ha in Hlen. simpl in Hlen. lia. }
  intros Heq.
  destruct (Nat.lt_trichotomy (String.length (pretty n1))
              (String.length (pretty n2))) as [Hl|[Hl|Hl]].
  - by destruct (Hlt n1 n2 Hl).
  - unfold format_05d in Heq. rewrite Hl in Heq.
    apply append_inj_r in Heq. by apply (inj pretty).
  - by destruct (Hlt n2 n1 Hl).
Qed.

Lemma endswith_inv lit s :
  endswith lit s = true → s = drop_end (String.length lit) s +:+ lit.
Proof.
  unfold endswith, drop_end. intros Hend%bool_decide_eq_true.
  rewrite <-(length_chars lit).
  set (n := (length (chars s) - length (chars lit))%nat) in *.
  transitivity (str (take n (chars s) ++ drop n (chars s))).
  - by rewrite take_drop, str_chars.
  - by rewrite Hend, str_app, str_chars.
Qed.

Lemma prefix_slash_app t r r' :
  String.prefix "/" (t +:+ "." +:+ r) = String.prefix "/" (t +:+ "." +:+ r').
Proof.
  assert (∀ s, String.prefix "" s = true) as Hnil by (by intros []).
  destruct t as [|c t]; [reflexivity|].
  change (String c t +:+ "." +:+ r) with (String c (t +:+ "." +:+ r)).
  change (String c t +:+ "." +:+ r') with (String c (t +:+ "." +:+ r')).
  cbn [String.prefix]. destruct (ascii_dec _ c); [|done]. by rewrite !Hnil.
Qed.

Lemma os_path_join_inj a t r r' :
  os_path_join a (t +:+ "." +:+ r) = os_path_join a (t +:+ "." +:+ r') → r = r'.
Proof.
  unfold os_path_join. rewrite (prefix_slash_app t r r').
  destruct (String.prefix "/" _).
  - intros H. by apply append_inj_r, (append_inj_r ".") in H.
  - destruct (_ || _); intros H.
    + by apply append_inj_r, append_inj_r, (append_inj_r ".") in H.
    + by apply append_inj_r, (append_inj_r "/"), append_inj_r,
        (append_inj_r ".") in H.
Qed.


Lemma merge_sort_Permutation_eq (l1 l2 : list string) :
  l1 ≡ₚ l2 → merge_sort String.le l1 = merge_sort String.le l2.
Proof.
  intros Hperm. apply (Sorted_unique String.le).
  - apply (Sorted_merge_sort _).
  - apply (Sorted_merge_sort _).
  - by rewrite !merge_sort_Permutation.
Qed.

(** X26. The enumeration of the PID files depends on the files that [glob]
    finds and not on the order in which it lists them, and with [reverse] it
    is the list without [reverse] read backwards. *)
Theorem _pidfiles_list_order glob_glob glob_glob' self :
  (∀ pattern, glob_glob pattern ≡ₚ glob_glob' pattern) →
  (∀ descending,
     _pidfiles_list glob_glob descending self
     = _pidfiles_list glob_glob' descending self) ∧
  _pidfiles_list glob_glob true self
  = reverse (_pidfiles_list glob_glob false self).
Proof.
  intros Hglob. unfold _pidfiles_list, sorted. split.
  - intros [|].
    + f_equal. apply merge_sort_Permutation_eq.
      rewrite !reverse_Permutation. apply Hglob.
    + apply merge_sort_Permutation_eq. apply Hglob.
  - f_equal. apply merge_sort_Permutation_eq. apply reverse_Permutation.
Qed.
End naming_laws.

Module naming_examples.
Import pylib pylib_facts zenfiles naming_laws.


Lemma _pidfiles_list_order_witness :
  let glob_glob := λ _ : string, ["/run/d.00042.pid"; "/run/d.00007.pid"] in
  let glob_glob' := λ _ : string, ["/run/d.00007.pid"; "/run/d.00042.pid"] in
  let self := demo "/run/d.pid" in
  (∀ pattern, glob_glob pattern ≡ₚ glob_glob' pattern) ∧
  (∀ descending,
     _pidfiles_list glob_glob descending self
     = _pidfiles_list glob_glob' descending self) ∧
  _pidfiles_list glob_glob true self
  = reverse (_pidfiles_list glob_glob false self).
Proof.
  intros glob_glob glob_glob' self.
  assert (∀ pattern, glob_glob pattern ≡ₚ glob_glob' pattern) as H1
    by (intros pattern; apply perm_swap).
  split; [exact H1|].
  exact (_pidfiles_list_order glob_glob glob_glob' self H1).
Defined.
End naming_examples.

(** ** Daemon statistics *)

Module daemon_statistics_laws.
Import statistics statistics_facts ZenDaemonComponent daemon_statistics.
Import statistics_laws.

Lemma _get_statistics_loop_spec now comps : ∀ by_class res comps',
  _get_statistics_loop now comps by_class = Ok (res, comps') →
  (∀ cls, cls ∉ comps.*1 → dict_get res cls = dict_get by_class cls) ∧
  (∀ pre cls c post, comps = pre ++ (cls, c) :: post → cls ∉ post.*1 →
     ∃ stats c', get_statistics now c = Ok (stats, c') ∧
                 dict_get res cls = Some stats) ∧
  Forall2 (λ kc kc', kc'.1 = kc.1 ∧
                     statistics_cur kc'.2 = statistics_cur kc.2 ∧
                     statistics_prev kc'.2 = statistics_cur kc.2 ∧
                     statistics_ts kc'.2 = now) comps comps'.
Proof.
  induction comps as [|[class_name c] comps IH]; intros by_class res comps'.
  - simpl. intros [= <- <-]. split; [done|]. split; [|constructor].
    intros [|??] ????; done.
  - cbn [_get_statistics_loop].
    intros ([stats c1] & Hc & ([res1 comps1] & Hloop & [= <- <-])%bind_Ok)%bind_Ok.
    destruct (IH _ _ _ Hloop) as (Hout & Hin & Hall).
    split; [|split].
    + intros cls Hcls. simpl in Hcls. apply not_elem_of_cons in Hcls as [Hne Hcls].
      rewrite (Hout cls Hcls), dict_get_dict_set. by rewrite decide_False.
    + intros [|[cls0 c0] pre] cls c' post Heq Hpost; simplify_eq/=.
      * exists stats, c1. split; [done|].
        rewrite (Hout cls Hpost), dict_get_dict_set. by rewrite decide_True.
      * by apply (Hin pre cls c' post).
    + constructor; [|done]. simpl. unfold get_statistics in Hc.
      apply bind_Ok in Hc as (r & _ & [= <- <-]). done.
Qed.

End daemon_statistics_laws.

Module daemon_statistics_examples.
Import statistics ZenDaemonComponent daemon_statistics daemon_statistics_laws.

End daemon_statistics_examples.
